(** * bintrans: a shallow embedding of the binary protocol codec

    The development follows the three Python modules of the package:

    - [bintools] ([__init__.py]): byte buffers, [get_mask], [peek_bytes],
      [pop_bytes], [get_int], [pack_int] and the bit slicer [split_bits];
    - [field] ([field.py]): the field classes with their [validate], [pack],
      [enrich], [to_bytes] and [from_bytes] methods;
    - [protocol_block] ([protocol_block.py]): the recursive tree views.

    Python integers are [Z]; a [bytearray] is a [list Z] of values 0..255;
    a [str] is the list of its code points.  A function that mutates its
    buffer or writes to the diagnostics sink lives in the monad [M], a state
    monad over the [world] in which a raised exception keeps the state
    reached when it was raised, as in Python. *)

From Stdlib Require Import ZArith List String Bool Lia QArith Qround.
Import ListNotations.

#[local] Open Scope string_scope.
#[local] Open Scope Z_scope.

(** ** Exceptions, results and the diagnostics sink *)

(** The Python exceptions the modelled code raises.  The specification's
    error taxonomy names them by role: Underrun is [IndexError], Overflow is
    [OverflowError], ConfigurationError is [NameError]. *)
Inductive exn : Type :=
| IndexError
| OverflowError
| ValueError
| NameError
| AttributeError (name : string)
| TypeError
| ZeroDivisionError
| UnicodeEncodeError
| UnicodeDecodeError.

Inductive res (A : Type) : Type :=
| Ok (a : A)
| Raise (e : exn).

Arguments Ok {A} a.
Arguments Raise {A} e.

Definition rbind {A B} (r : res A) (k : A -> res B) : res B :=
  match r with Ok a => k a | Raise e => Raise e end.

(** A call of [dbg.warning] or [dbg.error]: the f-string is kept as its
    template and the list of the integers substituted into it. *)
Inductive diag : Type :=
| Warning (template : string) (args : list Z)
| Error (template : string) (args : list Z).

Definition is_warning (d : diag) : bool :=
  match d with Warning _ _ => true | Error _ _ => false end.

(** The mutable state an operation can touch: the caller's [bytearray] and
    what the diagnostics collaborator has received so far. *)
Record world : Type := mkWorld {
  stream : list Z;
  sink : list diag
}.

Definition M (A : Type) : Type := world -> res A * world.

Definition ret {A} (a : A) : M A := fun w => (Ok a, w).

Definition raise {A} (e : exn) : M A := fun w => (Raise e, w).

Definition bind {A B} (m : M A) (k : A -> M B) : M B :=
  fun w =>
    match m w with
    | (Ok a, w') => k a w'
    | (Raise e, w') => (Raise e, w')
    end.

Definition lift {A} (r : res A) : M A := fun w => (r, w).

Declare Scope py_scope.
Delimit Scope py_scope with py.
Notation "x <- m ;; k" := (bind m (fun x => k))
  (at level 61, m at next level, right associativity) : py_scope.
Notation "m ;;; k" := (bind m (fun _ => k))
  (at level 61, right associativity) : py_scope.
#[local] Open Scope py_scope.

Definition dbg_warning (template : string) (args : list Z) : M unit :=
  fun w => (Ok tt, mkWorld (stream w) (sink w ++ [Warning template args])).

Definition dbg_error (template : string) (args : list Z) : M unit :=
  fun w => (Ok tt, mkWorld (stream w) (sink w ++ [Error template args])).

Fixpoint mapM {A B} (f : A -> M B) (l : list A) : M (list B) :=
  match l with
  | [] => ret []
  | a :: l' => b <- f a ;; bs <- mapM f l' ;; ret (b :: bs)
  end.

(** The number of warnings among the diagnostics. *)
Definition warnings (ds : list diag) : nat :=
  List.length (filter is_warning ds).

(** ** Python builtins used by the code *)

(** [range(n)]: 0, 1, ..., n-1, empty when [n <= 0]. *)
Definition range (n : Z) : list Z := map Z.of_nat (seq 0 (Z.to_nat n)).

(** [sum(l)]. *)
Definition sum (l : list Z) : Z := fold_left Z.add l 0.

(** [math.ceil(n / 8)] for an integer [n]; the float quotient is exact
    for every bit count a buffer can hold. *)
Definition ceil_div8 (n : Z) : Z := - ((- n) / 8).

(** [len(l)] as a Python integer. *)
Definition len {A} (l : list A) : Z := Z.of_nat (List.length l).

(** [int.bit_length()]: the bits needed for the absolute value. *)
Definition bit_length (v : Z) : Z :=
  if v =? 0 then 0 else Z.log2 (Z.abs v) + 1.

(** The [n] low bytes of [v], least significant first. *)
Fixpoint le_bytes (n : nat) (v : Z) : list Z :=
  match n with
  | O => []
  | S n' => v mod 256 :: le_bytes n' (v / 256)
  end.

(** The value of a byte list read least significant byte first. *)
Fixpoint le_value (bs : list Z) : Z :=
  match bs with
  | [] => 0
  | b :: bs' => b + 256 * le_value bs'
  end.

(** The two byte orders [int.to_bytes] and [int.from_bytes] accept; any
    other token is a [ValueError] there. *)
Definition byteorder (endianness : string) (bs : list Z) : res (list Z) :=
  if String.eqb endianness "little" then Ok bs
  else if String.eqb endianness "big" then Ok (rev bs)
  else Raise ValueError.

(** [value.to_bytes(length, byteorder=endianness, signed=signed)]. *)
Definition int_to_bytes (value length : Z) (endianness : string)
    (signed : bool) : res (list Z) :=
  match byteorder endianness [] with
  | Raise e => Raise e
  | Ok _ =>
      if length <? 0 then Raise ValueError
      else if negb signed && (value <? 0) then Raise OverflowError
      else
        let fits :=
          if signed then
            (- 2 ^ (8 * length - 1) <=? value) && (value <? 2 ^ (8 * length - 1))
            || ((length =? 0) && (value =? 0))
          else value <? 2 ^ (8 * length) in
        if fits then byteorder endianness (le_bytes (Z.to_nat length) value)
        else Raise OverflowError
  end.

(** [int.from_bytes(mybytes, byteorder=endianness, signed=signed)]. *)
Definition int_from_bytes (mybytes : list Z) (endianness : string)
    (signed : bool) : res Z :=
  match byteorder endianness mybytes with
  | Raise e => Raise e
  | Ok bs =>
      let u := le_value bs in
      if signed && (0 <? len bs) && (2 ^ (8 * len bs - 1) <=? u) then
        Ok (u - 2 ^ (8 * len bs))
      else Ok u
  end.

Module bintools.

(** [_order_bytes(mybytes, endianness)]: a reversed copy for ["little"], a
    plain copy for ["big"], [NameError] otherwise. *)
Definition _order_bytes {A} (mybytes : list A) (endianness : string)
  : res (list A) :=
  if String.eqb endianness "little" then Ok (rev mybytes)
  else if String.eqb endianness "big" then Ok mybytes
  else Raise NameError.

(** [get_mask(num_bits, offset)]: [sum([2**i for i in range(num_bits)]) <<
    offset]; a negative shift count is a [ValueError] in Python. *)
Definition get_mask (num_bits offset : Z) : res Z :=
  let ones := sum (map (fun i => 2 ^ i) (range num_bits)) in
  if offset <? 0 then Raise ValueError else Ok (Z.shiftl ones offset).

(** [stream[i]] for a non-negative index. *)
Definition getitem (i : Z) : M Z :=
  fun w =>
    match nth_error (stream w) (Z.to_nat i) with
    | Some b => (Ok b, w)
    | None => (Raise IndexError, w)
    end.

(** [stream.pop(0)]. *)
Definition pop0 : M Z :=
  fun w =>
    match stream w with
    | [] => (Raise IndexError, w)
    | b :: s => (Ok b, mkWorld s (sink w))
    end.

(** [peek_bytes(stream, num)]: [[stream[i] for i in range(num)]]. *)
Definition peek_bytes (num : Z) : M (list Z) :=
  mapM getitem (range num).

(** [pop_bytes(stream, num)]:
    [bytearray([stream.pop(0) for _ in range(num)])]. *)
Definition pop_bytes (num : Z) : M (list Z) :=
  mapM (fun _ => pop0) (range num).

Definition _consumption_method (consume : bool) : Z -> M (list Z) :=
  if consume then pop_bytes else peek_bytes.

Definition get_bytes (num_bytes : Z) (consume : bool) : M (list Z) :=
  _consumption_method consume num_bytes.

(** The local variables of [split_bits] that survive from one requested
    slice to the next: the bytes read from the stream and not yet taken, the
    byte bits are being pulled from, and how many of its bits are gone.
    [working_byte] starts as [None] in Python; it is assigned before its
    first use because [working_byte_bits_consumed] starts at 0. *)
Record cursor : Type := mkCursor {
  mybytes : list Z;
  working_byte : Z;
  working_byte_bits_consumed : Z
}.

(** [mybytes.pop(0)] on the local list. *)
Definition next_byte (c : cursor) : M cursor :=
  if working_byte_bits_consumed c =? 0 then
    match mybytes c with
    | [] => raise IndexError
    | b :: rest => ret (mkCursor rest b 0)
    end
  else ret c.

(** The [while slice_bits_consumed < slice_length] loop of [split_bits].
    Every turn takes at least one bit, so [Z.to_nat slice_length] turns are
    enough ([slice_loop_fuel] below); [fuel] only makes the recursion
    structural. *)
Fixpoint slice_loop (fuel : nat) (slice_length : Z) (c : cursor)
    (segments : list (Z * Z)) (slice_bits_consumed : Z)
  : M (cursor * list (Z * Z)) :=
  if slice_bits_consumed <? slice_length then
    match fuel with
    | O => ret (c, segments)
    | S fuel' =>
        c1 <- next_byte c ;;
        let slice_bits_remaining := slice_length - slice_bits_consumed in
        let working_bits_remaining := 8 - working_byte_bits_consumed c1 in
        let capped_slice_length :=
          Z.min slice_bits_remaining working_bits_remaining in
        mask <- lift (get_mask capped_slice_length 0) ;;
        let segment := (Z.land (working_byte c1) mask, capped_slice_length) in
        slice_loop fuel' slice_length
          (mkCursor (mybytes c1)
             (Z.shiftr (working_byte c1) capped_slice_length)
             ((working_byte_bits_consumed c1 + capped_slice_length) mod 8))
          (segments ++ [segment])
          (slice_bits_consumed + capped_slice_length)
    end
  else ret (c, segments).

(** [myslice = 0; for v, n in ordered: myslice <<= n; myslice += v]. *)
Definition combine_segments (ordered : list (Z * Z)) : Z :=
  fold_left (fun myslice '(v, n) => Z.shiftl myslice n + v) ordered 0.

(** The [for slice_length in slice_lengths] loop of [split_bits]. *)
Fixpoint slices_loop (slice_lengths : list Z) (endianness : string)
    (c : cursor) (slices : list Z) : M (list Z) :=
  match slice_lengths with
  | [] => ret slices
  | slice_length :: rest =>
      r <- slice_loop (Z.to_nat slice_length) slice_length c [] 0 ;;
      let '(c', segments) := r in
      ordered <- lift (_order_bytes segments endianness) ;;
      slices_loop rest endianness c' (slices ++ [combine_segments ordered])
  end.

Definition bits_dropped_warning : string :=
  "Total bits requested {} does not consume a full number of bytes, {} bits will be dropped.".

(** [split_bits(stream, *slice_lengths, consume, endianness)]. *)
Definition split_bits (slice_lengths : list Z) (consume : bool)
    (endianness : string) : M (list Z) :=
  let bits_requested := sum slice_lengths in
  let bytes_required := ceil_div8 bits_requested in
  fun w =>
    let bytes_provided := len (stream w) in
    if bytes_required >? bytes_provided then raise OverflowError w
    else
      ((if negb (bits_requested mod 8 =? 0) then
          dbg_warning bits_dropped_warning
            [bits_requested; 8 - bits_requested mod 8]
        else ret tt) ;;;
       mybytes <- _consumption_method consume bytes_required ;;
       slices_loop slice_lengths endianness (mkCursor mybytes 0 0) []) w.

(** [get_int(stream, num_bytes, signed, consume, endianness)]. *)
Definition get_int (num_bytes : Z) (signed consume : bool)
    (endianness : string) : M Z :=
  mybytes <- _consumption_method consume num_bytes ;;
  lift (int_from_bytes mybytes endianness signed).

(** [pack_int(value, num_bytes, signed, endianness)]. *)
Definition pack_int (value num_bytes : Z) (signed : bool)
    (endianness : string) : res (list Z) :=
  if (num_bytes <? 1) || (bit_length value >? num_bytes * 8) then
    Raise OverflowError
  else int_to_bytes value num_bytes endianness signed.

(** [pack_partial_int(value, num_bits, signed, endianness, offset)]. *)
Definition pack_partial_int (value num_bits : Z) (signed : bool)
    (endianness : string) (offset : Z) : res (list Z) :=
  rbind (if offset <? 0 then Raise ValueError else Ok (Z.shiftl value offset))
    (fun value =>
       let bits_needed := num_bits + offset in
       if (bits_needed <? 1) || (bit_length value >? bits_needed) then
         Raise OverflowError
       else int_to_bytes value (ceil_div8 bits_needed) endianness signed).

(** [mybytes[-1] |= b]: the last byte of a [bytearray] is replaced; an
    empty array has no last byte, and a [bytearray] holds only 0..255. *)
Fixpoint or_last (mybytes : list Z) (b : Z) : res (list Z) :=
  match mybytes with
  | [] => Raise IndexError
  | [x] =>
      let y := Z.lor x b in
      if (0 <=? y) && (y <? 256) then Ok [y] else Raise ValueError
  | x :: rest => rbind (or_last rest b) (fun rest' => Ok (x :: rest'))
  end.

Definition pad_warning : string :=
  "Total bits to pack {} does not occupy a full number of bytes, padding with {} 0-bits.".

(** The [for i, (value, length) in enumerate(values)] loop of
    [merge_bits]: [done] is [values[0:i]], [todo] the pairs from [i] on. *)
Fixpoint merge_loop (done todo : list (Z * Z)) (endianness : string)
    (mybytes : list Z) : res (list Z) :=
  match todo with
  | [] => Ok mybytes
  | (value, length) :: todo' =>
      let offset := sum (map snd done) mod 8 in
      rbind (pack_partial_int value length false endianness offset)
        (fun new_bytes =>
           rbind
             (if negb (offset =? 0) then
                match new_bytes with
                | [] => Raise IndexError
                | b :: more =>
                    rbind (or_last mybytes b) (fun merged =>
                      if len new_bytes >? 1 then Ok (merged ++ more)%list
                      else Ok merged)
                end
              else Ok (mybytes ++ new_bytes)%list)
             (merge_loop (done ++ [(value, length)]) todo' endianness))
  end.

(** [merge_bits(values, endianness)]. *)
Definition merge_bits (values : list (Z * Z)) (endianness : string)
  : M (list Z) :=
  let bits_to_pack := sum (map snd values) in
  (if negb (bits_to_pack mod 8 =? 0) then
     dbg_warning pad_warning [bits_to_pack; 8 - bits_to_pack mod 8]
   else ret tt) ;;;
  lift (merge_loop [] values endianness []).

(** The [while len(stream) > 0] loop of [get_string]; it pops a byte a
    turn, so the length of the stream bounds its turns. *)
Fixpoint get_string_loop (fuel : nat) (length : option Z)
    (null_terminated : bool) (mystring : list Z) : M (list Z) :=
  fun w =>
    if len (stream w) >? 0 then
      match fuel with
      | O => ret mystring w
      | S fuel' =>
          (new_char <- get_int 1 false true "little" ;;
           let mystring := (mystring ++ [new_char])%list in
           if match length with
              | Some n => len mystring >=? n
              | None => false
              end
           then ret mystring
           else if null_terminated && (new_char =? 0) then ret mystring
           else get_string_loop fuel' length null_terminated mystring) w
      end
    else ret mystring w.

(** [get_string(stream, length, null_terminated, consume)]; without
    [consume] the loop runs on a copy of the stream. *)
Definition get_string (length : option Z) (null_terminated consume : bool)
  : M (list Z) :=
  fun w =>
    match length with
    | Some n =>
        if n <? 0 then raise IndexError w
        else
          let '(r, w') :=
            get_string_loop (List.length (stream w)) length null_terminated
              [] w in
          if consume then (r, w') else (r, mkWorld (stream w) (sink w'))
    | None =>
        let '(r, w') :=
          get_string_loop (List.length (stream w)) length null_terminated
            [] w in
        if consume then (r, w') else (r, mkWorld (stream w) (sink w'))
    end.

End bintools.

Module field.

(** [x or default] for an optional integer argument: [None] and [0] are
    both falsy. *)
Definition py_or (x : option Z) (default : Z) : Z :=
  match x with
  | Some v => if v =? 0 then default else v
  | None => default
  end.

(** *** [Field]: validate-on-set

    An object of a field class is its instance configuration (attributes
    other than [value], set before [value] is) and its stored [value].
    [validate] is the class's validation method. *)
Section Field.

Context {config raw : Type}.
Variable validate : config -> raw -> M raw.

Record object : Type := mkObject {
  self_config : config;
  value : raw
}.

(** [Field.__setattr__(self, "value", val)]:
    [super().__setattr__(name, self.validate(val))]. *)
Definition __setattr__ (self : object) (val : raw) : M object :=
  checked <- validate (self_config self) val ;;
  ret (mkObject (self_config self) checked).

(** [Field.__init__(self, value)]: [self.value = value], on an object
    whose other attributes are [c]. *)
Definition __init__ (c : config) (val : raw) : M object :=
  checked <- validate c val ;;
  ret (mkObject c checked).

End Field.

Arguments object : clear implicits.
Arguments mkObject {config raw} self_config value.

(** *** [IntField] *)
Module IntField.

(** The class attributes a subclass of [IntField] sets.  [MINIMUM] and
    [MAXIMUM] are class properties returning the bit-length bounds unless
    a subclass overrides them with a constant. *)
Record cls : Type := mkCls {
  BIT_LENGTH : Z;
  SIGNED : bool;
  MINIMUM_override : option Z;
  MAXIMUM_override : option Z
}.

Definition BIT_LENGTH_MINIMUM (c : cls) : Z :=
  if SIGNED c then - 2 ^ (BIT_LENGTH c - 1) else 0.

Definition BIT_LENGTH_MAXIMUM (c : cls) : Z :=
  if SIGNED c then 2 ^ (BIT_LENGTH c - 1) - 1 else 2 ^ BIT_LENGTH c - 1.

Definition MINIMUM (c : cls) : Z :=
  match MINIMUM_override c with
  | Some m => m
  | None => BIT_LENGTH_MINIMUM c
  end.

Definition MAXIMUM (c : cls) : Z :=
  match MAXIMUM_override c with
  | Some m => m
  | None => BIT_LENGTH_MAXIMUM c
  end.

Definition too_big : string :=
  "{cls} value {} is too big to be contained within {} bits. Must be maximum of {}.".
Definition too_small : string :=
  "{cls} value {} is too small to be contained within {} bits. Must be minimum of {}.".
Definition below_minimum : string :=
  "{cls} value {} below defined minimum {} but within protocol-supported range of [{}, {}].".
Definition above_maximum : string :=
  "{cls} value {} above defined maximum {} but within protocol-supported range of [{}, {}].".

(** [IntField.validate(cls, val, bit_min, bit_max, min, max)]. *)
Definition validate (c : cls) (val : Z)
    (bit_min bit_max min max : option Z) : M Z :=
  let bit_min := py_or bit_min (BIT_LENGTH_MINIMUM c) in
  let bit_max := py_or bit_max (BIT_LENGTH_MAXIMUM c) in
  let min := py_or min (MINIMUM c) in
  let max := py_or max (MAXIMUM c) in
  if val >? bit_max then
    dbg_error too_big [val; BIT_LENGTH c; bit_max] ;;; raise OverflowError
  else if val <? bit_min then
    dbg_error too_small [val; BIT_LENGTH c; bit_min] ;;; raise OverflowError
  else
    (if val <? min then
       dbg_warning below_minimum [val; min; bit_min; bit_max]
     else ret tt) ;;;
    if val >? max then
      dbg_warning above_maximum [val; max; bit_min; bit_max] ;;; ret val
    else ret val.

(** [enrich(self)]: the value clamped to the bit-length bounds. *)
Definition enrich (c : cls) (value : Z) : Z :=
  Z.max (Z.min value (BIT_LENGTH_MAXIMUM c)) (BIT_LENGTH_MINIMUM c).

(** [IntField.from_bytes(cls, stream, num_bytes, signed, consume,
    endianness)]. *)
Definition from_bytes (num_bytes : Z) (signed consume : bool)
    (endianness : string) : M Z :=
  if num_bytes mod 8 =? 0 then
    bintools.get_int num_bytes signed consume endianness
  else raise ValueError.

(** [to_bytes(self)]; [bit_length] is the instance's bit length, the
    class's [BIT_LENGTH] unless the class redefines the property. *)
Definition to_bytes (c : cls) (bit_length value : Z) : res (list Z) :=
  bintools.pack_int value (ceil_div8 bit_length) (SIGNED c) "little".

(** The class [IntField] itself. *)
Definition IntField : cls := mkCls 8 false None None.

End IntField.

(** *** [DynamicLengthIntField] and [ReservedField] *)
Module ReservedField.

(** [ReservedField] inherits [BIT_LENGTH = 8] and [SIGNED = False] from
    [IntField] and sets [MAXIMUM = 0]. *)
Definition ReservedField : IntField.cls :=
  IntField.mkCls 8 false None (Some 0).

(** The instance attribute set by [__init__] before the value. *)
Record config : Type := mkConfig { size : Z }.

(** [DynamicLengthIntField.validate(self, value)]:
    [super().validate(value, bit_max = 2 ** self.size)].  The bound is an
    integer for [size >= 0], the sizes this model covers; for a negative
    [size] Python's [2 ** self.size] is a float. *)
Definition validate (self : config) (value : Z) : M Z :=
  IntField.validate ReservedField value None (Some (2 ^ size self)) None None.

(** [DynamicLengthIntField.__init__(self, value, size = 8)]. *)
Definition __init__ (value size : Z) : M (object config Z) :=
  __init__ validate (mkConfig size) value.

Definition enrich (self : object config Z) : Z := value self.

End ReservedField.

(** *** [PackedIntField]

    Human values are Python numbers; they are modelled as the rationals
    they denote, on which subtraction, division and multiplication are
    exact.  Python's float operations agree with them when the operands
    and the result are doubles ([binary64] below); they differ when a
    result is rounded or overflows to infinity, where [int(inf)] raises
    [OverflowError]. *)
Module PackedIntField.

Record cls : Type := mkCls {
  BIT_LENGTH : Z;
  SIGNED : bool;
  UNPACKED_MINIMUM : Q;
  UNPACKED_RESOLUTION : Q;
  RESOLUTION : Q
}.

Definition BIT_LENGTH_MINIMUM (c : cls) : Z :=
  if SIGNED c then - 2 ^ (BIT_LENGTH c - 1) else 0.

Definition BIT_LENGTH_MAXIMUM (c : cls) : Z :=
  if SIGNED c then 2 ^ (BIT_LENGTH c - 1) - 1 else 2 ^ BIT_LENGTH c - 1.

Definition UNPACKED_MAXIMUM (c : cls) : Q :=
  (UNPACKED_MINIMUM c
   + inject_Z (BIT_LENGTH_MAXIMUM c) * UNPACKED_RESOLUTION c)%Q.

(** The rationals that are finite doubles: [m * 2 ** e] with a 53-bit
    [m] and [e] from the least subnormal exponent to the greatest one. *)
Definition binary64 (x : Q) : Prop :=
  exists m e : Z,
    Z.abs m < 2 ^ 53 /\ -1074 <= e <= 971 /\ (x == inject_Z m * 2 ^ e)%Q.

(** [int(x)] for a float: truncation towards zero. *)
Definition int (x : Q) : Z :=
  if Qle_bool 0 x then Qfloor x else Qceiling x.

(** [x / y]. *)
Definition truediv (x y : Q) : res Q :=
  if Qeq_bool y 0 then Raise ZeroDivisionError else Ok (x / y)%Q.

(** [PackedIntField.pack(cls, val)]. *)
Definition pack (c : cls) (val : Q) : res Z :=
  match truediv (val - UNPACKED_MINIMUM c)%Q (UNPACKED_RESOLUTION c) with
  | Raise e => Raise e
  | Ok packed =>
      if negb (Qeq_bool packed (inject_Z (int packed))) then Raise ValueError
      else if negb (Qle_bool packed (inject_Z (BIT_LENGTH_MAXIMUM c))) then
        Raise ValueError
      else if negb (Qle_bool (inject_Z (BIT_LENGTH_MINIMUM c)) packed) then
        Raise ValueError
      else Ok (int packed)
  end.

(** [min(x, y)] and [max(x, y)]: the first argument wins a tie. *)
Definition min (x y : Q) : Q := if Qle_bool x y then x else y.
Definition max (x y : Q) : Q := if Qle_bool y x then x else y.

(** [enrich(self)] for a field whose stored value is [value]. *)
Definition enrich (c : cls) (value : Z) : Q :=
  let unpacked_value :=
    (UNPACKED_MINIMUM c + inject_Z value * UNPACKED_RESOLUTION c)%Q in
  max (min unpacked_value (UNPACKED_MAXIMUM c)) (UNPACKED_MINIMUM c).

Definition must_be_in_increments : string :=
  "{cls} value {} must be in increments of {res}.".

(** [PackedIntField.validate(cls, val)] with its optional arguments left
    out: [MINIMUM] and [MAXIMUM] are the packed unpacked bounds. *)
Definition validate (c : cls) (val : Z) : M Z :=
  let bit_min := BIT_LENGTH_MINIMUM c in
  let bit_max := BIT_LENGTH_MAXIMUM c in
  min <- lift (pack c (UNPACKED_MINIMUM c)) ;;
  max <- lift (pack c (UNPACKED_MAXIMUM c)) ;;
  let res := RESOLUTION c in
  if val >? bit_max then
    dbg_error IntField.too_big [val; BIT_LENGTH c; bit_max] ;;;
    raise OverflowError
  else if val <? bit_min then
    dbg_error IntField.too_small [val; BIT_LENGTH c; bit_min] ;;;
    raise OverflowError
  else
    (if val <? min then
       dbg_warning IntField.below_minimum [val; min; bit_min; bit_max]
     else ret tt) ;;;
    if val >? max then
      dbg_warning IntField.above_maximum [val; max; bit_min; bit_max] ;;;
      ret val
    else
      q <- lift (truediv (inject_Z val) res) ;;
      if negb (Qeq_bool q (inject_Z (int q))) then
        dbg_error must_be_in_increments [val] ;;; raise ValueError
      else ret val.

(** A subclass with [UNPACKED_MINIMUM = 0], [UNPACKED_RESOLUTION = 0.5]
    and the inherited [BIT_LENGTH = 8], [SIGNED = False],
    [RESOLUTION = 1]. *)
Definition HalfStepField : cls := mkCls 8 false 0 (1 # 2) 1.

End PackedIntField.

(** *** [MaskField] *)
Module MaskField.

(** A subclass of [MaskField] overrides the [Flags] enumeration, a list
    of named flag values; an instance adds its stored [value]. *)
Record obj : Type := mkObj {
  Flags : list (string * Z);
  value : Z
}.

(** The class property [BIT_LENGTH]: [len(cls.Flags)]. *)
Definition BIT_LENGTH (self : obj) : Z := len (Flags self).

(** [getattr(self, name)] for the integer attributes an instance of a
    [MaskField] subclass has: [value] from the instance, [BIT_LENGTH]
    from [MaskField], the bounds and [DEFAULT] from [IntField],
    [bit_length] from [Field] and [TAB_SIZE] from [ProtocolBlock].  No
    class on the path [MaskField], [IntField], [Field], [ProtocolBlock],
    [object] defines any other integer attribute, and none defines
    [__getattr__]. *)
Definition getattr (self : obj) (name : string) : res Z :=
  let c := IntField.mkCls (BIT_LENGTH self) false None None in
  if String.eqb name "value" then Ok (value self)
  else if String.eqb name "BIT_LENGTH" then Ok (BIT_LENGTH self)
  else if String.eqb name "bit_length" then Ok (BIT_LENGTH self)
  else if String.eqb name "BIT_LENGTH_MINIMUM" then
    Ok (IntField.BIT_LENGTH_MINIMUM c)
  else if String.eqb name "BIT_LENGTH_MAXIMUM" then
    Ok (IntField.BIT_LENGTH_MAXIMUM c)
  else if String.eqb name "MINIMUM" then Ok (IntField.MINIMUM c)
  else if String.eqb name "MAXIMUM" then Ok (IntField.MAXIMUM c)
  else if String.eqb name "DEFAULT" then Ok 0
  else if String.eqb name "TAB_SIZE" then Ok 4
  else Raise (AttributeError name).

(** [x << places] and [x >> places]: a negative count is a
    [ValueError]. *)
Definition lshift (x places : Z) : res Z :=
  if places <? 0 then Raise ValueError else Ok (Z.shiftl x places).
Definition rshift (x places : Z) : res Z :=
  if places <? 0 then Raise ValueError else Ok (Z.shiftr x places).

(** [return (self.value & val) & self.MASK] and its three siblings. *)
Definition __and__ (self : obj) (val : Z) : res Z :=
  rbind (getattr self "value") (fun v =>
  let lhs := Z.land v val in
  rbind (getattr self "MASK") (fun mask => Ok (Z.land lhs mask))).

Definition __or__ (self : obj) (val : Z) : res Z :=
  rbind (getattr self "value") (fun v =>
  let lhs := Z.lor v val in
  rbind (getattr self "MASK") (fun mask => Ok (Z.land lhs mask))).

Definition __xor__ (self : obj) (val : Z) : res Z :=
  rbind (getattr self "value") (fun v =>
  let lhs := Z.lxor v val in
  rbind (getattr self "MASK") (fun mask => Ok (Z.land lhs mask))).

Definition __invert__ (self : obj) : res Z :=
  rbind (getattr self "value") (fun v =>
  let lhs := Z.lnot v in
  rbind (getattr self "MASK") (fun mask => Ok (Z.land lhs mask))).

(** [return (self.value << places) & bintools.get_mask(self.BIT_LENGTH)]
    and its sibling. *)
Definition __lshift__ (self : obj) (places : Z) : res Z :=
  rbind (getattr self "value") (fun v =>
  rbind (lshift v places) (fun lhs =>
  rbind (getattr self "BIT_LENGTH") (fun n =>
  rbind (bintools.get_mask n 0) (fun mask => Ok (Z.land lhs mask))))).

Definition __rshift__ (self : obj) (places : Z) : res Z :=
  rbind (getattr self "value") (fun v =>
  rbind (rshift v places) (fun lhs =>
  rbind (getattr self "BIT_LENGTH") (fun n =>
  rbind (bintools.get_mask n 0) (fun mask => Ok (Z.land lhs mask))))).

(** [enrich(self)]:
    [{f.name: self.value & f.value != 0 for f in self.Flags}]. *)
Definition enrich (self : obj) : list (string * bool) :=
  map (fun f => (fst f, negb (Z.land (value self) (snd f) =? 0)))
    (Flags self).

End MaskField.

(** *** [StringField]

    A [str] is the list of its code points, a [bytes] value the list of
    its bytes. *)
Module StringField.

Record cls : Type := mkCls { MAX_LENGTH : Z }.

(** The class [StringField] itself: [MAX_LENGTH = 256],
    [ENCODING = "latin-1"]. *)
Definition StringField : cls := mkCls 256.

Definition cons_ok (c : Z) (r : res (list Z)) : res (list Z) :=
  rbind r (fun cs => Ok (c :: cs)).

(** [val.encode("latin-1")]: one byte per code point below 256. *)
Fixpoint encode_latin1 (val : list Z) : res (list Z) :=
  match val with
  | [] => Ok []
  | c :: val' =>
      if (0 <=? c) && (c <? 256) then cons_ok c (encode_latin1 val')
      else Raise UnicodeEncodeError
  end.

Definition continuation (b : Z) : bool := (0x80 <=? b) && (b <=? 0xBF).

Definition within (lo hi b : Z) : bool := (lo <=? b) && (b <=? hi).

(** [b.decode()]: the codec defaults to strict UTF-8, which rejects
    stray continuation bytes, overlong forms, surrogates, code points
    above U+10FFFF and truncated sequences. *)
Fixpoint decode_utf8 (bs : list Z) : res (list Z) :=
  match bs with
  | [] => Ok []
  | b0 :: r0 =>
      if within 0 0x7F b0 then cons_ok b0 (decode_utf8 r0)
      else if within 0xC2 0xDF b0 then
        match r0 with
        | b1 :: r1 =>
            if continuation b1 then
              cons_ok (Z.lor (Z.shiftl (Z.land b0 0x1F) 6) (Z.land b1 0x3F))
                (decode_utf8 r1)
            else Raise UnicodeDecodeError
        | _ => Raise UnicodeDecodeError
        end
      else if within 0xE0 0xEF b0 then
        match r0 with
        | b1 :: b2 :: r2 =>
            let lo := if b0 =? 0xE0 then 0xA0 else 0x80 in
            let hi := if b0 =? 0xED then 0x9F else 0xBF in
            if within lo hi b1 && continuation b2 then
              cons_ok
                (Z.lor (Z.shiftl (Z.land b0 0x0F) 12)
                   (Z.lor (Z.shiftl (Z.land b1 0x3F) 6) (Z.land b2 0x3F)))
                (decode_utf8 r2)
            else Raise UnicodeDecodeError
        | _ => Raise UnicodeDecodeError
        end
      else if within 0xF0 0xF4 b0 then
        match r0 with
        | b1 :: b2 :: b3 :: r3 =>
            let lo := if b0 =? 0xF0 then 0x90 else 0x80 in
            let hi := if b0 =? 0xF4 then 0x8F else 0xBF in
            if within lo hi b1 && continuation b2 && continuation b3 then
              cons_ok
                (Z.lor (Z.shiftl (Z.land b0 0x07) 18)
                   (Z.lor (Z.shiftl (Z.land b1 0x3F) 12)
                      (Z.lor (Z.shiftl (Z.land b2 0x3F) 6)
                         (Z.land b3 0x3F))))
                (decode_utf8 r3)
            else Raise UnicodeDecodeError
        | _ => Raise UnicodeDecodeError
        end
      else Raise UnicodeDecodeError
  end.

(** [StringField.validate(cls, val)]:
    [encoded_string = val.encode(cls.ENCODING).decode()], returned when
    no longer than [MAX_LENGTH]. *)
Definition validate (c : cls) (val : list Z) : M (list Z) :=
  encoded_string <- lift (rbind (encode_latin1 val) decode_utf8) ;;
  if len encoded_string <=? MAX_LENGTH c then ret encoded_string
  else raise ValueError.

(** [pack(cls, val)] and [enrich(self)] both return [validate]'s
    result. *)
Definition pack (c : cls) (val : list Z) : M (list Z) := validate c val.
Definition enrich (self : object cls (list Z)) : M (list Z) :=
  validate (self_config self) (value self).

(** [to_bytes(self)] with [null_padded = False]:
    [bintools.pack_string(self.value, max_length = self.MAX_LENGTH)]. *)
Definition to_bytes (self : object cls (list Z)) : res (list Z) :=
  if len (value self) >? MAX_LENGTH (self_config self) then
    Raise OverflowError
  else encode_latin1 (value self).

End StringField.

(** *** [EnumField], [BitEnabledField] and [BitDisabledField] *)
Module EnumField.

(** [EnumValues] lists the members of the enumeration in definition
    order, each a name and a value; a later member with the value of an
    earlier one is an alias of it. *)
Record cls : Type := mkCls {
  BIT_LENGTH : Z;
  SIGNED : bool;
  EnumValues : list (string * Z)
}.

(** [cls.EnumValues(val)]: the first member with that value;
    [ValueError] when there is none. *)
Fixpoint member (members : list (string * Z)) (val : Z)
  : res (string * Z) :=
  match members with
  | [] => Raise ValueError
  | (name, v) :: members' =>
      if v =? val then Ok (name, v) else member members' val
  end.

(** [min([v.value for v in list(cls.EnumValues)])] and its [max]. *)
Definition least (values : list Z) (default : Z) : Z :=
  match values with
  | [] => default
  | v :: values' => fold_left Z.min values' v
  end.

Definition greatest (values : list Z) (default : Z) : Z :=
  match values with
  | [] => default
  | v :: values' => fold_left Z.max values' v
  end.

(** The class seen as an [IntField]: [MINIMUM] and [MAXIMUM] are the
    least and the greatest member values, the bit-length bounds when the
    enumeration is empty. *)
Definition as_int_field (c : cls) : IntField.cls :=
  let base := IntField.mkCls (BIT_LENGTH c) (SIGNED c) None None in
  IntField.mkCls (BIT_LENGTH c) (SIGNED c)
    (Some (least (map snd (EnumValues c)) (IntField.BIT_LENGTH_MINIMUM base)))
    (Some (greatest (map snd (EnumValues c))
             (IntField.BIT_LENGTH_MAXIMUM base))).

(** [EnumField.validate(cls, val)]. *)
Definition validate (c : cls) (val : Z) : M Z :=
  match member (EnumValues c) val with
  | Ok m => ret (snd m)
  | Raise _ => IntField.validate (as_int_field c) val None None None None
  end.

(** [enrich(self)]: the member's name, or [IntField.enrich]'s integer. *)
Definition enrich (c : cls) (value : Z) : string + Z :=
  match member (EnumValues c) value with
  | Ok m => inl (fst m)
  | Raise _ => inr (IntField.enrich (as_int_field c) value)
  end.

Definition BitEnabledField : cls :=
  mkCls 1 false [("DISABLED", 0); ("ENABLED", 1)].

Definition BitDisabledField : cls :=
  mkCls 1 false [("ENABLED", 0); ("DISABLED", 1)].

End EnumField.

(** *** [TimeField] and [DateTimeField], on integer values *)
Module TimeField.

Definition TimeField : IntField.cls :=
  IntField.mkCls 17 false (Some 0) (Some (24 * 60 * 60)).

Definition INVALID_TIME : Z := 0x1FFFF.

Definition invalid_seconds : string :=
  "{cls} has invalid number of seconds: {} exceeds {} seconds.".

(** [TimeField.validate(cls, val)] for an [int]. *)
Definition validate (val : Z) : M Z :=
  if val =? INVALID_TIME then ret val
  else if (val <? IntField.BIT_LENGTH_MINIMUM TimeField)
          || (val >? IntField.BIT_LENGTH_MAXIMUM TimeField) then
    raise OverflowError
  else
    (if (val <? IntField.MINIMUM TimeField)
        || (val >? IntField.MAXIMUM TimeField) then
       dbg_warning invalid_seconds [val; IntField.MAXIMUM TimeField]
     else ret tt) ;;;
    ret val.

End TimeField.

Module DateTimeField.

Definition TIME_BIT_LENGTH : Z := 17.
Definition DATE_BIT_LENGTH : Z := 15.
Definition MIN_TIME : Z := 0.
Definition MAX_TIME : Z := 24 * 60 * 60.
Definition MIN_DATE : Z := 0.
Definition MAX_DATE : Z := sum (map (fun i => 2 ^ i) (range DATE_BIT_LENGTH)).
Definition TIME_MASK : Z := sum (map (fun i => 2 ^ i) (range TIME_BIT_LENGTH)).

(** [DateTimeField.validate(cls, val)] for an [int]. *)
Definition validate (val : Z) : M Z :=
  let date := Z.shiftr val TIME_BIT_LENGTH in
  if (date <? MIN_DATE) || (date >? MAX_DATE) then raise OverflowError
  else
    let time := Z.land val TIME_MASK in
    (if (time <? MIN_TIME) || (time >? MAX_TIME) then
       dbg_warning TimeField.invalid_seconds [time; MAX_TIME]
     else ret tt) ;;;
    ret val.

(** The day count and the seconds [enrich] reads from the stored
    value. *)
Definition days (value : Z) : Z := Z.shiftr value TIME_BIT_LENGTH.
Definition seconds (value : Z) : Z := Z.land value TIME_MASK.

End DateTimeField.

(** *** [RawDataField] *)
Module RawDataField.

Record cls : Type := mkCls { MAX_LENGTH : Z }.

Definition RawDataField : cls := mkCls 1024.

(** [RawDataField.validate(cls, val)]. *)
Definition validate (c : cls) (val : list Z) : M (list Z) :=
  if len val >? MAX_LENGTH c then raise OverflowError else ret val.

(** [RawDataField.from_bytes(cls, stream, num_bytes, consume)]. *)
Definition from_bytes (num_bytes : Z) (consume : bool) : M (list Z) :=
  bintools.get_bytes num_bytes consume.

Definition to_bytes (self : object cls (list Z)) : list Z := value self.

End RawDataField.

End field.

(** The string writer of [bintools] and the reader behind
    [StringField.from_bytes]; they use the Latin-1 codec defined with
    [StringField]. *)
Module bintools_strings.

(** [pack_string(value, max_length, null_padded)] with the default
    encoding ["latin-1"]. *)
Definition pack_string (value : list Z) (max_length : option Z)
    (null_padded : bool) : res (list Z) :=
  match max_length with
  | Some n =>
      if len value >? n then Raise OverflowError
      else if null_padded then
        field.StringField.encode_latin1
          (value ++ repeat 0 (Z.to_nat (n - len value)))%list
      else field.StringField.encode_latin1 value
  | None => field.StringField.encode_latin1 value
  end.

(** [StringField.from_bytes(cls, stream, length, null_terminated,
    consume)]. *)
Definition from_bytes (length : option Z) (null_terminated consume : bool)
  : M (list Z) :=
  bintools.get_string length null_terminated consume.

End bintools_strings.

Module protocol_block.

#[local] Set Warnings "-register-all".

(** The tree walks only tell four kinds of field apart: a
    [ReservedField], a [BlockListField], a [BlockField], and any other
    field, of which they read [f.value] or call [f.enrich()].  The other
    fields are kept abstract: [plain] is their type, [stored] their
    [value] attribute and [enrich] their [enrich()] method. *)
Section Views.

Variables plain value : Type.
Variable stored : plain -> value.
Variable of_int : Z -> value.
Variable enrich : plain -> res value.

(** A field of a block; a [ProtocolBlock] is its [fields] dictionary in
    insertion order. *)
Inductive Field : Type :=
| PlainField (f : plain)
| ReservedField (value size : Z)
| BlockField (value : list (string * Field))
| BlockListField (value : list (list (string * Field))).

Definition ProtocolBlock : Type := list (string * Field).

(** What the walks build: a primitive value, a dictionary or a list. *)
Inductive view : Type :=
| Value (v : value)
| Dict (entries : list (string * view))
| List (items : list view).

(** [fields[k] = v] on a dictionary kept in insertion order. *)
Fixpoint setitem (k : string) (v : view) (d : list (string * view))
  : list (string * view) :=
  match d with
  | [] => [(k, v)]
  | (k', v') :: d' =>
      if String.eqb k k' then (k, v) :: d' else (k', v') :: setitem k v d'
  end.

(** [d.get(k)]. *)
Fixpoint lookup (k : string) (d : list (string * view)) : option view :=
  match d with
  | [] => None
  | (k', v) :: d' => if String.eqb k k' then Some v else lookup k d'
  end.

(** The value [_get_object_dict] stores under the key of field [f]. *)
Fixpoint raw_entry (f : Field) : view :=
  match f with
  | PlainField p => Value (stored p)
  | ReservedField v _ => Value (of_int v)
  | BlockField b =>
      Dict (fold_left
              (fun fields kf => setitem (fst kf) (raw_entry (snd kf)) fields)
              b [])
  | BlockListField bs =>
      List (map
              (fun b =>
                 Dict (fold_left
                         (fun fields kf =>
                            setitem (fst kf) (raw_entry (snd kf)) fields)
                         b []))
              bs)
  end.

(** [ProtocolBlock._get_object_dict(self)]. *)
Definition _get_object_dict (self : ProtocolBlock) : list (string * view) :=
  fold_left (fun fields kf => setitem (fst kf) (raw_entry (snd kf)) fields)
    self [].

Definition is_reserved (f : Field) : bool :=
  match f with ReservedField _ _ => true | _ => false end.

(** A list comprehension whose elements can raise: the first exception
    ends it. *)
Fixpoint sequence {A} (l : list (res A)) : res (list A) :=
  match l with
  | [] => Ok []
  | r :: l' => rbind r (fun a => rbind (sequence l') (fun l'' => Ok (a :: l'')))
  end.

(** One turn of the loop of [_enrich_object_dict], given how to enrich a
    field that is not reserved. *)
Definition enrich_step (entry : Field -> res view)
    (acc : res (list (string * view))) (kf : string * Field)
  : res (list (string * view)) :=
  rbind acc (fun fields =>
    if is_reserved (snd kf) then Ok fields
    else rbind (entry (snd kf)) (fun v => Ok (setitem (fst kf) v fields))).

(** The value [_enrich_object_dict] stores under the key of a field [f]
    that is not a [ReservedField]. *)
Fixpoint enriched_entry (f : Field) : res view :=
  match f with
  | PlainField p => rbind (enrich p) (fun v => Ok (Value v))
  | ReservedField v _ => Ok (Value (of_int v))
  | BlockField b =>
      rbind (fold_left (enrich_step enriched_entry) b (Ok []))
        (fun d => Ok (Dict d))
  | BlockListField bs =>
      rbind
        (sequence
           (map
              (fun b =>
                 rbind (fold_left (enrich_step enriched_entry) b (Ok []))
                   (fun d => Ok (Dict d)))
              bs))
        (fun items => Ok (List items))
  end.

(** [ProtocolBlock._enrich_object_dict(self)]. *)
Definition _enrich_object_dict (self : ProtocolBlock)
  : res (list (string * view)) :=
  fold_left (enrich_step enriched_entry) self (Ok []).

(** A Python dictionary has each key once; [fields_ok] says so of a
    block and of every block below it. *)
Fixpoint field_ok (f : Field) : Prop :=
  match f with
  | PlainField _ | ReservedField _ _ => True
  | BlockField b =>
      NoDup (map fst b)
      /\ fold_right (fun kf rest => field_ok (snd kf) /\ rest) True b
  | BlockListField bs =>
      fold_right
        (fun b rest =>
           (NoDup (map fst b)
            /\ fold_right (fun kf rest' => field_ok (snd kf) /\ rest') True b)
           /\ rest)
        True bs
  end.

Definition fields_ok (self : ProtocolBlock) : Prop :=
  field_ok (BlockField self).

(** A place in a tree: the keys and list positions that lead to it. *)
Inductive step : Type :=
| Key (k : string)
| Index (i : nat).

(** [resolves p t]: following [p] from [t] finds an entry at every
    step, so the last key of [p] is a key of the dictionary reached. *)
Fixpoint resolves (p : list step) (t : view) : bool :=
  match p with
  | [] => true
  | Key k :: p' =>
      match t with
      | Dict d =>
          match lookup k d with
          | Some t' => resolves p' t'
          | None => false
          end
      | _ => false
      end
  | Index i :: p' =>
      match t with
      | List l =>
          match nth_error l i with
          | Some t' => resolves p' t'
          | None => false
          end
      | _ => false
      end
  end.

(** [reserved_at b p]: [p] leads from block [b], through nested blocks
    and block lists, to a key whose field is a [ReservedField]. *)
Inductive reserved_at : ProtocolBlock -> list step -> Prop :=
| reserved_here b k v n :
    In (k, ReservedField v n) b -> reserved_at b [Key k]
| reserved_in_block b k b' p :
    In (k, BlockField b') b -> reserved_at b' p ->
    reserved_at b (Key k :: p)
| reserved_in_list b k bs i b' p :
    In (k, BlockListField bs) b -> nth_error bs i = Some b' ->
    reserved_at b' p -> reserved_at b (Key k :: Index i :: p).

End Views.

Arguments PlainField {plain} f.
Arguments ReservedField {plain} value size.
Arguments BlockField {plain} value.
Arguments BlockListField {plain} value.
Arguments Value {value} v.
Arguments Dict {value} entries.
Arguments List {value} items.
Arguments setitem {value} k v d.
Arguments lookup {value} k d.
Arguments raw_entry {plain value} stored of_int f.
Arguments _get_object_dict {plain value} stored of_int self.
Arguments is_reserved {plain} f.
Arguments enrich_step {plain value} entry acc kf.
Arguments enriched_entry {plain value} of_int enrich f.
Arguments _enrich_object_dict {plain value} of_int enrich self.
Arguments field_ok {plain} f.
Arguments fields_ok {plain} self.
Arguments resolves {value} p t.
Arguments reserved_at {plain} _ _.

(** What [merge_int_fields] reads of a field [f] is [f.value] and the
    property [f.bit_length].  [Field.bit_length] returns the class's
    [BIT_LENGTH]: so it is for an instance of [IntField] or of a subclass
    that only sets the class attributes ([OfClass]).
    [DynamicLengthIntField.bit_length] returns the instance's [size]: so
    it is for a [ReservedField] ([OfDynamicLength]). *)
Inductive int_field : Type :=
| OfClass (c : field.IntField.cls) (value : Z)
| OfDynamicLength (self : field.object field.ReservedField.config Z).

(** [f.value]. *)
Definition obj_value (f : int_field) : Z :=
  match f with
  | OfClass _ value => value
  | OfDynamicLength self => field.value self
  end.

(** [f.bit_length]. *)
Definition obj_bit_length (f : int_field) : Z :=
  match f with
  | OfClass c _ => field.IntField.BIT_LENGTH c
  | OfDynamicLength self => field.ReservedField.size (field.self_config self)
  end.

(** [ProtocolBlock.merge_int_fields(fields)]:
    [bintools.merge_bits([(f.value, f.bit_length) for f in fields])]. *)
Definition merge_int_fields (fields : list int_field) : M (list Z) :=
  bintools.merge_bits
    (map (fun f => (obj_value f, obj_bit_length f)) fields) "little".

End protocol_block.

(** ** Examples *)

(** A block with reserved fields at three depths, its other fields
    holding integers that enrich to themselves. *)
Definition sample_block : protocol_block.ProtocolBlock Z :=
  [ ("id", protocol_block.PlainField 7);
    ("pad", protocol_block.ReservedField 0 4);
    ("body", protocol_block.BlockField [("rsvd", protocol_block.ReservedField 1 8); ("x", protocol_block.PlainField 2)]);
    ("items", protocol_block.BlockListField [[("r", protocol_block.ReservedField 0 1); ("y", protocol_block.PlainField 3)]]) ].

(** * Properties *)

Import bintools.

(** ** The buffer primitives *)

Section Underrun.

Lemma getitem_of_nat (a : nat) (w : world) :
  getitem (Z.of_nat a) w =
  match nth_error (stream w) a with
  | Some b => (Ok b, w)
  | None => (Raise IndexError, w)
  end.
Proof. unfold getitem. now rewrite Nat2Z.id. Qed.

(** Reading positions [a], [a+1], ... past the end of the stream fails
    at the first missing one; nothing has been written by then. *)
Lemma peek_seq_underrun (m a : nat) (w : world) :
  (a <= List.length (stream w) < a + m)%nat ->
  mapM getitem (map Z.of_nat (seq a m)) w = (Raise IndexError, w).
Proof.
  revert a; induction m as [|m IH]; intros a Ha; [lia|].
  cbn [seq map mapM]. unfold bind at 1. rewrite getitem_of_nat.
  destruct (nth_error (stream w) a) as [b|] eqn:E; [|reflexivity].
  assert (a < List.length (stream w))%nat
    by (apply nth_error_Some; congruence).
  unfold bind at 1. rewrite (IH (S a)) by lia. reflexivity.
Qed.

(** Popping more bytes than the stream holds pops every byte before the
    pop that fails. *)
Lemma pop_seq_underrun (m a : nat) (w : world) :
  (List.length (stream w) < m)%nat ->
  mapM (fun _ => pop0) (map Z.of_nat (seq a m)) w =
  (Raise IndexError, mkWorld [] (sink w)).
Proof.
  revert a w; induction m as [|m IH]; intros a [s ds] Hm; cbn in Hm; [lia|].
  cbn [seq map mapM]. unfold bind at 1, pop0 at 1. cbn [stream sink].
  destruct s as [|b s]; [reflexivity|].
  unfold bind at 1. rewrite IH by (cbn in *; lia). reflexivity.
Qed.

Lemma peek_bytes_underrun (num : Z) (w : world) :
  len (stream w) < num -> peek_bytes num w = (Raise IndexError, w).
Proof.
  unfold len, peek_bytes, range; intros H.
  apply peek_seq_underrun. lia.
Qed.

Lemma pop_bytes_underrun (num : Z) (w : world) :
  len (stream w) < num ->
  pop_bytes num w = (Raise IndexError, mkWorld [] (sink w)).
Proof.
  unfold len, pop_bytes, range; intros H.
  apply pop_seq_underrun. lia.
Qed.

End Underrun.

(** C3.  When more bytes are requested than the buffer holds, both reads
    raise [IndexError] (the Underrun error).  [peek_bytes] leaves the
    buffer as it was, but [pop_bytes] has by then popped every byte: the
    buffer is left empty, not unchanged. *)
Theorem underrun_peek_keeps_pop_empties (num : Z) (w : world) :
  len (stream w) < num ->
  peek_bytes num w = (Raise IndexError, w)
  /\ pop_bytes num w = (Raise IndexError, mkWorld [] (sink w)).
Proof.
  intros H; split;
    [now apply peek_bytes_underrun | now apply pop_bytes_underrun].
Qed.

Lemma underrun_peek_keeps_pop_empties_witness :
  len [1; 2] < 3
  /\ peek_bytes 3 (mkWorld [1; 2] []) = (Raise IndexError, mkWorld [1; 2] [])
  /\ pop_bytes 3 (mkWorld [1; 2] []) = (Raise IndexError, mkWorld [] []).
Proof.
  split; [reflexivity|].
  apply (underrun_peek_keeps_pop_empties 3 (mkWorld [1; 2] [])).
  reflexivity.
Defined.

(** ** [split_bits] *)

(** C1.  On the bytes 0xCB, 0xDF with widths 1 and 15 the code returns
    [1, 28645] for little endianness and [1, 26079] for big endianness:
    the second slice is made of the segments (101, 7) and (223, 8), put in
    order by [_order_bytes] and folded with
    [myslice = (myslice << n) + v]. *)
Theorem split_bits_1_15_on_CB_DF :
  split_bits [1; 15] true "little" (mkWorld [0xCB; 0xDF] [])
  = (Ok [1; 28645], mkWorld [] [])
  /\ split_bits [1; 15] true "big" (mkWorld [0xCB; 0xDF] [])
     = (Ok [1; 26079], mkWorld [] [])
  /\ slice_loop 15 15 (mkCursor [0xDF] 101 1) [] 0 (mkWorld [] [])
     = (Ok (mkCursor [] 0 0, [(101, 7); (223, 8)]), mkWorld [] [])
  /\ combine_segments (rev [(101, 7); (223, 8)]) = 28645
  /\ combine_segments [(101, 7); (223, 8)] = 26079.
Proof. repeat split; vm_compute; reflexivity. Qed.

(** C6.  When the requested widths need more bytes than the buffer holds,
    [split_bits] raises [OverflowError] before it reads anything: buffer
    and diagnostics are as they were, whether or not it was asked to
    consume. *)
Theorem split_bits_overflow_untouched
    (slice_lengths : list Z) (consume : bool) (endianness : string)
    (w : world) :
  ceil_div8 (sum slice_lengths) > len (stream w) ->
  split_bits slice_lengths consume endianness w = (Raise OverflowError, w).
Proof.
  intros H. unfold split_bits.
  destruct (Z.gtb_spec (ceil_div8 (sum slice_lengths)) (len (stream w)));
    [reflexivity | lia].
Qed.

Lemma split_bits_overflow_untouched_witness :
  ceil_div8 (sum [8; 9]) > len [0xCB; 0xDF]
  /\ split_bits [8; 9] true "little" (mkWorld [0xCB; 0xDF] [])
     = (Raise OverflowError, mkWorld [0xCB; 0xDF] []).
Proof.
  split; [reflexivity|].
  apply (split_bits_overflow_untouched [8; 9] true "little"
           (mkWorld [0xCB; 0xDF] [])).
  reflexivity.
Defined.

(** C7, as stated, fails: on a one-byte buffer the widths 4, 4, 6 need two
    bytes, so [split_bits] returns no slices and warns of nothing. *)
Lemma split_bits_4_4_6_one_byte_fails :
  ~ exists slices w',
      split_bits [4; 4; 6] true "little" (mkWorld [0xCB] []) = (Ok slices, w')
      /\ warnings (sink w') = 1%nat.
Proof.
  intros (slices & w' & H & _). vm_compute in H. discriminate H.
Qed.

(** C7, amended.  On a two-byte buffer the widths 4, 4, 6 give the low
    and the high four bits of the first byte and the low six bits of the
    second, whose two high bits are dropped; both bytes are consumed and
    exactly one warning is emitted.  On a one-byte buffer the call raises
    [OverflowError], emits nothing and consumes nothing. *)
Theorem split_bits_4_4_6_two_bytes (b0 b1 : Z) (endianness : string) :
  endianness = "little" \/ endianness = "big" ->
  split_bits [4; 4; 6] true endianness (mkWorld [b0; b1] [])
  = (Ok [Z.land b0 15; Z.land (Z.shiftr b0 4) 15; Z.land b1 63],
     mkWorld [] [Warning bits_dropped_warning [14; 2]])
  /\ warnings [Warning bits_dropped_warning [14; 2]] = 1%nat
  /\ split_bits [4; 4; 6] true endianness (mkWorld [b0] [])
     = (Raise OverflowError, mkWorld [b0] []).
Proof.
  intros [-> | ->]; repeat split.
Qed.

Lemma split_bits_4_4_6_two_bytes_witness :
  split_bits [4; 4; 6] true "little" (mkWorld [0xCB; 0xDF] [])
  = (Ok [11; 12; 31], mkWorld [] [Warning bits_dropped_warning [14; 2]]).
Proof.
  exact (proj1 (split_bits_4_4_6_two_bytes 0xCB 0xDF "little"
                  (or_introl eq_refl))).
Defined.

Lemma bind_ext {A B} (m : M A) (k1 k2 : A -> M B) (w : world) :
  (forall a w', m w = (Ok a, w') -> k1 a w' = k2 a w') ->
  bind m k1 w = bind m k2 w.
Proof.
  intros H. unfold bind. destruct (m w) as [[a|e] w']; [|reflexivity].
  now apply H.
Qed.

Lemma next_byte_in_range (c c1 : cursor) (w w1 : world) :
  0 <= working_byte_bits_consumed c < 8 ->
  next_byte c w = (Ok c1, w1) ->
  0 <= working_byte_bits_consumed c1 < 8.
Proof.
  intros Hc E. unfold next_byte in E.
  destruct (working_byte_bits_consumed c =? 0).
  - destruct (mybytes c); inversion E; subst; cbn; lia.
  - inversion E; subst; exact Hc.
Qed.

(** The [while] loop of [split_bits] never stops for lack of fuel: any
    two amounts of at least the bits still wanted give the same run. *)
Lemma slice_loop_fuel (f1 f2 : nat) (slice_length : Z) (c : cursor)
    (segments : list (Z * Z)) (consumed : Z) (w : world) :
  0 <= working_byte_bits_consumed c < 8 ->
  (Z.to_nat (slice_length - consumed) <= f1)%nat ->
  (Z.to_nat (slice_length - consumed) <= f2)%nat ->
  slice_loop f1 slice_length c segments consumed w
  = slice_loop f2 slice_length c segments consumed w.
Proof.
  revert f2 c segments consumed w.
  induction f1 as [|f1 IH]; intros f2 c segments consumed w Hc H1 H2.
  - destruct f2; cbn [slice_loop];
      destruct (Z.ltb_spec consumed slice_length); try reflexivity; lia.
  - destruct f2; cbn [slice_loop];
      destruct (Z.ltb_spec consumed slice_length); try reflexivity; try lia.
    apply bind_ext; intros c1 w1 E.
    pose proof (next_byte_in_range c c1 w w1 Hc E) as Hc1.
    apply bind_ext; intros mask w2 _.
    apply IH.
    + cbn [working_byte_bits_consumed]. apply Z.mod_pos_bound. lia.
    + lia.
    + lia.
Qed.

(** ** Fields *)

Import field.

(** C10.  A [ReservedField] of size [n] rejects exactly the values below
    0 and above [2 ** n]: the bound handed to [IntField.validate] is
    [2 ** self.size], so [2 ** n] itself is accepted, with one warning
    (it is above [MAXIMUM = 0]) and no error. *)
Theorem reserved_validate_overflow_iff (n v : Z) (w : world) :
  0 <= n ->
  (fst (ReservedField.validate (ReservedField.mkConfig n) v w)
   = Raise OverflowError <-> v < 0 \/ v > 2 ^ n)
  /\ (0 <= v <= 2 ^ n ->
      fst (ReservedField.validate (ReservedField.mkConfig n) v w) = Ok v)
  /\ ReservedField.validate (ReservedField.mkConfig n) (2 ^ n) w
     = (Ok (2 ^ n),
        mkWorld (stream w)
          (sink w ++ [Warning IntField.above_maximum [2 ^ n; 0; 0; 2 ^ n]])).
Proof.
  intros Hn.
  assert (Hpos : 0 < 2 ^ n) by (apply Z.pow_pos_nonneg; lia).
  assert (Hmax : py_or (Some (2 ^ n))
                   (IntField.BIT_LENGTH_MAXIMUM ReservedField.ReservedField)
                 = 2 ^ n).
  { unfold py_or. destruct (Z.eqb_spec (2 ^ n) 0); [lia | reflexivity]. }
  unfold ReservedField.validate, IntField.validate.
  cbn [ReservedField.size]. rewrite Hmax.
  change (py_or None (IntField.BIT_LENGTH_MINIMUM ReservedField.ReservedField))
    with 0.
  change (py_or None (IntField.MINIMUM ReservedField.ReservedField)) with 0.
  change (py_or None (IntField.MAXIMUM ReservedField.ReservedField)) with 0.
  repeat split.
  - destruct (Z.gtb_spec v (2 ^ n)); [lia|].
    destruct (Z.ltb_spec v 0); [lia|].
    unfold bind, dbg_warning, ret. cbn.
    destruct (Z.gtb_spec v 0); cbn; discriminate.
  - intros [H | H].
    + destruct (Z.gtb_spec v (2 ^ n)); [reflexivity|].
      destruct (Z.ltb_spec v 0); [reflexivity | lia].
    + destruct (Z.gtb_spec v (2 ^ n)); [reflexivity | lia].
  - intros H.
    destruct (Z.gtb_spec v (2 ^ n)); [lia|].
    destruct (Z.ltb_spec v 0); [lia|].
    unfold bind, dbg_warning, ret. cbn.
    destruct (Z.gtb_spec v 0); reflexivity.
  - destruct (Z.gtb_spec (2 ^ n) (2 ^ n)); [lia|].
    destruct (Z.ltb_spec (2 ^ n) 0); [lia|].
    unfold bind, dbg_warning, ret. cbn.
    destruct (Z.gtb_spec (2 ^ n) 0); [reflexivity | lia].
Qed.

Lemma reserved_validate_overflow_iff_witness :
  0 <= 8
  /\ fst (ReservedField.validate (ReservedField.mkConfig 8) 256
            (mkWorld [] [])) = Ok 256.
Proof.
  split; [lia|].
  apply (reserved_validate_overflow_iff 8 256 (mkWorld [] [])); [lia|].
  split; [lia | reflexivity].
Defined.

(** C5.  The operators [&], [|], [^] and [~] of a [MaskField] read
    [self.MASK], an attribute no class of the hierarchy defines: whatever
    the field and the operand, they raise [AttributeError] and return no
    truncated result. *)
Theorem mask_operators_need_MASK (self : MaskField.obj) (val : Z) :
  MaskField.__and__ self val = Raise (AttributeError "MASK")
  /\ MaskField.__or__ self val = Raise (AttributeError "MASK")
  /\ MaskField.__xor__ self val = Raise (AttributeError "MASK")
  /\ MaskField.__invert__ self = Raise (AttributeError "MASK").
Proof. repeat split. Qed.

Lemma int_of_integer (x : Q) (k : Z) :
  (inject_Z k == x)%Q -> PackedIntField.int x = k.
Proof.
  intros H. unfold PackedIntField.int.
  destruct (Qle_bool 0 x).
  - rewrite <- (Qfloor_comp _ _ H). apply Qfloor_Z.
  - rewrite <- (Qceiling_comp _ _ H). apply Qceiling_Z.
Qed.

(** C8.  For the packed field with unpacked minimum 0, resolution 0.5 and
    8 bits: 1.25 is refused, 1.5 packs to 3 and 3 enriches to 1.5.  In
    general [pack] returns [(human - 0) / 0.5] when that is an integer
    within 0..255, and [enrich] then gives the human value back; it
    refuses a value only when that quotient is not an integer or is out of
    0..255.  The exception is [ValueError] for the values on which the
    float division is exact: a double whose quotient by 0.5 is a double
    too (beyond them the quotient overflows to infinity and [int] raises
    [OverflowError]). *)
Theorem packed_half_step_pack_enrich :
  let c := PackedIntField.HalfStepField in
  PackedIntField.pack c (5 # 4) = Raise ValueError
  /\ PackedIntField.pack c (3 # 2) = Ok 3
  /\ PackedIntField.enrich c 3 = 3 # 2
  /\ forall human : Q,
       match PackedIntField.pack c human with
       | Ok raw =>
           (inject_Z raw == (human - 0) / (1 # 2))%Q
           /\ 0 <= raw <= 255
           /\ (PackedIntField.enrich c raw == human)%Q
       | Raise e =>
           ((forall k : Z, ~ (inject_Z k == (human - 0) / (1 # 2))%Q)
            \/ ~ (0 <= (human - 0) / (1 # 2) <= 255)%Q)
           /\ (PackedIntField.binary64 human ->
               PackedIntField.binary64 ((human - 0) / (1 # 2)) ->
               e = ValueError)
       end.
Proof.
  cbv zeta. repeat split.
  intros human. unfold PackedIntField.pack, PackedIntField.truediv.
  change (PackedIntField.UNPACKED_MINIMUM PackedIntField.HalfStepField)
    with 0%Q.
  change (PackedIntField.UNPACKED_RESOLUTION PackedIntField.HalfStepField)
    with (1 # 2)%Q.
  change (Qeq_bool (1 # 2) 0) with false. cbv iota.
  change (PackedIntField.BIT_LENGTH_MAXIMUM PackedIntField.HalfStepField)
    with 255.
  change (PackedIntField.BIT_LENGTH_MINIMUM PackedIntField.HalfStepField)
    with 0.
  set (packed := ((human - 0) / (1 # 2))%Q).
  destruct (Qeq_bool packed (inject_Z (PackedIntField.int packed))) eqn:Eint;
    cbn [negb].
  2:{ split; [|reflexivity]. left. intros k Hk.
      apply Qeq_bool_neq in Eint. apply Eint.
      rewrite (int_of_integer packed k Hk). now symmetry. }
  apply Qeq_bool_eq in Eint.
  destruct (Qle_bool packed (inject_Z 255)) eqn:Emax; cbn [negb].
  2:{ split; [|reflexivity]. right. intros [_ H].
      apply Qle_bool_iff in H. change (inject_Z 255) with 255%Q in Emax.
      congruence. }
  destruct (Qle_bool (inject_Z 0) packed) eqn:Emin; cbn [negb].
  2:{ split; [|reflexivity]. right. intros [H _].
      apply Qle_bool_iff in H. change (inject_Z 0) with 0%Q in Emin.
      congruence. }
  apply Qle_bool_iff in Emax, Emin.
  set (raw := PackedIntField.int packed) in *.
  assert (Hlo : 0 <= raw).
  { rewrite Zle_Qle. now rewrite <- Eint. }
  assert (Hhi : raw <= 255).
  { rewrite Zle_Qle. now rewrite <- Eint. }
  split; [now symmetry|]. split; [lia|].
  unfold PackedIntField.enrich, PackedIntField.UNPACKED_MAXIMUM.
  change (PackedIntField.UNPACKED_MINIMUM PackedIntField.HalfStepField)
    with 0%Q.
  change (PackedIntField.UNPACKED_RESOLUTION PackedIntField.HalfStepField)
    with (1 # 2)%Q.
  change (PackedIntField.BIT_LENGTH_MAXIMUM PackedIntField.HalfStepField)
    with 255.
  unfold PackedIntField.min, PackedIntField.max.
  assert (H1 : Qle_bool (0 + inject_Z raw * (1 # 2))
                 (0 + inject_Z 255 * (1 # 2)) = true).
  { apply Qle_bool_iff. unfold Qle; cbn. lia. }
  rewrite H1.
  assert (H2 : Qle_bool 0 (0 + inject_Z raw * (1 # 2)) = true).
  { apply Qle_bool_iff. unfold Qle; cbn. lia. }
  rewrite H2. rewrite <- Eint. subst packed. field.
Qed.

Lemma packed_half_step_pack_enrich_witness :
  PackedIntField.binary64 (5 # 4)
  /\ PackedIntField.binary64 (((5 # 4) - 0) / (1 # 2))
  /\ forall e,
       PackedIntField.pack PackedIntField.HalfStepField (5 # 4) = Raise e ->
       e = ValueError.
Proof.
  assert (H1 : PackedIntField.binary64 (5 # 4)).
  { exists 5, (-2). repeat split; try lia. }
  assert (H2 : PackedIntField.binary64 (((5 # 4) - 0) / (1 # 2))).
  { exists 5, (-1). repeat split; try lia. }
  split; [exact H1|]. split; [exact H2|].
  intros e He.
  destruct packed_half_step_pack_enrich as (_ & _ & _ & H).
  specialize (H (5 # 4)). rewrite He in H.
  destruct H as [_ H]. exact (H H1 H2).
Defined.

(** C4.  A [StringField] built from the two-character string U+00C3
    U+00A9 stores the one-character string U+00E9: [validate] returns the
    Latin-1 bytes decoded as UTF-8, and [__setattr__] stores what
    [validate] returns.  The stored value is one [validate] rejects: its
    Latin-1 byte 0xE9 is not valid UTF-8. *)
Theorem string_field_holds_rejected_value (w : world) :
  __init__ StringField.validate StringField.StringField [0xC3; 0xA9] w
  = (Ok (mkObject StringField.StringField [0xE9]), w)
  /\ StringField.validate StringField.StringField [0xE9] w
     = (Raise UnicodeDecodeError, w)
  /\ __setattr__ StringField.validate
       (mkObject StringField.StringField [0xE9]) [0xE9] w
     = (Raise UnicodeDecodeError, w).
Proof. repeat split. Qed.

(** C2.  The round trip fails on an 8-bit unsigned [IntField] holding 5.
    [to_bytes] writes the single byte 5.  [from_bytes] accepts only a
    [num_bytes] that is a multiple of 8 and then asks [get_int] for that
    many bytes: with the default [num_bytes = 1] it raises [ValueError],
    and no choice of its arguments reads 5 back from the byte written. *)
Theorem int_field_round_trip_fails :
  IntField.to_bytes IntField.IntField 8 5 = Ok [5]
  /\ (forall ds,
        IntField.from_bytes 1 false true "little" (mkWorld [5] ds)
        = (Raise ValueError, mkWorld [5] ds))
  /\ forall num_bytes signed consume endianness ds,
       fst (IntField.from_bytes num_bytes signed consume endianness
              (mkWorld [5] ds)) <> Ok 5.
Proof.
  split; [reflexivity|]. split; [reflexivity|].
  intros num_bytes signed consume endianness ds.
  unfold IntField.from_bytes.
  destruct (Z.eqb_spec (num_bytes mod 8) 0) as [Hmod|Hmod];
    [|cbn; discriminate].
  unfold get_int, bind.
  destruct (Z_le_gt_dec num_bytes 0) as [Hle|Hgt].
  - assert (Hr : range num_bytes = []).
    { unfold range. now replace (Z.to_nat num_bytes) with 0%nat by lia. }
    assert (Hm : _consumption_method consume num_bytes (mkWorld [5] ds)
                 = (Ok [], mkWorld [5] ds)).
    { destruct consume; cbn; unfold pop_bytes, peek_bytes; now rewrite Hr. }
    rewrite Hm. unfold lift, int_from_bytes, byteorder.
    destruct (String.eqb endianness "little");
      [destruct signed; cbn; discriminate|].
    destruct (String.eqb endianness "big"); destruct signed; cbn; discriminate.
  - assert (Hlen : len (stream (mkWorld [5] ds)) < num_bytes).
    { cbn. assert (num_bytes <> 1) by (intros ->; discriminate Hmod). lia. }
    destruct consume; cbn [_consumption_method].
    + rewrite (pop_bytes_underrun _ _ Hlen). cbn. discriminate.
    + rewrite (peek_bytes_underrun _ _ Hlen). cbn. discriminate.
Qed.

(** ** Tree views *)

Import protocol_block.

Section ViewFacts.

Context {plain value : Type}.
Variable stored : plain -> value.
Variable of_int : Z -> value.
Variable enrich : plain -> res value.

Implicit Types (k : string) (d acc : list (string * view value)).
Implicit Types (b : ProtocolBlock plain) (f : Field plain).

Lemma lookup_setitem_same k (v : view value) d :
  lookup k (setitem k v d) = Some v.
Proof.
  induction d as [|[k' v'] d IH]; cbn.
  - now rewrite String.eqb_refl.
  - destruct (String.eqb k k') eqn:E; cbn; rewrite ?String.eqb_refl, ?E; auto.
Qed.

Lemma lookup_setitem_other k k' (v : view value) d :
  k <> k' -> lookup k (setitem k' v d) = lookup k d.
Proof.
  intros Hk. apply String.eqb_neq in Hk.
  induction d as [|[k0 v0] d IH]; cbn.
  - now rewrite Hk.
  - destruct (String.eqb k' k0) eqn:E; cbn.
    + apply String.eqb_eq in E; subst k0. now rewrite Hk.
    + now rewrite IH.
Qed.

#[local] Abbreviation raw_step :=
  (fun d (kf : string * Field plain) =>
     setitem (fst kf) (raw_entry stored of_int (snd kf)) d).

(** A key the block does not hold is left alone by the raw walk. *)
Lemma raw_walk_other_key k b acc :
  ~ In k (map fst b) ->
  lookup k (fold_left raw_step b acc) = lookup k acc.
Proof.
  revert acc; induction b as [|[k0 f0] b IH]; intros acc Hk; cbn in *.
  - reflexivity.
  - rewrite IH by tauto. cbn.
    apply lookup_setitem_other. intros ->; tauto.
Qed.

(** The raw walk stores every field of the block under its key. *)
Lemma raw_walk_key k f b acc :
  NoDup (map fst b) -> In (k, f) b ->
  lookup k (fold_left raw_step b acc)
  = Some (raw_entry stored of_int f).
Proof.
  revert acc; induction b as [|[k0 f0] b IH]; intros acc Hnd Hin;
    cbn in *; [tauto|].
  inversion Hnd as [|? ? Hnotin Hnd']; subst.
  destruct Hin as [E | Hin].
  - inversion E; subst. rewrite raw_walk_other_key by assumption.
    apply lookup_setitem_same.
  - now apply IH.
Qed.

#[local] Abbreviation walk :=
  (fold_left (enrich_step (enriched_entry of_int enrich))).

Lemma enriched_walk_raise b e : walk b (Raise e) = Raise e.
Proof. induction b as [|kf b IH]; cbn; auto. Qed.

(** A key the block does not hold is left alone by the enriched walk. *)
Lemma enriched_walk_other_key k b acc d :
  ~ In k (map fst b) -> walk b (Ok acc) = Ok d ->
  lookup k d = lookup k acc.
Proof.
  revert acc; induction b as [|[k0 f0] b IH]; intros acc Hk H; cbn in *.
  - now inversion H.
  - destruct (is_reserved f0).
    + apply IH in H; tauto.
    + destruct (enriched_entry of_int enrich f0) as [v|e]; cbn in H.
      * apply IH in H; [|tauto]. rewrite H.
        apply lookup_setitem_other. intros ->; tauto.
      * rewrite enriched_walk_raise in H. discriminate.
Qed.

(** The enriched walk skips a reserved field: its key is not stored. *)
Lemma enriched_walk_reserved k v n b acc d :
  NoDup (map fst b) -> In (k, ReservedField v n) b ->
  walk b (Ok acc) = Ok d -> lookup k d = lookup k acc.
Proof.
  revert acc; induction b as [|[k0 f0] b IH]; intros acc Hnd Hin H;
    cbn in *; [tauto|].
  inversion Hnd as [|? ? Hnotin Hnd']; subst.
  destruct Hin as [E | Hin].
  - inversion E; subst. cbn in H.
    now apply enriched_walk_other_key with (k := k) in H.
  - assert (Hk : k <> k0).
    { intros ->. apply Hnotin.
      change k0 with (fst (k0, ReservedField (plain := plain) v n)).
      now apply in_map. }
    destruct (is_reserved f0).
    + now apply IH in H.
    + destruct (enriched_entry of_int enrich f0) as [v0|e]; cbn in H.
      * apply IH in H; [|assumption..]. rewrite H.
        now apply lookup_setitem_other.
      * rewrite enriched_walk_raise in H. discriminate.
Qed.

(** The enriched walk stores every other field under its key. *)
Lemma enriched_walk_key k f b acc d :
  NoDup (map fst b) -> In (k, f) b -> is_reserved f = false ->
  walk b (Ok acc) = Ok d ->
  exists t, enriched_entry of_int enrich f = Ok t /\ lookup k d = Some t.
Proof.
  revert acc; induction b as [|[k0 f0] b IH]; intros acc Hnd Hin Hf H;
    cbn in *; [tauto|].
  inversion Hnd as [|? ? Hnotin Hnd']; subst.
  destruct Hin as [E | Hin].
  - inversion E; subst. rewrite Hf in H.
    destruct (enriched_entry of_int enrich f) as [t|e]; cbn in H.
    + exists t. split; [reflexivity|].
      apply enriched_walk_other_key with (k := k) in H; [|assumption].
      rewrite H. apply lookup_setitem_same.
    + rewrite enriched_walk_raise in H. discriminate.
  - destruct (is_reserved f0).
    + now apply IH in H.
    + destruct (enriched_entry of_int enrich f0) as [v0|e]; cbn in H.
      * now apply IH in H.
      * rewrite enriched_walk_raise in H. discriminate.
Qed.

Lemma sequence_nth {A B} (g : A -> res B) (l : list A) (items : list B)
    (i : nat) (a : A) :
  sequence (map g l) = Ok items -> nth_error l i = Some a ->
  exists t, g a = Ok t /\ nth_error items i = Some t.
Proof.
  revert items i; induction l as [|a0 l IH]; intros items i H Hi.
  - destruct i; discriminate.
  - cbn in H. destruct (g a0) as [t0|e] eqn:E; cbn in H; [|discriminate].
    destruct (sequence (map g l)) as [ts|e]; cbn in H; [|discriminate].
    inversion H; subst. destruct i; cbn in *.
    + inversion Hi; subst. eauto.
    + now apply IH.
Qed.

Lemma all_fields_ok (P : Field plain -> Prop) k f b :
  fold_right (fun kf rest => P (snd kf) /\ rest) True b ->
  In (k, f) b -> P f.
Proof.
  induction b as [|kf b IH]; cbn; [tauto|].
  intros [H0 H] [-> | Hin]; auto.
Qed.

Lemma fields_ok_block k b b' :
  fields_ok b -> In (k, BlockField b') b -> fields_ok b'.
Proof.
  intros [_ H] Hin. exact (all_fields_ok field_ok k _ b H Hin).
Qed.

Lemma fields_ok_list k b bs i b' :
  fields_ok b -> In (k, BlockListField bs) b -> nth_error bs i = Some b' ->
  fields_ok b'.
Proof.
  intros [_ H] Hin Hi.
  pose proof (all_fields_ok field_ok k _ b H Hin) as Hbs.
  clear H Hin. revert i Hi; induction bs as [|b0 bs IH]; intros i Hi.
  - destruct i; discriminate.
  - destruct Hbs as [H0 Hbs]. destruct i; cbn in Hi.
    + inversion Hi; subst. exact H0.
    + now apply (IH Hbs i).
Qed.

(** The walks as the source states them, block by block. *)
Lemma raw_entry_block b :
  raw_entry stored of_int (BlockField b)
  = Dict (_get_object_dict stored of_int b).
Proof. reflexivity. Qed.

Lemma raw_entry_list (bs : list (ProtocolBlock plain)) :
  raw_entry stored of_int (BlockListField bs)
  = List (map (fun b => Dict (_get_object_dict stored of_int b)) bs).
Proof. reflexivity. Qed.

Lemma enriched_entry_block b :
  enriched_entry of_int enrich (BlockField b)
  = rbind (_enrich_object_dict of_int enrich b) (fun d => Ok (Dict d)).
Proof. reflexivity. Qed.

Lemma enriched_entry_list (bs : list (ProtocolBlock plain)) :
  enriched_entry of_int enrich (BlockListField bs)
  = rbind
      (sequence
         (map
            (fun b =>
               rbind (_enrich_object_dict of_int enrich b)
                 (fun d => Ok (Dict d)))
            bs))
      (fun items => Ok (List items)).
Proof. reflexivity. Qed.

Lemma get_object_dict_key k f b :
  NoDup (map fst b) -> In (k, f) b ->
  lookup k (_get_object_dict stored of_int b)
  = Some (raw_entry stored of_int f).
Proof. apply raw_walk_key. Qed.

Lemma enrich_object_dict_reserved k v n b d :
  NoDup (map fst b) -> In (k, ReservedField v n) b ->
  _enrich_object_dict of_int enrich b = Ok d -> lookup k d = None.
Proof. intros Hnd Hin Hd. apply (enriched_walk_reserved k v n b [] d); auto. Qed.

Lemma enrich_object_dict_key k f b d :
  NoDup (map fst b) -> In (k, f) b -> is_reserved f = false ->
  _enrich_object_dict of_int enrich b = Ok d ->
  exists t, enriched_entry of_int enrich f = Ok t /\ lookup k d = Some t.
Proof. apply enriched_walk_key. Qed.

(** C9.  Whatever the tree and wherever in it a [ReservedField] sits,
    the path to its key leads to an entry of the raw view, and to no
    entry of the enriched view, when the enriched view is built. *)
Theorem reserved_key_only_in_raw_view b (p : list step) :
  fields_ok b -> reserved_at b p ->
  resolves p (Dict (_get_object_dict stored of_int b)) = true
  /\ forall d,
       _enrich_object_dict of_int enrich b = Ok d ->
       resolves p (Dict d) = false.
Proof.
  intros Hok Hp. induction Hp as
    [b k v n Hin | b k b' p Hin Hp IH | b k bs i b' p Hin Hi Hp IH].
  - destruct Hok as [Hnd _]. split.
    + cbn [resolves]. now rewrite (get_object_dict_key k _ b Hnd Hin).
    + intros d Hd. cbn [resolves].
      now rewrite (enrich_object_dict_reserved k v n b d Hnd Hin Hd).
  - specialize (IH (fields_ok_block k b b' Hok Hin)).
    destruct IH as [IHraw IHenr]. destruct Hok as [Hnd _]. split.
    + cbn [resolves]. rewrite (get_object_dict_key k _ b Hnd Hin).
      rewrite raw_entry_block. exact IHraw.
    + intros d Hd. cbn [resolves].
      destruct (enrich_object_dict_key k _ b d Hnd Hin eq_refl Hd)
        as (t & Ht & Hk).
      rewrite Hk. rewrite enriched_entry_block in Ht.
      destruct (_enrich_object_dict of_int enrich b') as [d'|e];
        [|discriminate].
      inversion Ht; subst. now apply IHenr.
  - specialize (IH (fields_ok_list k b bs i b' Hok Hin Hi)).
    destruct IH as [IHraw IHenr]. destruct Hok as [Hnd _]. split.
    + cbn [resolves]. rewrite (get_object_dict_key k _ b Hnd Hin).
      rewrite raw_entry_list.
      rewrite (map_nth_error _ _ _ Hi). exact IHraw.
    + intros d Hd. cbn [resolves].
      destruct (enrich_object_dict_key k _ b d Hnd Hin eq_refl Hd)
        as (t & Ht & Hk).
      rewrite Hk. rewrite enriched_entry_list in Ht.
      destruct (sequence _) as [items|e] eqn:E; [|discriminate].
      inversion Ht; subst.
      destruct (sequence_nth _ bs items i b' E Hi) as (t' & Ht' & Hn).
      rewrite Hn.
      destruct (_enrich_object_dict of_int enrich b') as [d'|e];
        [|discriminate].
      inversion Ht'; subst. now apply IHenr.
Qed.

(** Induction over a tree of fields, through the blocks and block
    lists it holds. *)
Section FieldInduction.

Variable P : Field plain -> Prop.
Hypothesis Hplain : forall x, P (PlainField x).
Hypothesis Hreserved : forall v n, P (ReservedField v n).
Hypothesis Hblock :
  forall b, Forall (fun kf => P (snd kf)) b -> P (BlockField b).
Hypothesis Hlist :
  forall bs,
    Forall (fun b => Forall (fun kf => P (snd kf)) b) bs ->
    P (BlockListField bs).

Lemma Field_tree_ind : forall f, P f.
Proof.
  exact (fix rec f : P f :=
  let all_of :=
    fix all_of (l : list (string * Field plain))
      : Forall (fun kf => P (snd kf)) l :=
      match l with
      | [] => Forall_nil _
      | (k, f') :: l' =>
          Forall_cons (k, f') (rec f') (all_of l')
      end in
  match f with
  | PlainField x => Hplain x
  | ReservedField v n => Hreserved v n
  | BlockField b => Hblock b (all_of b)
  | BlockListField bs =>
      Hlist bs
        ((fix every (l : list (list (string * Field plain)))
            : Forall (fun b => Forall (fun kf => P (snd kf)) b) l :=
            match l with
            | [] => Forall_nil _
            | b :: l' => Forall_cons b (all_of b) (every l')
            end) bs)
  end).
Qed.

End FieldInduction.

Lemma enriched_walk_total b acc :
  Forall (fun kf => exists t, enriched_entry of_int enrich (snd kf) = Ok t) b ->
  exists d, walk b (Ok acc) = Ok d.
Proof.
  intros H; revert acc; induction H as [|[k f] b [t Ht] _ IH]; intros acc.
  - now exists acc.
  - cbn in *. destruct (is_reserved f); [apply IH|].
    rewrite Ht. cbn. apply IH.
Qed.

Lemma sequence_total {A B} (g : A -> res B) (l : list A) :
  Forall (fun a => exists t, g a = Ok t) l ->
  exists items, sequence (map g l) = Ok items.
Proof.
  induction 1 as [|a l [t Ht] _ [items IH]]; cbn.
  - now exists [].
  - rewrite Ht, IH. cbn. eauto.
Qed.

(** When every other field can be enriched, the enriched view of a
    block is built. *)
Lemma enrich_object_dict_total :
  (forall x, exists v, enrich x = Ok v) ->
  forall b, exists d, _enrich_object_dict of_int enrich b = Ok d.
Proof.
  intros Henrich.
  assert (Hentry : forall f, exists t, enriched_entry of_int enrich f = Ok t).
  { induction f as [x | v n | b IH | bs IH] using Field_tree_ind.
    - cbn. destruct (Henrich x) as [v ->]. cbn. eauto.
    - cbn. eauto.
    - rewrite enriched_entry_block.
      destruct (enriched_walk_total b [] IH) as [d Hd].
      unfold _enrich_object_dict. rewrite Hd. cbn. eauto.
    - rewrite enriched_entry_list.
      destruct (sequence_total
                  (fun b =>
                     rbind (_enrich_object_dict of_int enrich b)
                       (fun d => Ok (Dict d))) bs) as [items Hi].
      + eapply Forall_impl; [|exact IH]. intros b Hb.
        destruct (enriched_walk_total b [] Hb) as [d Hd].
        unfold _enrich_object_dict. rewrite Hd. cbn. eauto.
      + rewrite Hi. cbn. eauto. }
  intros b. apply enriched_walk_total.
  apply Forall_forall. intros kf _. apply Hentry.
Qed.

End ViewFacts.

Lemma sample_block_ok : fields_ok sample_block.
Proof.
  cbn. repeat split; repeat constructor; cbn; intuition discriminate.
Defined.

Lemma sample_block_reserved :
  reserved_at sample_block [Key "items"; Index 0; Key "r"].
Proof.
  eapply reserved_in_list with (bs := [[("r", ReservedField 0 1); ("y", PlainField 3)]]).
  - cbn. tauto.
  - reflexivity.
  - eapply reserved_here with (v := 0) (n := 1). cbn. tauto.
Defined.

Lemma reserved_key_only_in_raw_view_witness :
  let p := [Key "items"; Index 0; Key "r"] in
  fields_ok sample_block
  /\ reserved_at sample_block p
  /\ resolves p (Dict (_get_object_dict id id sample_block)) = true
  /\ exists d,
       _enrich_object_dict id (fun x => Ok x) sample_block = Ok d
       /\ resolves p (Dict d) = false.
Proof.
  cbv zeta.
  split; [exact sample_block_ok|]. split; [exact sample_block_reserved|].
  destruct (reserved_key_only_in_raw_view id id (fun x => Ok x)
              sample_block [Key "items"; Index 0; Key "r"]
              sample_block_ok sample_block_reserved) as [Hraw Henr].
  split; [exact Hraw|].
  eexists. split; [reflexivity|]. apply Henr. reflexivity.
Defined.

(** ** Further properties of the codec and of the fields *)

Lemma sum_app (l : list Z) (x : Z) : sum (l ++ [x]) = sum l + x.
Proof. unfold sum. now rewrite fold_left_app. Qed.

Lemma sum_powers (m : nat) :
  sum (map (fun i => 2 ^ i) (map Z.of_nat (seq 0 m))) = 2 ^ Z.of_nat m - 1.
Proof.
  induction m as [|m IH]; [reflexivity|].
  rewrite seq_S, !map_app. cbn [map Nat.add]. rewrite sum_app, IH.
  rewrite Nat2Z.inj_succ, Z.pow_succ_r by lia. lia.
Qed.

Lemma get_mask_default (n : Z) : 0 <= n -> get_mask n 0 = Ok (2 ^ n - 1).
Proof.
  intros H. unfold get_mask, range. cbn [Z.ltb Z.compare].
  rewrite sum_powers, Z2Nat.id by lia. now rewrite Z.shiftl_0_r.
Qed.

(** [get_mask(n)] is the integer with [n] one-bits; the two examples of
    its docstring. *)
Theorem get_mask_ones (num_bits : Z) :
  0 <= num_bits ->
  get_mask num_bits 0 = Ok (2 ^ num_bits - 1)
  /\ get_mask 3 0 = Ok 7 /\ get_mask 5 2 = Ok 124.
Proof.
  intros H. split; [now apply get_mask_default|]. split; reflexivity.
Qed.

Lemma get_mask_ones_witness : 0 <= 8 /\ get_mask 8 0 = Ok 255.
Proof.
  split; [lia|]. apply (get_mask_ones 8). lia.
Defined.

(** The shifts of a [MaskField] use [get_mask(self.BIT_LENGTH)]: their
    result is the shifted value truncated to the number of flags. *)
Theorem mask_shifts_truncate (self : MaskField.obj) (places : Z) :
  0 <= places ->
  MaskField.__lshift__ self places
  = Ok (Z.shiftl (MaskField.value self) places
        mod 2 ^ MaskField.BIT_LENGTH self)
  /\ MaskField.__rshift__ self places
     = Ok (Z.shiftr (MaskField.value self) places
           mod 2 ^ MaskField.BIT_LENGTH self).
Proof.
  intros H.
  assert (Hn : 0 <= MaskField.BIT_LENGTH self)
    by (unfold MaskField.BIT_LENGTH, len; lia).
  unfold MaskField.__lshift__, MaskField.__rshift__,
    MaskField.lshift, MaskField.rshift.
  cbn [MaskField.getattr String.eqb Ascii.eqb Bool.eqb rbind].
  change (MaskField.getattr self "value") with (Ok (MaskField.value self)).
  change (MaskField.getattr self "BIT_LENGTH")
    with (Ok (MaskField.BIT_LENGTH self)).
  destruct (Z.ltb_spec places 0); [lia|]. cbn [rbind].
  rewrite (get_mask_default _ Hn). cbn [rbind].
  rewrite <- !Z.land_ones by lia. now rewrite Z.ones_equiv, <- Z.sub_1_r.
Qed.

Lemma mask_shifts_truncate_witness :
  MaskField.__lshift__ (MaskField.mkObj [("A", 1); ("B", 2); ("C", 4)] 5) 1
  = Ok 2.
Proof.
  exact (proj1 (mask_shifts_truncate
                  (MaskField.mkObj [("A", 1); ("B", 2); ("C", 4)] 5) 1
                  ltac:(lia))).
Defined.

(** A mask of three flags whose value has flags 0 and 2 set enriches to
    those two flags true and the third false. *)
Theorem mask_enrich_three_flags :
  MaskField.enrich (MaskField.mkObj [("A", 1); ("B", 2); ("C", 4)] 5)
  = [("A", true); ("B", false); ("C", true)].
Proof. reflexivity. Qed.

(** On 0xCB, 0xDF the widths 8, 8 give 203 and 223 whatever the
    endianness. *)
Theorem split_bits_8_8_on_CB_DF :
  split_bits [8; 8] true "little" (mkWorld [0xCB; 0xDF] [])
  = (Ok [203; 223], mkWorld [] [])
  /\ split_bits [8; 8] true "big" (mkWorld [0xCB; 0xDF] [])
     = (Ok [203; 223], mkWorld [] []).
Proof. split; reflexivity. Qed.

(** An unsigned 8-bit [IntField] accepts 0 and 255 and raises
    [OverflowError] on 256 and on -1. *)
Theorem int_field_8_bit_bounds (w : world) :
  fst (IntField.validate IntField.IntField 0 None None None None w) = Ok 0
  /\ fst (IntField.validate IntField.IntField 255 None None None None w)
     = Ok 255
  /\ fst (IntField.validate IntField.IntField 256 None None None None w)
     = Raise OverflowError
  /\ fst (IntField.validate IntField.IntField (-1) None None None None w)
     = Raise OverflowError.
Proof. repeat split. Qed.

(** [IntField.validate] returns the value it was given or raises, and
    whether it raises depends on the value alone. *)
Lemma int_validate_result (c : IntField.cls) (v : Z)
    (bit_min bit_max min max : option Z) (w : world) :
  let overflows :=
    (v >? py_or bit_max (IntField.BIT_LENGTH_MAXIMUM c))
    || (v <? py_or bit_min (IntField.BIT_LENGTH_MINIMUM c)) in
  fst (IntField.validate c v bit_min bit_max min max w)
  = if overflows then Raise OverflowError else Ok v.
Proof.
  cbv zeta. unfold IntField.validate.
  destruct (v >? py_or bit_max (IntField.BIT_LENGTH_MAXIMUM c));
    [reflexivity|].
  destruct (v <? py_or bit_min (IntField.BIT_LENGTH_MINIMUM c));
    [reflexivity|].
  cbn [orb]. unfold bind.
  destruct (v <? py_or min (IntField.MINIMUM c));
    destruct (v >? py_or max (IntField.MAXIMUM c)); reflexivity.
Qed.

(** Validate-on-set for the integer fields: after [__init__] or an
    assignment to [value] succeeds, on an [IntField] of any class or on a
    [ReservedField] of any size, [validate] accepts the stored value. *)
Theorem int_fields_hold_validated_values
    (c : IntField.cls) (size v : Z) (w w' : world) :
  let int_validate := fun (_ : unit) x => IntField.validate c x None None None None in
  (forall o w1,
     __init__ int_validate tt v w = (Ok o, w1) ->
     fst (int_validate tt (value o) w') = Ok (value o))
  /\ (forall o o' w1,
        __setattr__ int_validate o v w = (Ok o', w1) ->
        fst (int_validate tt (value o') w') = Ok (value o'))
  /\ (forall o w1,
        ReservedField.__init__ v size w = (Ok o, w1) ->
        fst (ReservedField.validate (self_config o) (value o) w')
        = Ok (value o))
  /\ (forall o o' w1,
        __setattr__ ReservedField.validate o v w = (Ok o', w1) ->
        fst (ReservedField.validate (self_config o') (value o') w')
        = Ok (value o')).
Proof.
  cbv zeta.
  assert (ok : forall c0 bm x w0 r w2,
             IntField.validate c0 x None bm None None w0 = (Ok r, w2) ->
             r = x /\ forall w3,
               fst (IntField.validate c0 x None bm None None w3) = Ok x).
  { intros c0 bm x w0 r w2 E.
    pose proof (int_validate_result c0 x None bm None None w0) as R.
    cbv zeta in R. rewrite E in R. cbn [fst] in R.
    destruct ((x >? _) || (x <? _)) eqn:B; [discriminate|].
    inversion R; subst. split; [reflexivity|]. intros w3.
    rewrite int_validate_result. cbv zeta. now rewrite B. }
  repeat split.
  - intros o w1 H. unfold __init__, bind, ret in H.
    destruct (IntField.validate c v None None None None w) as [[r|e] w2] eqn:E;
      inversion H; subst; cbn [value].
    destruct (ok _ _ _ _ _ _ E) as [-> Hv]. apply Hv.
  - intros o o' w1 H. unfold __setattr__, bind, ret in H.
    destruct (IntField.validate c v None None None None w) as [[r|e] w2] eqn:E;
      inversion H; subst; cbn [value].
    destruct (ok _ _ _ _ _ _ E) as [-> Hv]. apply Hv.
  - intros o w1 H.
    unfold ReservedField.__init__, __init__, bind, ret in H.
    unfold ReservedField.validate in *.
    destruct (IntField.validate _ v None _ None None w) as [[r|e] w2] eqn:E;
      inversion H; subst; cbn [value self_config].
    destruct (ok _ _ _ _ _ _ E) as [-> Hv]. apply Hv.
  - intros o o' w1 H. unfold __setattr__, bind, ret in H.
    unfold ReservedField.validate in *.
    destruct (IntField.validate _ v None _ None None w) as [[r|e] w2] eqn:E;
      inversion H; subst; cbn [value self_config].
    destruct (ok _ _ _ _ _ _ E) as [-> Hv]. apply Hv.
Qed.

Lemma slice_loop_fuel_witness :
  slice_loop 15 15 (mkCursor [0xDF] 101 1) [] 0 (mkWorld [] [])
  = slice_loop 40 15 (mkCursor [0xDF] 101 1) [] 0 (mkWorld [] []).
Proof.
  apply slice_loop_fuel; cbn; lia.
Defined.

(** * More of the codec *)

#[local] Open Scope list_scope.

(** ** Reads within the buffer *)

Lemma skipn_nth_error {A} (a : nat) (s : list A) (b : A) :
  nth_error s a = Some b -> skipn a s = b :: skipn (S a) s.
Proof.
  revert s; induction a as [|a IH]; intros [|x s] H; try discriminate.
  - now inversion H.
  - cbn in H. now rewrite skipn_cons, (IH s H).
Qed.

Lemma peek_seq_ok (m a : nat) (w : world) :
  (a + m <= List.length (stream w))%nat ->
  mapM getitem (map Z.of_nat (seq a m)) w
  = (Ok (firstn m (skipn a (stream w))), w).
Proof.
  revert a; induction m as [|m IH]; intros a Ha; [reflexivity|].
  cbn [seq map mapM]. unfold bind at 1. rewrite getitem_of_nat.
  destruct (nth_error (stream w) a) as [b|] eqn:E.
  - unfold bind at 1. rewrite (IH (S a)) by lia.
    now rewrite (skipn_nth_error a _ b E).
  - apply nth_error_None in E. lia.
Qed.

Lemma pop_seq_ok (m a : nat) (w : world) :
  (m <= List.length (stream w))%nat ->
  mapM (fun _ => pop0) (map Z.of_nat (seq a m)) w
  = (Ok (firstn m (stream w)), mkWorld (skipn m (stream w)) (sink w)).
Proof.
  revert a w; induction m as [|m IH]; intros a [s ds] Hm; [reflexivity|].
  cbn [seq map mapM]. unfold bind at 1, pop0 at 1. cbn [stream sink] in *.
  destruct s as [|b s]; [cbn in Hm; lia|].
  unfold bind at 1. rewrite IH by (cbn in *; lia). reflexivity.
Qed.

Lemma read_first_bytes (num : Z) (w : world) :
  num <= len (stream w) ->
  peek_bytes num w = (Ok (firstn (Z.to_nat num) (stream w)), w)
  /\ pop_bytes num w
     = (Ok (firstn (Z.to_nat num) (stream w)),
        mkWorld (skipn (Z.to_nat num) (stream w)) (sink w)).
Proof.
  unfold len, peek_bytes, pop_bytes, range. intros H. split.
  - rewrite peek_seq_ok by (cbn; lia). reflexivity.
  - apply pop_seq_ok. lia.
Qed.

(** When the buffer holds the bytes asked for, [peek_bytes] and
    [pop_bytes] both return its first [num] bytes; [peek_bytes] leaves
    the buffer as it is and [pop_bytes] leaves the bytes after them.  A
    request for no bytes, or for a negative number, returns nothing. *)
Theorem reads_within_length (num : Z) (w : world) :
  num <= len (stream w) ->
  peek_bytes num w = (Ok (firstn (Z.to_nat num) (stream w)), w)
  /\ pop_bytes num w
     = (Ok (firstn (Z.to_nat num) (stream w)),
        mkWorld (skipn (Z.to_nat num) (stream w)) (sink w)).
Proof. exact (read_first_bytes num w). Qed.

Lemma reads_within_length_witness :
  peek_bytes 3 (mkWorld [45; 52; 156; 26] [])
  = (Ok [45; 52; 156], mkWorld [45; 52; 156; 26] [])
  /\ pop_bytes 3 (mkWorld [45; 52; 156; 26] [])
     = (Ok [45; 52; 156], mkWorld [26] []).
Proof.
  apply (reads_within_length 3 (mkWorld [45; 52; 156; 26] [])).
  cbn. lia.
Defined.

(** ** Integers to bytes and back *)

Lemma le_bytes_length (n : nat) (v : Z) : List.length (le_bytes n v) = n.
Proof. revert v; induction n; intros v; cbn; auto. Qed.

Lemma le_value_le_bytes (n : nat) (v : Z) :
  le_value (le_bytes n v) = v mod 256 ^ Z.of_nat n.
Proof.
  revert v; induction n as [|n IH]; intros v.
  - cbn. now rewrite Z.mod_1_r.
  - cbn [le_bytes le_value]. rewrite IH, Nat2Z.inj_succ, Z.pow_succ_r by lia.
    rewrite (Z.rem_mul_r v 256 (256 ^ Z.of_nat n)) by lia. reflexivity.
Qed.

Lemma bit_length_fits (v bits : Z) :
  0 <= bits -> - 2 ^ bits <= v < 2 ^ bits -> bit_length v <= bits + 1.
Proof.
  intros Hb Hv. unfold bit_length.
  destruct (Z.eqb_spec v 0); [lia|].
  assert (Habs : 0 < Z.abs v <= 2 ^ bits) by lia.
  assert (Z.log2 (Z.abs v) <= bits); [|lia].
  rewrite <- (Z.log2_pow2 bits) by lia. apply Z.log2_le_mono. lia.
Qed.

Lemma bit_length_fits_unsigned (v bits : Z) :
  0 <= bits -> 0 <= v < 2 ^ bits -> bit_length v <= bits.
Proof.
  intros Hb Hv. unfold bit_length.
  destruct (Z.eqb_spec v 0); [lia|].
  assert (Z.log2 v < bits) by (apply Z.log2_lt_pow2; lia).
  rewrite Z.abs_eq by lia. lia.
Qed.

(** The values [num_bytes] bytes can hold. *)
Definition fits_in (value num_bytes : Z) (signed : bool) : Prop :=
  if signed then
    - 2 ^ (8 * num_bytes - 1) <= value < 2 ^ (8 * num_bytes - 1)
  else 0 <= value < 2 ^ (8 * num_bytes).

Lemma pow_256 (n : Z) : 0 <= n -> 256 ^ n = 2 ^ (8 * n).
Proof. intros H. change 256 with (2 ^ 8). now rewrite <- Z.pow_mul_r by lia. Qed.

Lemma byteorder_twice (endianness : string) (bs : list Z) :
  endianness = "little" \/ endianness = "big" ->
  exists bs', byteorder endianness bs = Ok bs'
              /\ byteorder endianness bs' = Ok bs
              /\ List.length bs' = List.length bs.
Proof.
  intros [-> | ->]; cbn.
  - exists bs. auto.
  - exists (rev bs). now rewrite rev_involutive, length_rev.
Qed.

Lemma pack_int_then_get_int
    (value num_bytes : Z) (signed consume : bool) (endianness : string)
    (rest : list Z) (ds : list diag) :
  1 <= num_bytes ->
  endianness = "little" \/ endianness = "big" ->
  fits_in value num_bytes signed ->
  exists bs,
    pack_int value num_bytes signed endianness = Ok bs
    /\ len bs = num_bytes
    /\ get_int num_bytes signed consume endianness (mkWorld (bs ++ rest) ds)
       = (Ok value, mkWorld (if consume then rest else bs ++ rest) ds).
Proof.
  intros Hn He Hfit.
  set (raw := le_bytes (Z.to_nat num_bytes) value).
  destruct (byteorder_twice endianness raw He) as (bs & Hbs & Hback & Hlen).
  assert (Hraw : List.length raw = Z.to_nat num_bytes)
    by apply le_bytes_length.
  assert (Hp : 0 < 2 ^ (8 * num_bytes - 1)) by (apply Z.pow_pos_nonneg; lia).
  assert (Hd : 2 ^ (8 * num_bytes) = 2 * 2 ^ (8 * num_bytes - 1)).
  { rewrite <- Z.pow_succ_r by lia. f_equal. lia. }
  exists bs. split; [|split].
  - unfold pack_int.
    assert (Hbl : bit_length value <= num_bytes * 8).
    { unfold fits_in in Hfit. destruct signed.
      - pose proof (bit_length_fits value (8 * num_bytes - 1)). lia.
      - pose proof (bit_length_fits_unsigned value (8 * num_bytes)). lia. }
    destruct (Z.ltb_spec num_bytes 1); [lia|].
    destruct (Z.gtb_spec (bit_length value) (num_bytes * 8)); [lia|].
    cbn [orb]. unfold int_to_bytes.
    destruct He as [-> | ->]; cbn [byteorder String.eqb Ascii.eqb Bool.eqb];
      (destruct (Z.ltb_spec num_bytes 0); [lia|]);
      unfold fits_in in Hfit; destruct signed; cbn [negb andb];
      repeat match goal with
             | |- context [?a <? ?b] => destruct (Z.ltb_spec a b); try lia
             | |- context [?a <=? ?b] => destruct (Z.leb_spec a b); try lia
             end; cbn [andb orb]; exact Hbs.
  - unfold len. lia.
  - unfold get_int, bind.
    assert (Hread : _consumption_method consume num_bytes
                      (mkWorld (bs ++ rest) ds)
                    = (Ok bs, mkWorld (if consume then rest else bs ++ rest) ds)).
    { assert (Hle : num_bytes <= len (stream (mkWorld (bs ++ rest) ds))).
      { cbn. unfold len. rewrite length_app. lia. }
      destruct (read_first_bytes num_bytes _ Hle) as [Hpeek Hpop].
      cbn [stream sink] in *.
      assert (Hf : firstn (Z.to_nat num_bytes) (bs ++ rest) = bs).
      { rewrite <- Hraw, <- Hlen. rewrite firstn_app, Nat.sub_diag.
        cbn. now rewrite firstn_all, app_nil_r. }
      assert (Hs : skipn (Z.to_nat num_bytes) (bs ++ rest) = rest).
      { rewrite <- Hraw, <- Hlen. rewrite skipn_app, Nat.sub_diag.
        cbn. now rewrite skipn_all. }
      destruct consume; cbn [_consumption_method].
      - now rewrite Hpop, Hf, Hs.
      - now rewrite Hpeek, Hf. }
    rewrite Hread. unfold lift, int_from_bytes. rewrite Hback.
    assert (Hlr : len raw = num_bytes) by (unfold len; lia).
    rewrite Hlr. unfold raw. rewrite le_value_le_bytes.
    rewrite Z2Nat.id, pow_256 by lia.
    unfold fits_in in Hfit. destruct signed; cbn [andb].
    + destruct (Z.ltb_spec 0 num_bytes); [|lia]. cbn [andb].
      destruct (Z_lt_le_dec value 0) as [Hneg|Hpos].
      * assert (Hm : value mod 2 ^ (8 * num_bytes) = value + 2 ^ (8 * num_bytes)).
        { symmetry. apply Z.mod_unique with (q := -1); lia. }
        rewrite Hm.
        destruct (Z.leb_spec (2 ^ (8 * num_bytes - 1))
                    (value + 2 ^ (8 * num_bytes))); [|lia].
        do 2 f_equal. lia.
      * rewrite Z.mod_small by lia.
        destruct (Z.leb_spec (2 ^ (8 * num_bytes - 1)) value); [lia|].
        reflexivity.
    + rewrite Z.mod_small by lia. reflexivity.
Qed.

(** [pack_int] and [get_int] are inverse: a value that fits in
    [num_bytes] bytes, signed or not, is written as exactly [num_bytes]
    bytes, and [get_int] reads it back from a buffer that starts with
    them, consuming them or not as asked and touching nothing after
    them. *)
Theorem pack_int_get_int_round_trip
    (value num_bytes : Z) (signed consume : bool) (endianness : string)
    (rest : list Z) (ds : list diag) :
  1 <= num_bytes ->
  endianness = "little" \/ endianness = "big" ->
  fits_in value num_bytes signed ->
  exists bs,
    pack_int value num_bytes signed endianness = Ok bs
    /\ len bs = num_bytes
    /\ get_int num_bytes signed consume endianness (mkWorld (bs ++ rest) ds)
       = (Ok value, mkWorld (if consume then rest else bs ++ rest) ds).
Proof. exact (pack_int_then_get_int value num_bytes signed consume endianness rest ds). Qed.

Lemma pack_int_get_int_round_trip_witness :
  exists bs,
    pack_int (-2) 2 true "big" = Ok bs
    /\ len bs = 2
    /\ get_int 2 true true "big" (mkWorld (bs ++ [7]) [])
       = (Ok (-2), mkWorld [7] []).
Proof.
  apply (pack_int_get_int_round_trip (-2) 2 true true "big" [7] []).
  - lia.
  - now right.
  - cbn. lia.
Defined.

(** ** [split_bits], little endian: the slices are bit fields *)

Lemma sum_from (l : list Z) (a : Z) : fold_left Z.add l a = a + sum l.
Proof.
  unfold sum. revert a; induction l as [|x l IH]; intros a; cbn; [lia|].
  rewrite IH, (IH x). lia.
Qed.

Lemma sum_cons (x : Z) (l : list Z) : sum (x :: l) = x + sum l.
Proof. unfold sum at 1. cbn. apply sum_from. Qed.

(** The value and the width of a list of segments, the first segment
    lowest. *)
Definition segments_width (segments : list (Z * Z)) : Z :=
  sum (map snd segments).

Lemma combine_from (l : list (Z * Z)) (a : Z) :
  Forall (fun s => 0 <= snd s) l ->
  fold_left (fun myslice '(v, n) => Z.shiftl myslice n + v) l a
  = Z.shiftl a (segments_width l) + combine_segments l.
Proof.
  unfold combine_segments, segments_width.
  intros H; revert a; induction H as [|[v n] l Hn Hl IH]; intros a;
    cbn [fold_left map snd].
  - change (sum []) with 0. rewrite Z.shiftl_0_r. lia.
  - cbn in Hn. rewrite IH, (IH (Z.shiftl 0 n + v)), sum_cons.
    assert (Hs : 0 <= sum (map snd l)).
    { clear -Hl. induction Hl as [|x l Hx _ IHl]; [reflexivity|].
      cbn [map]. rewrite sum_cons. lia. }
    rewrite Z.shiftl_0_l, !Z.shiftl_mul_pow2 by lia.
    rewrite Z.pow_add_r by lia. ring.
Qed.

Lemma segments_width_app (l : list (Z * Z)) (v n : Z) :
  segments_width (l ++ [(v, n)]) = segments_width l + n.
Proof.
  unfold segments_width. rewrite map_app. cbn [map snd]. apply sum_app.
Qed.

Lemma segments_width_rev (l : list (Z * Z)) :
  segments_width (rev l) = segments_width l.
Proof.
  induction l as [|[v n] l IH]; [reflexivity|].
  cbn [rev]. rewrite segments_width_app, IH.
  unfold segments_width. cbn [map snd]. rewrite sum_cons. lia.
Qed.

(** One more segment, read later, goes above the ones read so far. *)
Lemma combine_rev_app (l : list (Z * Z)) (v n : Z) :
  Forall (fun s => 0 <= snd s) l ->
  combine_segments (rev (l ++ [(v, n)]))
  = combine_segments (rev l) + Z.shiftl v (segments_width l).
Proof.
  intros H. rewrite rev_app_distr. cbn [rev app].
  unfold combine_segments at 1. cbn [fold_left].
  rewrite combine_from by (apply Forall_rev; exact H).
  rewrite Z.shiftl_0_l, segments_width_rev. cbn. lia.
Qed.

(** What is left to read at a cursor: the unread bits of the working
    byte, then the bytes not yet taken. *)
Definition cursor_value (c : cursor) : Z :=
  if working_byte_bits_consumed c =? 0 then le_value (mybytes c)
  else working_byte c
       + 2 ^ (8 - working_byte_bits_consumed c) * le_value (mybytes c).

Definition cursor_bits (c : cursor) : Z :=
  if working_byte_bits_consumed c =? 0 then 8 * len (mybytes c)
  else 8 - working_byte_bits_consumed c + 8 * len (mybytes c).

Definition is_byte (b : Z) : Prop := 0 <= b < 256.

Definition cursor_ok (c : cursor) : Prop :=
  0 <= working_byte_bits_consumed c < 8
  /\ Forall is_byte (mybytes c)
  /\ (working_byte_bits_consumed c <> 0 ->
      0 <= working_byte c < 2 ^ (8 - working_byte_bits_consumed c)).

Lemma le_value_nonneg (bs : list Z) : Forall is_byte bs -> 0 <= le_value bs.
Proof.
  induction 1 as [|b bs Hb _ IH]; cbn [le_value]; [lia|].
  unfold is_byte in Hb. lia.
Qed.

Lemma cursor_value_nonneg (c : cursor) : cursor_ok c -> 0 <= cursor_value c.
Proof.
  intros (Hk & Hbs & Hwb). unfold cursor_value.
  pose proof (le_value_nonneg _ Hbs).
  destruct (Z.eqb_spec (working_byte_bits_consumed c) 0); [assumption|].
  specialize (Hwb n).
  assert (0 < 2 ^ (8 - working_byte_bits_consumed c))
    by (apply Z.pow_pos_nonneg; lia).
  nia.
Qed.

(** After [next_byte] the working byte holds at least one unread bit. *)
Lemma next_byte_ok (c : cursor) (w : world) :
  cursor_ok c -> 1 <= cursor_bits c ->
  exists c1,
    next_byte c w = (Ok c1, w)
    /\ 0 <= working_byte_bits_consumed c1 < 8
    /\ Forall is_byte (mybytes c1)
    /\ 0 <= working_byte c1 < 2 ^ (8 - working_byte_bits_consumed c1)
    /\ cursor_value c
       = working_byte c1
         + 2 ^ (8 - working_byte_bits_consumed c1) * le_value (mybytes c1)
    /\ cursor_bits c
       = 8 - working_byte_bits_consumed c1 + 8 * len (mybytes c1).
Proof.
  intros (Hk & Hbs & Hwb) Hbits.
  unfold next_byte, cursor_value, cursor_bits in *.
  destruct (Z.eqb_spec (working_byte_bits_consumed c) 0) as [E|E].
  - destruct (mybytes c) as [|b rest] eqn:Eb.
    + cbn in Hbits. lia.
    + inversion Hbs as [|? ? Hb Hrest]; subst.
      exists (mkCursor rest b 0). cbn [mybytes working_byte working_byte_bits_consumed le_value].
      unfold is_byte in Hb. repeat split; try lia; try assumption.
      unfold len. cbn [List.length]. lia.
  - exists c. specialize (Hwb E). repeat split; try lia; assumption.
Qed.

Lemma mod_pow2_split (x a b : Z) :
  0 <= a -> 0 <= b ->
  x mod 2 ^ (a + b) = x mod 2 ^ a + 2 ^ a * ((x / 2 ^ a) mod 2 ^ b).
Proof.
  intros Ha Hb. rewrite Z.pow_add_r by lia.
  apply Z.rem_mul_r; apply Z.pow_nonzero || idtac; try lia;
    apply Z.pow_pos_nonneg; lia.
Qed.


(** Taking [m] bits from the low end of the working byte. *)
Lemma take_bits (wb j lv m : Z) :
  0 <= j < 8 -> 1 <= m <= 8 - j -> 0 <= wb < 2 ^ (8 - j) -> 0 <= lv ->
  let cv := wb + 2 ^ (8 - j) * lv in
  Z.land wb (2 ^ m - 1) = cv mod 2 ^ m
  /\ (if (j + m) mod 8 =? 0 then lv
      else Z.shiftr wb m + 2 ^ (8 - (j + m) mod 8) * lv)
     = Z.shiftr cv m
  /\ ((j + m) mod 8 <> 0 ->
      0 <= Z.shiftr wb m < 2 ^ (8 - (j + m) mod 8))
  /\ 0 <= (j + m) mod 8 < 8.
Proof.
  intros Hj Hm Hwb Hlv cv.
  assert (Hpm : 0 < 2 ^ m) by (apply Z.pow_pos_nonneg; lia).
  assert (Hsplit : 2 ^ (8 - j) = 2 ^ m * 2 ^ (8 - j - m)).
  { rewrite <- Z.pow_add_r by lia. f_equal. lia. }
  assert (Hpr : 0 < 2 ^ (8 - j - m)) by (apply Z.pow_pos_nonneg; lia).
  assert (Hcv : cv = wb + (2 ^ (8 - j - m) * lv) * 2 ^ m).
  { unfold cv. rewrite Hsplit. ring. }
  split; [|split; [|split]].
  - replace (2 ^ m - 1) with (Z.ones m)
      by (rewrite Z.ones_equiv; lia).
    rewrite Z.land_ones by lia. rewrite Hcv.
    now rewrite Z.mod_add by lia.
  - rewrite !Z.shiftr_div_pow2 by lia. rewrite Hcv.
    rewrite Z.div_add by lia.
    destruct (Z.eq_dec (j + m) 8) as [E|E].
    + rewrite E. change (8 mod 8 =? 0) with true. cbv iota.
      replace (8 - j - m) with 0 in * by lia.
      rewrite Z.pow_0_r in *.
      rewrite Z.div_small by lia. lia.
    + rewrite Z.mod_small by lia.
      destruct (Z.eqb_spec (j + m) 0); [lia|].
      replace (8 - (j + m)) with (8 - j - m) by lia. reflexivity.
  - intros Hne.
    destruct (Z.eq_dec (j + m) 8) as [E|E].
    + rewrite E in Hne. now cbn in Hne.
    + rewrite Z.mod_small by lia. rewrite Z.shiftr_div_pow2 by lia.
      replace (8 - (j + m)) with (8 - j - m) by lia. split.
      * apply Z.div_pos; lia.
      * apply Z.div_lt_upper_bound; lia.
  - apply Z.mod_pos_bound. lia.
Qed.

(** The [while] loop of [split_bits] reads the next [slice_length] bits
    at the cursor: whatever it had read already, its segments, the last
    one highest, now also hold those bits, and the cursor has moved past
    them. *)
Lemma slice_loop_little (fuel : nat) (slice_length : Z) (c : cursor)
    (segments : list (Z * Z)) (consumed : Z) (w : world) :
  cursor_ok c ->
  0 <= consumed <= slice_length ->
  Forall (fun s => 0 <= snd s) segments ->
  segments_width segments = consumed ->
  slice_length - consumed <= cursor_bits c ->
  (Z.to_nat (slice_length - consumed) <= fuel)%nat ->
  exists c' segments',
    slice_loop fuel slice_length c segments consumed w
    = (Ok (c', segments'), w)
    /\ cursor_ok c'
    /\ combine_segments (rev segments')
       = combine_segments (rev segments)
         + Z.shiftl (cursor_value c mod 2 ^ (slice_length - consumed))
             consumed
    /\ cursor_value c' = Z.shiftr (cursor_value c) (slice_length - consumed)
    /\ cursor_bits c' = cursor_bits c - (slice_length - consumed).
Proof.
  revert c segments consumed.
  induction fuel as [|fuel IH]; intros c segments k Hc Hk Hsegs Hw Hbits Hfuel.
  - exists c, segments. cbn [slice_loop].
    destruct (Z.ltb_spec k slice_length); [lia|].
    replace (slice_length - k) with 0 by lia. change (2 ^ 0) with 1.
    rewrite Z.mod_1_r, Z.shiftl_0_l, Z.shiftr_0_r.
    split; [reflexivity|]. split; [exact Hc|]. split; [lia|].
    split; [reflexivity | lia].
  - cbn [slice_loop].
    destruct (Z.ltb_spec k slice_length) as [Hlt|Hge].
    2:{ exists c, segments.
        replace (slice_length - k) with 0 by lia. change (2 ^ 0) with 1.
        rewrite Z.mod_1_r, Z.shiftl_0_l, Z.shiftr_0_r.
        split; [reflexivity|]. split; [exact Hc|]. split; [lia|].
        split; [reflexivity | lia]. }
    destruct (next_byte_ok c w Hc ltac:(lia))
      as (c1 & Enext & Hj & Hbs & Hwb & Hcv & Hcb).
    unfold bind at 1. rewrite Enext.
    set (j := working_byte_bits_consumed c1) in *.
    set (m := Z.min (slice_length - k) (8 - j)).
    assert (Hm : 1 <= m <= 8 - j) by lia.
    assert (Hm' : m <= slice_length - k) by lia.
    unfold bind at 1, lift. rewrite (get_mask_default m) by lia.
    pose proof (le_value_nonneg _ Hbs) as Hlv.
    destruct (take_bits (working_byte c1) j (le_value (mybytes c1)) m
                Hj Hm Hwb Hlv) as (Hseg & Hval & Hwb2 & Hj2).
    cbv zeta in Hseg, Hval. rewrite <- Hcv in Hseg, Hval.
    set (c2 := mkCursor (mybytes c1) (Z.shiftr (working_byte c1) m)
                 ((j + m) mod 8)).
    assert (Hc2 : cursor_ok c2).
    { unfold cursor_ok, c2. cbn [mybytes working_byte working_byte_bits_consumed].
      repeat split; try lia; try assumption; apply Hwb2; assumption. }
    assert (Hcv2 : cursor_value c2 = Z.shiftr (cursor_value c) m).
    { unfold cursor_value at 1, c2.
      cbn [mybytes working_byte working_byte_bits_consumed]. exact Hval. }
    assert (Hcb2 : cursor_bits c2 = cursor_bits c - m).
    { unfold cursor_bits at 1, c2.
      cbn [mybytes working_byte working_byte_bits_consumed]. rewrite Hcb.
      destruct (Z.eq_dec (j + m) 8) as [E|E].
      - rewrite E. change (8 mod 8 =? 0) with true. cbv iota. lia.
      - rewrite Z.mod_small by lia.
        destruct (Z.eqb_spec (j + m) 0); lia. }
    destruct (IH c2 (segments ++ [(Z.land (working_byte c1) (2 ^ m - 1), m)])%list
                (k + m) Hc2) as (c' & segs' & Erun & Hc' & Hcomb & Hcv' & Hcb').
    + lia.
    + apply Forall_app. split; [assumption|]. repeat constructor. cbn. lia.
    + rewrite segments_width_app. lia.
    + lia.
    + lia.
    + exists c', segs'. split; [exact Erun|]. split; [exact Hc'|].
      split; [|split].
      * rewrite Hcomb, combine_rev_app by assumption.
        rewrite Hw, Hseg, Hcv2.
        replace (slice_length - (k + m)) with (slice_length - k - m) by lia.
        replace (slice_length - k) with (m + (slice_length - k - m)) at 2
          by lia.
        rewrite mod_pow2_split by lia.
        rewrite !Z.shiftl_mul_pow2, Z.shiftr_div_pow2 by lia.
        rewrite Z.pow_add_r by lia. ring.
      * rewrite Hcv', Hcv2, Z.shiftr_shiftr by lia. f_equal. lia.
      * lia.
Qed.

(** The fields of [n] of the given widths, the lowest first. *)
Fixpoint bit_fields (n : Z) (widths : list Z) : list Z :=
  match widths with
  | [] => []
  | width :: widths' =>
      n mod 2 ^ width :: bit_fields (Z.shiftr n width) widths'
  end.

Lemma slices_loop_little (slice_lengths : list Z) (c : cursor)
    (slices : list Z) (w : world) :
  Forall (fun x => 0 <= x) slice_lengths ->
  cursor_ok c ->
  sum slice_lengths <= cursor_bits c ->
  slices_loop slice_lengths "little" c slices w
  = (Ok (slices ++ bit_fields (cursor_value c) slice_lengths), w).
Proof.
  intros Hws; revert c slices.
  induction Hws as [|L ws HL Hws IH]; intros c slices Hc Hbits.
  - cbn. now rewrite app_nil_r.
  - rewrite sum_cons in Hbits.
    assert (Hsum : 0 <= sum ws).
    { clear -Hws. induction Hws as [|x l Hx _ IHl]; [reflexivity|].
      rewrite sum_cons. lia. }
    cbn [slices_loop bit_fields].
    destruct (slice_loop_little (Z.to_nat L) L c [] 0 w Hc)
      as (c' & segs & Erun & Hc' & Hcomb & Hcv & Hcb);
      [lia | constructor | reflexivity | lia | lia |].
    unfold bind at 1. rewrite Erun.
    unfold bind at 1, lift, _order_bytes.
    cbn [String.eqb Ascii.eqb Bool.eqb].
    rewrite IH by (try assumption; lia).
    rewrite Hcomb, Hcv, Z.sub_0_r, Z.shiftl_0_r.
    change (combine_segments (rev [])) with 0.
    rewrite <- app_assoc. reflexivity.
Qed.

Lemma ceil_div8_bounds (n : Z) : n <= 8 * ceil_div8 n < n + 8.
Proof.
  unfold ceil_div8.
  pose proof (Z.div_mod (- n) 8 ltac:(lia)).
  pose proof (Z.mod_pos_bound (- n) 8 ltac:(lia)). lia.
Qed.

Lemma sum_nonneg (l : list Z) : Forall (fun x => 0 <= x) l -> 0 <= sum l.
Proof.
  induction 1 as [|x l Hx _ IH]; [reflexivity|]. rewrite sum_cons. lia.
Qed.

Lemma split_bits_little_fields (slice_lengths : list Z) (consume : bool)
    (w : world) :
  let bytes_required := Z.to_nat (ceil_div8 (sum slice_lengths)) in
  Forall (fun x => 0 <= x) slice_lengths ->
  ceil_div8 (sum slice_lengths) <= len (stream w) ->
  Forall is_byte (firstn bytes_required (stream w)) ->
  split_bits slice_lengths consume "little" w
  = (Ok (bit_fields (le_value (firstn bytes_required (stream w)))
           slice_lengths),
     mkWorld
       (if consume then skipn bytes_required (stream w) else stream w)
       (sink w
        ++ if sum slice_lengths mod 8 =? 0 then []
           else [Warning bits_dropped_warning
                   [sum slice_lengths; 8 - sum slice_lengths mod 8]])).
Proof.
  intros k Hws Hlen Hbytes.
  pose proof (sum_nonneg _ Hws) as Hsum.
  pose proof (ceil_div8_bounds (sum slice_lengths)) as Hceil.
  unfold split_bits.
  destruct (Z.gtb_spec (ceil_div8 (sum slice_lengths)) (len (stream w)));
    [lia|].
  set (w1 := mkWorld (stream w)
               (sink w
                ++ if sum slice_lengths mod 8 =? 0 then []
                   else [Warning bits_dropped_warning
                           [sum slice_lengths;
                            8 - sum slice_lengths mod 8]])).
  assert (Hwarn :
            (if negb (sum slice_lengths mod 8 =? 0) then
               dbg_warning bits_dropped_warning
                 [sum slice_lengths; 8 - sum slice_lengths mod 8]
             else ret tt) w = (Ok tt, w1)).
  { unfold w1. destruct (sum slice_lengths mod 8 =? 0); cbn [negb].
    - rewrite app_nil_r. now destruct w.
    - reflexivity. }
  unfold bind at 1. rewrite Hwarn.
  assert (Hread : _consumption_method consume (ceil_div8 (sum slice_lengths)) w1
                  = (Ok (firstn k (stream w)),
                     mkWorld (if consume then skipn k (stream w) else stream w)
                       (sink w1))).
  { destruct (read_first_bytes (ceil_div8 (sum slice_lengths)) w1 Hlen)
      as [Hpeek Hpop].
    destruct consume; cbn [_consumption_method]; [exact Hpop|].
    rewrite Hpeek. reflexivity. }
  unfold bind at 1. rewrite Hread.
  rewrite slices_loop_little; [reflexivity | assumption | |].
  - unfold cursor_ok. cbn [mybytes working_byte working_byte_bits_consumed].
    repeat split; try lia; try assumption.
  - unfold cursor_bits. cbn [mybytes working_byte_bits_consumed Z.eqb].
    unfold len in *. rewrite length_firstn. unfold k. lia.
Qed.

(** With little endianness [split_bits] reads the buffer as one integer,
    its first byte lowest, and returns the consecutive bit fields of the
    requested widths, the first field lowest.  It reads
    [ceil(total / 8)] bytes, removes them when asked to consume and leaves
    the buffer alone otherwise, and warns once exactly when the total is
    not a multiple of 8. *)
Theorem split_bits_little (slice_lengths : list Z) (consume : bool)
    (w : world) :
  let bytes_required := Z.to_nat (ceil_div8 (sum slice_lengths)) in
  Forall (fun x => 0 <= x) slice_lengths ->
  ceil_div8 (sum slice_lengths) <= len (stream w) ->
  Forall is_byte (firstn bytes_required (stream w)) ->
  split_bits slice_lengths consume "little" w
  = (Ok (bit_fields (le_value (firstn bytes_required (stream w)))
           slice_lengths),
     mkWorld
       (if consume then skipn bytes_required (stream w) else stream w)
       (sink w
        ++ if sum slice_lengths mod 8 =? 0 then []
           else [Warning bits_dropped_warning
                   [sum slice_lengths; 8 - sum slice_lengths mod 8]])).
Proof. exact (split_bits_little_fields slice_lengths consume w). Qed.

Lemma split_bits_little_witness :
  split_bits [4; 7; 5] false "little" (mkWorld [0xCB; 0xDF; 7] [])
  = (Ok [11; 124; 27], mkWorld [0xCB; 0xDF; 7] []).
Proof.
  apply (split_bits_little [4; 7; 5] false (mkWorld [0xCB; 0xDF; 7] [])).
  - repeat constructor; discriminate.
  - discriminate.
  - cbn. repeat constructor; discriminate.
Defined.

(** ** [merge_bits], little endian, and the round trip with [split_bits] *)

(** The integer whose consecutive bit fields, lowest first, are the given
    (value, width) pairs. *)
Fixpoint join_fields (values : list (Z * Z)) : Z :=
  match values with
  | [] => 0
  | (value, width) :: values' => value + Z.shiftl (join_fields values') width
  end.

(** A pair [merge_bits] packs: at least one bit wide, the value within
    the width. *)
Definition field_fits (p : Z * Z) : Prop :=
  1 <= snd p /\ 0 <= fst p < 2 ^ snd p.

Lemma fields_width_nonneg (values : list (Z * Z)) :
  Forall field_fits values -> 0 <= segments_width values.
Proof.
  unfold segments_width. induction 1 as [|[v l] vs [Hl _] _ IH];
    [reflexivity|].
  cbn [map snd] in *. rewrite sum_cons. lia.
Qed.

Lemma join_fields_bound (values : list (Z * Z)) :
  Forall field_fits values ->
  0 <= join_fields values < 2 ^ segments_width values.
Proof.
  induction 1 as [|[v l] vs [Hl Hv] Hvs IH]; [cbn; lia|].
  pose proof (fields_width_nonneg vs Hvs) as Hw.
  cbn [join_fields fst snd] in *.
  unfold segments_width in *. cbn [map snd]. rewrite sum_cons.
  rewrite Z.shiftl_mul_pow2, Z.pow_add_r by lia.
  assert (0 < 2 ^ l) by (apply Z.pow_pos_nonneg; lia). nia.
Qed.

Lemma join_fields_app (done : list (Z * Z)) (v l : Z) :
  Forall field_fits done ->
  join_fields (done ++ [(v, l)])
  = join_fields done + Z.shiftl v (segments_width done).
Proof.
  induction 1 as [|[v0 l0] vs [Hl _] Hvs IH].
  - cbn [app join_fields]. rewrite Z.shiftl_0_l.
    change (segments_width []) with 0. rewrite Z.shiftl_0_r. lia.
  - pose proof (fields_width_nonneg vs Hvs) as Hw.
    cbn [app join_fields]. rewrite IH.
    unfold segments_width in *. cbn [map snd] in *. rewrite sum_cons.
    rewrite !Z.shiftl_mul_pow2, Z.pow_add_r by lia. ring.
Qed.

Lemma le_bytes_app (a b : nat) (x : Z) :
  le_bytes (a + b) x = le_bytes a x ++ le_bytes b (x / 256 ^ Z.of_nat a).
Proof.
  revert x; induction a as [|a IH]; intros x.
  - cbn. now rewrite Z.div_1_r.
  - cbn [Nat.add le_bytes app]. rewrite IH. do 2 f_equal.
    rewrite Nat2Z.inj_succ, Z.pow_succ_r by lia.
    rewrite Z.div_div by lia. reflexivity.
Qed.

Lemma le_bytes_low (a : nat) (x y : Z) :
  le_bytes a (x + y * 256 ^ Z.of_nat a) = le_bytes a x.
Proof.
  revert x y; induction a as [|a IH]; intros x y; [reflexivity|].
  cbn [le_bytes]. rewrite Nat2Z.inj_succ, Z.pow_succ_r by lia.
  replace (x + y * (256 * 256 ^ Z.of_nat a))
    with (x + (y * 256 ^ Z.of_nat a) * 256) by ring.
  rewrite Z.mod_add, Z.div_add by lia. now rewrite IH.
Qed.

Lemma le_bytes_are_bytes (a : nat) (x : Z) : Forall is_byte (le_bytes a x).
Proof.
  revert x; induction a as [|a IH]; intros x; constructor; [|apply IH].
  apply Z.mod_pos_bound. lia.
Qed.

Lemma or_last_app (l : list Z) (x b : Z) :
  0 <= Z.lor x b < 256 -> or_last (l ++ [x]) b = Ok (l ++ [Z.lor x b]).
Proof.
  intros H. induction l as [|y l IH].
  - cbn. destruct (Z.leb_spec 0 (Z.lor x b)); [|lia].
    destruct (Z.ltb_spec (Z.lor x b) 256); [reflexivity | lia].
  - cbn [app or_last]. rewrite IH. cbn [rbind].
    destruct (l ++ [x]) eqn:E; [|reflexivity].
    now destruct l.
Qed.

(** A value below [2 ^ o] and a multiple of [2 ^ o] share no bit. *)
Lemma lor_disjoint (a z o : Z) :
  0 <= o -> 0 <= a < 2 ^ o -> Z.lor a (z * 2 ^ o) = a + z * 2 ^ o.
Proof.
  intros Ho Ha.
  assert (Hland : Z.land a (z * 2 ^ o) = 0).
  { apply Z.bits_inj'. intros n Hn. rewrite Z.land_spec, Z.bits_0.
    destruct (Z_lt_le_dec n o).
    - rewrite Z.mul_pow2_bits_low by lia. apply andb_false_r.
    - rewrite <- (Z.mod_small a (2 ^ o)) by lia.
      rewrite Z.mod_pow2_bits_high by lia. reflexivity. }
  rewrite <- Z.lxor_lor by assumption.
  symmetry. now apply Z.add_nocarry_lxor.
Qed.

Lemma pack_partial_int_little (v l o : Z) :
  0 <= o -> 1 <= l -> 0 <= v < 2 ^ l ->
  pack_partial_int v l false "little" o
  = Ok (le_bytes (Z.to_nat (ceil_div8 (l + o))) (Z.shiftl v o)).
Proof.
  intros Ho Hl Hv. unfold pack_partial_int.
  destruct (Z.ltb_spec o 0); [lia|]. cbn [rbind].
  pose proof (ceil_div8_bounds (l + o)) as Hceil.
  assert (Hvo : 0 <= Z.shiftl v o < 2 ^ (l + o)).
  { rewrite Z.shiftl_mul_pow2, Z.pow_add_r by lia.
    assert (0 < 2 ^ o) by (apply Z.pow_pos_nonneg; lia). nia. }
  pose proof (bit_length_fits_unsigned _ (l + o) ltac:(lia) Hvo) as Hbl.
  destruct (Z.ltb_spec (l + o) 1); [lia|].
  destruct (Z.gtb_spec (bit_length (Z.shiftl v o)) (l + o)); [lia|].
  cbn [orb]. unfold int_to_bytes. cbn [byteorder String.eqb Ascii.eqb Bool.eqb].
  destruct (Z.ltb_spec (ceil_div8 (l + o)) 0); [lia|].
  destruct (Z.ltb_spec (Z.shiftl v o) 0); [lia|]. cbn [negb andb].
  assert (2 ^ (l + o) <= 2 ^ (8 * ceil_div8 (l + o)))
    by (apply Z.pow_le_mono_r; lia).
  destruct (Z.ltb_spec (Z.shiftl v o) (2 ^ (8 * ceil_div8 (l + o))));
    [reflexivity | lia].
Qed.

Lemma ceil_div8_add (q x : Z) : ceil_div8 (8 * q + x) = q + ceil_div8 x.
Proof.
  unfold ceil_div8. replace (- (8 * q + x)) with (- x + - q * 8) by ring.
  rewrite Z.div_add by lia. lia.
Qed.

(** One turn of the loop of [merge_bits]: the bytes that hold [V] on [T]
    bits, joined with the bytes of a value shifted to the bit offset
    [T mod 8], hold both on [T + l] bits. *)
Lemma merge_step (V T v l : Z) :
  0 <= T -> 0 <= V < 2 ^ T -> 1 <= l -> 0 <= v < 2 ^ l ->
  let o := T mod 8 in
  let new_bytes := le_bytes (Z.to_nat (ceil_div8 (l + o))) (Z.shiftl v o) in
  let mybytes := le_bytes (Z.to_nat (ceil_div8 T)) V in
  (if negb (o =? 0) then
     match new_bytes with
     | [] => Raise IndexError
     | b :: more =>
         rbind (or_last mybytes b) (fun merged =>
           if len new_bytes >? 1 then Ok (merged ++ more) else Ok merged)
     end
   else Ok (mybytes ++ new_bytes))
  = Ok (le_bytes (Z.to_nat (ceil_div8 (T + l))) (V + Z.shiftl v T)).
Proof.
  intros HT HV Hl Hv o new_bytes mybytes.
  set (q := T / 8).
  assert (Ho : 0 <= o < 8) by (apply Z.mod_pos_bound; lia).
  assert (HTq : T = 8 * q + o) by (apply Z.div_mod; lia).
  assert (Hq : 0 <= q) by (apply Z.div_pos; lia).
  assert (H256 : 256 ^ Z.of_nat (Z.to_nat q) = 2 ^ (8 * q)).
  { rewrite Z2Nat.id by lia. now apply pow_256. }
  assert (Hpq : 0 < 2 ^ (8 * q)) by (apply Z.pow_pos_nonneg; lia).
  assert (Hpo : 0 < 2 ^ o) by (apply Z.pow_pos_nonneg; lia).
  assert (Hpo8 : 2 ^ o <= 128).
  { change 128 with (2 ^ 7). apply Z.pow_le_mono_r; lia. }
  assert (HpT : 2 ^ T = 2 ^ o * 2 ^ (8 * q)).
  { rewrite <- Z.pow_add_r by lia. f_equal. lia. }
  pose proof (ceil_div8_bounds (l + o)) as Hcl.
  assert (Htot : Z.to_nat (ceil_div8 (T + l))
                 = (Z.to_nat q + Z.to_nat (ceil_div8 (l + o)))%nat).
  { replace (T + l) with (8 * q + (l + o)) by lia.
    rewrite ceil_div8_add. lia. }
  assert (HX : V + Z.shiftl v T = V + (v * 2 ^ o) * 2 ^ (8 * q)).
  { rewrite Z.shiftl_mul_pow2, HpT by lia. ring. }
  rewrite Htot, le_bytes_app, H256, HX.
  rewrite <- H256 at 1. rewrite le_bytes_low. rewrite Z.div_add by lia.
  set (Lb := V / 2 ^ (8 * q)).
  assert (HLb : 0 <= Lb < 2 ^ o).
  { unfold Lb. split; [apply Z.div_pos; lia|].
    apply Z.div_lt_upper_bound; lia. }
  destruct (Z.eqb_spec o 0) as [E|E]; cbn [negb].
  - (* byte boundary *)
    unfold mybytes, new_bytes.
    assert (Hc : ceil_div8 T = q).
    { rewrite HTq, E, ceil_div8_add. change (ceil_div8 0) with 0. lia. }
    rewrite Hc. rewrite E in *. rewrite Z.shiftl_0_r.
    change (2 ^ 0) with 1 in *. replace Lb with 0 by lia.
    rewrite Z.mul_1_r. reflexivity.
  - (* inside a byte *)
    assert (Hc : Z.to_nat (ceil_div8 T) = (Z.to_nat q + 1)%nat).
    { rewrite HTq. rewrite ceil_div8_add.
      pose proof (ceil_div8_bounds o). lia. }
    unfold mybytes. rewrite Hc, le_bytes_app, H256. fold Lb.
    cbn [le_bytes]. rewrite (Z.mod_small Lb 256) by lia.
    unfold new_bytes.
    destruct (Z.to_nat (ceil_div8 (l + o))) as [|n''] eqn:En; [lia|].
    cbn [le_bytes]. rewrite Z.shiftl_mul_pow2 by lia.
    set (y := v * 2 ^ o).
    assert (Hsplit8 : 256 = 2 ^ (8 - o) * 2 ^ o).
    { rewrite <- Z.pow_add_r by lia. now replace (8 - o + o) with 8 by lia. }
    assert (Hb : y mod 256 = (v mod 2 ^ (8 - o)) * 2 ^ o).
    { unfold y. rewrite Hsplit8 at 1.
      rewrite Z.mul_mod_distr_r; [reflexivity | | lia].
      apply Z.pow_nonzero; lia. }
    assert (Hz : 0 <= v mod 2 ^ (8 - o) < 2 ^ (8 - o)).
    { apply Z.mod_pos_bound. apply Z.pow_pos_nonneg; lia. }
    assert (Hlor : Z.lor Lb (y mod 256) = Lb + y mod 256).
    { rewrite Hb. apply lor_disjoint; lia. }
    assert (Hsum : 0 <= Lb + y mod 256 < 256).
    { rewrite Hb. nia. }
    rewrite or_last_app by (rewrite Hlor; exact Hsum).
    cbn [rbind]. rewrite Hlor.
    assert (Hy : Lb + y = Lb + y mod 256 + (y / 256) * 256).
    { pose proof (Z.div_mod y 256 ltac:(lia)). lia. }
    assert (Hm : (Lb + y) mod 256 = Lb + y mod 256).
    { rewrite Hy at 1. rewrite Z.mod_add by lia. now apply Z.mod_small. }
    assert (Hd : (Lb + y) / 256 = y / 256).
    { rewrite Hy at 1. rewrite Z.div_add by lia.
      rewrite Z.div_small by exact Hsum. lia. }
    rewrite Hm, Hd.
    destruct n'' as [|k]; [reflexivity|].
    unfold len. cbn [List.length]. rewrite le_bytes_length.
    destruct (Z.gtb_spec (Z.of_nat (S (S k))) 1); [|lia].
    rewrite <- app_assoc. reflexivity.
Qed.

Lemma merge_loop_little (todo done : list (Z * Z)) :
  Forall field_fits done -> Forall field_fits todo ->
  merge_loop done todo "little"
    (le_bytes (Z.to_nat (ceil_div8 (segments_width done)))
       (join_fields done))
  = Ok (le_bytes (Z.to_nat (ceil_div8 (segments_width (done ++ todo))))
          (join_fields (done ++ todo))).
Proof.
  revert done; induction todo as [|[v l] todo IH]; intros done Hdone Htodo.
  - now rewrite app_nil_r.
  - inversion Htodo as [|? ? [Hl Hv] Htodo']; subst. cbn [fst snd] in *.
    pose proof (fields_width_nonneg done Hdone) as HT.
    pose proof (join_fields_bound done Hdone) as HV.
    cbn [merge_loop]. fold (segments_width done).
    rewrite pack_partial_int_little
      by (try lia; apply Z.mod_pos_bound; lia).
    cbn [rbind].
    rewrite (merge_step (join_fields done) (segments_width done) v l)
      by assumption.
    cbn [rbind].
    rewrite <- (join_fields_app done v l) by assumption.
    rewrite <- (segments_width_app done v l).
    rewrite IH.
    + now rewrite <- app_assoc.
    + apply Forall_app. split; [assumption|]. repeat constructor; cbn; lia.
    + assumption.
Qed.

Lemma merge_bits_little_bytes (values : list (Z * Z)) (w : world) :
  Forall field_fits values ->
  merge_bits values "little" w
  = (Ok (le_bytes (Z.to_nat (ceil_div8 (segments_width values)))
           (join_fields values)),
     mkWorld (stream w)
       (sink w
        ++ if segments_width values mod 8 =? 0 then []
           else [Warning pad_warning
                   [segments_width values;
                    8 - segments_width values mod 8]])).
Proof.
  intros H. unfold merge_bits. fold (segments_width values).
  pose proof (merge_loop_little values [] (Forall_nil _) H) as Hloop.
  cbn [app] in Hloop. change (le_bytes _ (join_fields [])) with (@nil Z) in Hloop.
  unfold bind, lift. rewrite Hloop.
  destruct (segments_width values mod 8 =? 0); cbn [negb].
  - cbn. rewrite app_nil_r. now destruct w.
  - reflexivity.
Qed.

(** With little endianness [merge_bits] writes the (value, width) pairs
    as consecutive bit fields of one integer, the first pair lowest, on
    [ceil(total / 8)] bytes, the first byte lowest; the unused high bits
    of the last byte are zero, and one warning is emitted exactly when
    the total is not a multiple of 8. *)
Theorem merge_bits_little (values : list (Z * Z)) (w : world) :
  Forall field_fits values ->
  merge_bits values "little" w
  = (Ok (le_bytes (Z.to_nat (ceil_div8 (segments_width values)))
           (join_fields values)),
     mkWorld (stream w)
       (sink w
        ++ if segments_width values mod 8 =? 0 then []
           else [Warning pad_warning
                   [segments_width values;
                    8 - segments_width values mod 8]])).
Proof. exact (merge_bits_little_bytes values w). Qed.

Lemma merge_bits_little_witness :
  merge_bits [(11, 4); (124, 7); (27, 5)] "little" (mkWorld [] [])
  = (Ok [0xCB; 0xDF], mkWorld [] []).
Proof.
  apply (merge_bits_little [(11, 4); (124, 7); (27, 5)] (mkWorld [] [])).
  repeat constructor; cbn; lia.
Defined.

Lemma bit_fields_join (values : list (Z * Z)) :
  Forall field_fits values ->
  bit_fields (join_fields values) (map snd values) = map fst values.
Proof.
  induction 1 as [|[v l] vs [Hl Hv] Hvs IH]; [reflexivity|].
  cbn [fst snd map join_fields bit_fields] in *.
  assert (0 < 2 ^ l) by (apply Z.pow_pos_nonneg; lia).
  rewrite Z.shiftl_mul_pow2, Z.shiftr_div_pow2 by lia.
  rewrite Z.mod_add, Z.div_add by lia.
  rewrite Z.mod_small, Z.div_small by lia. cbn [Z.add]. now rewrite IH.
Qed.

Lemma fields_widths_nonneg (values : list (Z * Z)) :
  Forall field_fits values -> Forall (fun x => 0 <= x) (map snd values).
Proof.
  induction 1 as [|[v l] vs [Hl _] _ IH]; constructor; cbn in *; [lia|].
  exact IH.
Qed.

Lemma merge_then_split (values : list (Z * Z)) (consume : bool)
    (rest : list Z) (w : world) :
  Forall field_fits values ->
  exists merged w1 w2,
    merge_bits values "little" w = (Ok merged, w1)
    /\ len merged = ceil_div8 (segments_width values)
    /\ split_bits (map snd values) consume "little"
         (mkWorld (merged ++ rest) (sink w1))
       = (Ok (map fst values), w2)
    /\ stream w2 = (if consume then rest else merged ++ rest).
Proof.
  intros H.
  pose proof (fields_width_nonneg values H) as HT.
  pose proof (join_fields_bound values H) as HV.
  pose proof (ceil_div8_bounds (segments_width values)) as Hceil.
  set (k := Z.to_nat (ceil_div8 (segments_width values))).
  set (merged := le_bytes k (join_fields values)).
  assert (Hlen : List.length merged = k) by apply le_bytes_length.
  assert (Hfirst : firstn k (merged ++ rest) = merged).
  { rewrite <- Hlen, firstn_app, Nat.sub_diag. cbn.
    now rewrite firstn_all, app_nil_r. }
  assert (Hskip : skipn k (merged ++ rest) = rest).
  { rewrite <- Hlen, skipn_app, Nat.sub_diag. cbn. now rewrite skipn_all. }
  eexists merged, _, _. split; [apply (merge_bits_little_bytes values w H)|].
  split; [unfold len; lia|].
  cbn [sink].
  rewrite split_bits_little_fields.
  - fold (segments_width values). fold k. cbn [stream]. rewrite Hfirst.
    assert (Hval : le_value merged = join_fields values).
    { unfold merged. rewrite le_value_le_bytes.
      unfold k. rewrite Z2Nat.id, pow_256 by lia.
      apply Z.mod_small.
      assert (2 ^ segments_width values
              <= 2 ^ (8 * ceil_div8 (segments_width values)))
        by (apply Z.pow_le_mono_r; lia).
      lia. }
    rewrite Hval, bit_fields_join by assumption.
    split; [reflexivity|].
    cbn [stream]. destruct consume; [exact Hskip | reflexivity].
  - now apply fields_widths_nonneg.
  - fold (segments_width values). cbn [stream]. unfold len.
    rewrite length_app. lia.
  - fold (segments_width values). fold k. cbn [stream]. rewrite Hfirst.
    apply le_bytes_are_bytes.
Qed.

(** [split_bits] undoes [merge_bits], little endian: what [merge_bits]
    writes for pairs that fit their widths, [split_bits] with those
    widths reads back as the values, from a buffer that starts with the
    bytes written, whatever follows them; it consumes exactly those
    bytes, or none when not consuming. *)
Theorem merge_split_round_trip (values : list (Z * Z)) (consume : bool)
    (rest : list Z) (w : world) :
  Forall field_fits values ->
  exists merged w1 w2,
    merge_bits values "little" w = (Ok merged, w1)
    /\ len merged = ceil_div8 (segments_width values)
    /\ split_bits (map snd values) consume "little"
         (mkWorld (merged ++ rest) (sink w1))
       = (Ok (map fst values), w2)
    /\ stream w2 = (if consume then rest else merged ++ rest).
Proof. exact (merge_then_split values consume rest w). Qed.

Lemma merge_split_round_trip_witness :
  exists merged w1 w2,
    merge_bits [(1, 1); (28645, 15)] "little" (mkWorld [] []) = (Ok merged, w1)
    /\ len merged = ceil_div8 (segments_width [(1, 1); (28645, 15)])
    /\ split_bits (map snd [(1, 1); (28645, 15)]) true "little"
         (mkWorld (merged ++ [9]) (sink w1))
       = (Ok (map fst [(1, 1); (28645, 15)]), w2)
    /\ stream w2 = [9].
Proof.
  apply (merge_split_round_trip [(1, 1); (28645, 15)] true [9]
           (mkWorld [] [])).
  repeat constructor; cbn; lia.
Defined.

(** ** Integer fields: hard and soft bounds *)

Lemma int_validate_bounds (c : IntField.cls) (v : Z) (w : world) :
  let r := IntField.validate c v None None None None w in
  fst r
  = (if (IntField.BIT_LENGTH_MINIMUM c <=? v)
        && (v <=? IntField.BIT_LENGTH_MAXIMUM c)
     then Ok v else Raise OverflowError)
  /\ stream (snd r) = stream w
  /\ (fst r = Ok v -> IntField.enrich c v = v).
Proof.
  cbv zeta. rewrite int_validate_result. cbv zeta. unfold py_or.
  split; [|split].
  - destruct (Z.gtb_spec v (IntField.BIT_LENGTH_MAXIMUM c));
      destruct (Z.ltb_spec v (IntField.BIT_LENGTH_MINIMUM c));
      destruct (Z.leb_spec (IntField.BIT_LENGTH_MINIMUM c) v);
      destruct (Z.leb_spec v (IntField.BIT_LENGTH_MAXIMUM c));
      cbn; try reflexivity; lia.
  - unfold IntField.validate, py_or.
    destruct (v >? IntField.BIT_LENGTH_MAXIMUM c); [reflexivity|].
    destruct (v <? IntField.BIT_LENGTH_MINIMUM c); [reflexivity|].
    unfold bind.
    destruct (v <? IntField.MINIMUM c);
      destruct (v >? IntField.MAXIMUM c); reflexivity.
  - destruct (Z.gtb_spec v (IntField.BIT_LENGTH_MAXIMUM c));
      [discriminate|].
    destruct (Z.ltb_spec v (IntField.BIT_LENGTH_MINIMUM c));
      [discriminate|].
    intros _. unfold IntField.enrich. lia.
Qed.

(** [IntField.validate] with its default arguments raises
    [OverflowError] exactly on a value outside the bit-length bounds of
    the class and returns every other value unchanged: the soft bounds
    [MINIMUM] and [MAXIMUM] only add warnings.  The buffer is never
    touched, and on an accepted value [enrich] is the identity. *)
Theorem int_field_validate_bounds (c : IntField.cls) (v : Z) (w : world) :
  let r := IntField.validate c v None None None None w in
  fst r
  = (if (IntField.BIT_LENGTH_MINIMUM c <=? v)
        && (v <=? IntField.BIT_LENGTH_MAXIMUM c)
     then Ok v else Raise OverflowError)
  /\ stream (snd r) = stream w
  /\ (fst r = Ok v -> IntField.enrich c v = v).
Proof. exact (int_validate_bounds c v w). Qed.

(** ** Enumerations *)

Lemma member_found (members : list (string * Z)) (val : Z) (m : string * Z) :
  EnumField.member members val = Ok m -> snd m = val /\ In m members.
Proof.
  induction members as [|[name v] ms IH]; cbn; [discriminate|].
  destruct (Z.eqb_spec v val) as [->|Hne].
  - intros H; inversion H; subst. cbn. auto.
  - intros H. destruct (IH H). auto.
Qed.

Lemma member_missing (members : list (string * Z)) (val : Z) :
  existsb (fun m => snd m =? val) members = false ->
  EnumField.member members val = Raise ValueError.
Proof.
  induction members as [|[name v] ms IH]; cbn; [reflexivity|].
  destruct (v =? val); cbn; [discriminate | exact IH].
Qed.

Lemma member_present (members : list (string * Z)) (val : Z) :
  existsb (fun m => snd m =? val) members = true ->
  exists name, EnumField.member members val = Ok (name, val).
Proof.
  induction members as [|[name v] ms IH]; cbn; [discriminate|].
  destruct (Z.eqb_spec v val) as [->|Hne]; cbn; eauto.
Qed.

Lemma enum_validate_cases (c : EnumField.cls) (val : Z) (w : world) :
  let is_member := existsb (fun m => snd m =? val) (EnumField.EnumValues c) in
  let bounds := EnumField.as_int_field c in
  let within :=
    (IntField.BIT_LENGTH_MINIMUM bounds <=? val)
    && (val <=? IntField.BIT_LENGTH_MAXIMUM bounds) in
  fst (EnumField.validate c val w)
  = (if is_member || within then Ok val else Raise OverflowError)
  /\ (is_member = true ->
      EnumField.validate c val w = (Ok val, w)
      /\ exists name,
           EnumField.enrich c val = inl name
           /\ In (name, val) (EnumField.EnumValues c))
  /\ (is_member = false -> within = true ->
      EnumField.enrich c val = inr val).
Proof.
  cbv zeta. unfold EnumField.validate, EnumField.enrich.
  destruct (existsb _ (EnumField.EnumValues c)) eqn:E; cbn [orb].
  - destruct (member_present _ _ E) as [name Hm]. rewrite Hm. cbn [fst snd].
    split; [reflexivity|]. split; [|discriminate].
    intros _. split; [reflexivity|]. exists name. split; [reflexivity|].
    now destruct (member_found _ _ _ Hm).
  - rewrite (member_missing _ _ E).
    destruct (int_validate_bounds (EnumField.as_int_field c) val w)
      as (Hr & _ & He).
    cbv zeta in Hr, He. split; [exact Hr|]. split; [discriminate|].
    intros _ Hin. rewrite Hin in Hr. now rewrite (He Hr).
Qed.

(** [EnumField.validate] returns every value of a member of the
    enumeration at once, silently and whatever the bit length; any other
    value is accepted exactly when it lies within the bit-length bounds
    and raises [OverflowError] otherwise.  [enrich] names a member value
    by its first member and returns any other accepted value as it is. *)
Theorem enum_validate_enrich (c : EnumField.cls) (val : Z) (w : world) :
  let is_member := existsb (fun m => snd m =? val) (EnumField.EnumValues c) in
  let bounds := EnumField.as_int_field c in
  let within :=
    (IntField.BIT_LENGTH_MINIMUM bounds <=? val)
    && (val <=? IntField.BIT_LENGTH_MAXIMUM bounds) in
  fst (EnumField.validate c val w)
  = (if is_member || within then Ok val else Raise OverflowError)
  /\ (is_member = true ->
      EnumField.validate c val w = (Ok val, w)
      /\ exists name,
           EnumField.enrich c val = inl name
           /\ In (name, val) (EnumField.EnumValues c))
  /\ (is_member = false -> within = true ->
      EnumField.enrich c val = inr val).
Proof. exact (enum_validate_cases c val w). Qed.

(** [BitEnabledField] and [BitDisabledField] accept exactly 0 and 1 and
    name them with opposite polarity. *)
Theorem bit_enabled_disabled (val : Z) (w : world) :
  (fst (EnumField.validate EnumField.BitEnabledField val w)
   = (if (val =? 0) || (val =? 1) then Ok val else Raise OverflowError))
  /\ (fst (EnumField.validate EnumField.BitDisabledField val w)
      = (if (val =? 0) || (val =? 1) then Ok val else Raise OverflowError))
  /\ EnumField.enrich EnumField.BitEnabledField 0 = inl "DISABLED"
  /\ EnumField.enrich EnumField.BitEnabledField 1 = inl "ENABLED"
  /\ EnumField.enrich EnumField.BitDisabledField 0 = inl "ENABLED"
  /\ EnumField.enrich EnumField.BitDisabledField 1 = inl "DISABLED".
Proof.
  assert (H : forall c,
             c = EnumField.BitEnabledField \/ c = EnumField.BitDisabledField ->
             fst (EnumField.validate c val w)
             = (if (val =? 0) || (val =? 1) then Ok val
                else Raise OverflowError)).
  { intros c Hc.
    destruct (enum_validate_cases c val w) as (Hv & _). cbv zeta in Hv.
    rewrite Hv.
    destruct Hc as [-> | ->]; destruct val as [|[p|p|]|p]; reflexivity. }
  repeat split; try (apply H; auto).
Qed.

(** ** Times and dates *)

(** A [TimeField] accepts exactly the integers of 17 bits, 0 to 131071.
    It warns, and still accepts, when the value is above the 86400
    seconds of a day, the sentinel [INVALID_TIME] apart; 86400 itself
    draws no warning. *)
Theorem time_validate_range (val : Z) (w : world) :
  TimeField.validate val w
  = (if (0 <=? val) && (val <=? 131071) then Ok val else Raise OverflowError,
     mkWorld (stream w)
       (sink w
        ++ if (86400 <? val) && (val <? 131071) then
             [Warning TimeField.invalid_seconds [val; 86400]]
           else [])).
Proof.
  unfold TimeField.validate, TimeField.INVALID_TIME.
  change (IntField.BIT_LENGTH_MINIMUM TimeField.TimeField) with 0.
  change (IntField.BIT_LENGTH_MAXIMUM TimeField.TimeField) with 131071.
  change (IntField.MINIMUM TimeField.TimeField) with 0.
  change (IntField.MAXIMUM TimeField.TimeField) with 86400.
  destruct w as [s ds]. cbn [stream sink].
  destruct (Z.eqb_spec val 131071) as [->|Hne];
    [cbn; now rewrite app_nil_r|].
  destruct (Z.ltb_spec val 0); destruct (Z.gtb_spec val 131071);
    destruct (Z.leb_spec 0 val); destruct (Z.leb_spec val 131071);
    destruct (Z.ltb_spec 86400 val); destruct (Z.ltb_spec val 131071);
    destruct (Z.gtb_spec val 86400);
    try lia; cbn; rewrite ?app_nil_r; reflexivity.
Qed.

Lemma shiftr_17_bounds (val : Z) :
  (Z.shiftr val 17 <? 0) || (Z.shiftr val 17 >? 32767)
  = negb ((0 <=? val) && (val <? 2 ^ 32)).
Proof.
  rewrite Z.shiftr_div_pow2 by lia.
  pose proof (Z.div_mod val (2 ^ 17) ltac:(lia)) as Hdm.
  pose proof (Z.mod_pos_bound val (2 ^ 17) ltac:(lia)) as Hm.
  change (2 ^ 32) with (32768 * 2 ^ 17).
  destruct (Z.ltb_spec (val / 2 ^ 17) 0);
    destruct (Z.gtb_spec (val / 2 ^ 17) 32767);
    destruct (Z.leb_spec 0 val);
    destruct (Z.ltb_spec val (32768 * 2 ^ 17)); cbn; try reflexivity; lia.
Qed.

(** A [DateTimeField] accepts exactly the integers of 32 bits.  An
    accepted value splits without loss into a day count of 15 bits and
    seconds of 17 bits, the two parts [enrich] reads; it warns, and
    still accepts, when the seconds are above 86400. *)
Theorem datetime_validate_range (val : Z) (w : world) :
  DateTimeField.validate val w
  = (if (0 <=? val) && (val <? 2 ^ 32) then Ok val else Raise OverflowError,
     mkWorld (stream w)
       (sink w
        ++ if (0 <=? val) && (val <? 2 ^ 32) && (86400 <? val mod 2 ^ 17)
           then [Warning TimeField.invalid_seconds [val mod 2 ^ 17; 86400]]
           else []))
  /\ (0 <= val < 2 ^ 32 ->
      val = DateTimeField.days val * 2 ^ 17 + DateTimeField.seconds val
      /\ 0 <= DateTimeField.days val < 2 ^ 15
      /\ 0 <= DateTimeField.seconds val < 2 ^ 17).
Proof.
  assert (Hmask : forall x, Z.land x DateTimeField.TIME_MASK = x mod 2 ^ 17).
  { intros x. change DateTimeField.TIME_MASK with (Z.ones 17).
    now rewrite Z.land_ones by lia. }
  pose proof (Z.mod_pos_bound val (2 ^ 17) ltac:(lia)) as Hm.
  split.
  - unfold DateTimeField.validate.
    change DateTimeField.TIME_BIT_LENGTH with 17.
    change DateTimeField.MIN_DATE with 0.
    change DateTimeField.MAX_DATE with 32767.
    change DateTimeField.MIN_TIME with 0.
    change DateTimeField.MAX_TIME with 86400.
    rewrite shiftr_17_bounds, Hmask.
    destruct w as [s ds]. cbn [stream sink].
    destruct ((0 <=? val) && (val <? 2 ^ 32)); cbn [negb andb].
    + destruct (Z.ltb_spec (val mod 2 ^ 17) 0); [lia|].
      destruct (Z.gtb_spec (val mod 2 ^ 17) 86400);
        destruct (Z.ltb_spec 86400 (val mod 2 ^ 17)); try lia;
        cbn; rewrite ?app_nil_r; reflexivity.
    + cbn. now rewrite app_nil_r.
  - intros Hv. unfold DateTimeField.days, DateTimeField.seconds.
    change DateTimeField.TIME_BIT_LENGTH with 17.
    rewrite Hmask, Z.shiftr_div_pow2 by lia.
    pose proof (Z.div_mod val (2 ^ 17) ltac:(lia)) as Hdm.
    split; [lia|]. split; [|lia]. split.
    + apply Z.div_pos; lia.
    + apply Z.div_lt_upper_bound; [lia|].
      change (2 ^ 17 * 2 ^ 15) with (2 ^ 32). lia.
Qed.

(** ** Strings *)

Lemma get_int_one_byte (b : Z) (s : list Z) (ds : list diag) :
  get_int 1 false true "little" (mkWorld (b :: s) ds) = (Ok b, mkWorld s ds).
Proof.
  unfold get_int, bind. cbn [_consumption_method].
  destruct (read_first_bytes 1 (mkWorld (b :: s) ds)) as [_ Hpop].
  { unfold len. cbn [stream List.length]. lia. }
  change (Z.to_nat 1) with 1%nat in Hpop.
  cbn [firstn skipn stream sink] in Hpop. rewrite Hpop.
  unfold lift, int_from_bytes.
  cbn [byteorder String.eqb Ascii.eqb Bool.eqb le_value andb].
  now rewrite Z.mul_0_r, Z.add_0_r.
Qed.

(** The loop of [get_string] appends to [mystring] a prefix of the
    stream and leaves the rest; it reads at least one byte of a stream
    that has one, and stops before the end only at the length asked for
    or after a terminator. *)
Lemma get_string_loop_reads (s : list Z) (fuel : nat) (length : option Z)
    (null_terminated : bool) (mystring : list Z) (ds : list diag) :
  (List.length s <= fuel)%nat ->
  exists r rest,
    get_string_loop fuel length null_terminated mystring (mkWorld s ds)
    = (Ok (mystring ++ r), mkWorld rest ds)
    /\ s = r ++ rest
    /\ (s <> [] -> r <> [])
    /\ (forall n, length = Some n ->
          len (mystring ++ r) <= Z.max n (len mystring + 1))
    /\ (null_terminated = true -> ~ In 0 (removelast r))
    /\ (rest <> [] ->
        (exists n, length = Some n /\ n <= len (mystring ++ r))
        \/ (null_terminated = true /\ last r 1 = 0)).
Proof.
  revert fuel mystring; induction s as [|b s IH]; intros fuel acc Hfuel.
  - exists [], []. destruct fuel; cbn; rewrite app_nil_r;
      repeat split; try tauto; try (intros; unfold len; lia).
  - destruct fuel as [|fuel]; [cbn in Hfuel; lia|].
    cbn [get_string_loop stream].
    assert (Hpos : (len (b :: s) >? 0) = true).
    { unfold len. cbn [List.length]. apply Z.gtb_lt. lia. }
    rewrite Hpos. unfold bind at 1. rewrite get_int_one_byte.
    assert (Hacc : len (acc ++ [b]) = len acc + 1).
    { unfold len. rewrite length_app. cbn. lia. }
    set (stop_len := match length with
                     | Some n => len (acc ++ [b]) >=? n
                     | None => false
                     end).
    destruct stop_len eqn:Elen.
    + (* the length asked for is reached *)
      exists [b], s. split; [reflexivity|]. split; [reflexivity|].
      split; [discriminate|]. split; [intros n _; lia|].
      split; [cbn; tauto|]. intros _. left.
      unfold stop_len in Elen. destruct length as [n|]; [|discriminate].
      exists n. split; [reflexivity|]. apply Z.geb_le in Elen. lia.
    + destruct (null_terminated && (b =? 0)) eqn:Enul.
      * (* a terminator *)
        exists [b], s. split; [reflexivity|]. split; [reflexivity|].
        split; [discriminate|]. split; [intros n _; lia|].
        split; [cbn; tauto|]. intros _. right.
        apply andb_prop in Enul. destruct Enul as [-> E0].
        apply Z.eqb_eq in E0. now subst.
      * destruct (IH fuel (acc ++ [b]) ltac:(cbn in Hfuel; lia))
          as (r & rest & Erun & Hs & Hne & Hbound & Hnul & Hstop).
        exists (b :: r), rest. rewrite <- app_assoc in Erun. cbn [app] in *.
        split; [exact Erun|]. split; [now rewrite Hs|].
        split; [discriminate|].
        rewrite <- app_assoc in Hbound, Hstop. cbn [app] in *.
        split; [|split].
        -- intros n Hn. specialize (Hbound n Hn).
           unfold stop_len in Elen. rewrite Hn in Elen.
           rewrite Z.geb_leb in Elen. apply Z.leb_gt in Elen. lia.
        -- intros Hnt. destruct r as [|x r]; [cbn; tauto|].
           change (removelast (b :: x :: r)) with (b :: removelast (x :: r)).
           intros [E0 | Hin]; [|now apply Hnul].
           subst b. rewrite Hnt in Enul. discriminate.
        -- intros Hrest. destruct r as [|x r].
           ++ exfalso. apply Hne; [|reflexivity].
              cbn in Hs. now subst s.
           ++ change (last (b :: x :: r) 1) with (last (x :: r) 1).
              now apply Hstop.
Qed.

Lemma get_string_prefix (length : option Z)
    (null_terminated consume : bool) (w : world) :
  match length with
  | Some n =>
      n < 0 ->
      get_string length null_terminated consume w = (Raise IndexError, w)
  | None => True
  end
  /\ (match length with Some n => 0 <= n | None => True end ->
      exists r rest,
        get_string length null_terminated consume w
        = (Ok r, mkWorld (if consume then rest else stream w) (sink w))
        /\ stream w = r ++ rest
        /\ (stream w <> [] -> r <> [])
        /\ (forall n, length = Some n -> len r <= Z.max n 1)
        /\ (null_terminated = true -> ~ In 0 (removelast r))
        /\ (rest <> [] ->
            (exists n, length = Some n /\ n <= len r)
            \/ (null_terminated = true /\ last r 1 = 0))).
Proof.
  split.
  - destruct length as [n|]; [|exact I]. intros Hn. unfold get_string.
    destruct (Z.ltb_spec n 0); [reflexivity | lia].
  - intros Hlen. destruct w as [s ds].
    destruct (get_string_loop_reads s (List.length s) length null_terminated
                [] ds (le_n _))
      as (r & rest & Erun & Hs & Hne & Hbound & Hnul & Hstop).
    cbn [app] in *. exists r, rest.
    split; [|repeat split; assumption].
    unfold get_string. cbn [stream sink].
    destruct length as [n|].
    + destruct (Z.ltb_spec n 0); [lia|]. rewrite Erun.
      now destruct consume.
    + rewrite Erun. now destruct consume.
Qed.

(** [get_string] returns a prefix of the buffer as characters, one a
    byte, and removes exactly that prefix when consuming; it leaves the
    buffer alone otherwise.  From a buffer that is not empty it returns
    at least one character, even for [length = 0]; it never returns more
    than [max(length, 1)]; with [null_terminated] no character before
    the last is NUL; and it stops before the end of the buffer only at
    the length or after a NUL terminator.  A negative length is an
    [IndexError] that reads nothing. *)
Theorem get_string_reads_prefix (length : option Z)
    (null_terminated consume : bool) (w : world) :
  match length with
  | Some n =>
      n < 0 ->
      get_string length null_terminated consume w = (Raise IndexError, w)
  | None => True
  end
  /\ (match length with Some n => 0 <= n | None => True end ->
      exists r rest,
        get_string length null_terminated consume w
        = (Ok r, mkWorld (if consume then rest else stream w) (sink w))
        /\ stream w = r ++ rest
        /\ (stream w <> [] -> r <> [])
        /\ (forall n, length = Some n -> len r <= Z.max n 1)
        /\ (null_terminated = true -> ~ In 0 (removelast r))
        /\ (rest <> [] ->
            (exists n, length = Some n /\ n <= len r)
            \/ (null_terminated = true /\ last r 1 = 0))).
Proof. exact (get_string_prefix length null_terminated consume w). Qed.

Lemma get_string_reads_prefix_witness :
  exists r rest,
    get_string (Some 0) false true (mkWorld [65; 66; 0; 67] [])
    = (Ok r, mkWorld rest [])
    /\ [65; 66; 0; 67] = r ++ rest
    /\ r <> [].
Proof.
  destruct (get_string_reads_prefix (Some 0) false true
              (mkWorld [65; 66; 0; 67] [])) as [_ H].
  destruct (H ltac:(cbn; lia)) as (r & rest & Erun & Hs & Hne & _).
  exists r, rest. split; [exact Erun|]. split; [exact Hs|].
  apply Hne. discriminate.
Defined.

Lemma encode_latin1_bytes (s : list Z) :
  Forall is_byte s -> StringField.encode_latin1 s = Ok s.
Proof.
  induction 1 as [|c s Hc _ IH]; [reflexivity|].
  cbn [StringField.encode_latin1]. unfold is_byte in Hc.
  destruct (Z.leb_spec 0 c); [|lia]. destruct (Z.ltb_spec c 256); [|lia].
  cbn [andb]. now rewrite IH.
Qed.

Definition is_ascii (c : Z) : Prop := 0 <= c < 128.

Lemma decode_utf8_ascii (s : list Z) :
  Forall is_ascii s -> StringField.decode_utf8 s = Ok s.
Proof.
  induction 1 as [|c s Hc _ IH]; [reflexivity|].
  cbn [StringField.decode_utf8]. unfold is_ascii in Hc.
  unfold StringField.within.
  destruct (Z.leb_spec 0 c); [|lia]. destruct (Z.leb_spec c 127); [|lia].
  cbn [andb]. now rewrite IH.
Qed.

Lemma ascii_is_byte (s : list Z) : Forall is_ascii s -> Forall is_byte s.
Proof.
  apply Forall_impl. unfold is_ascii, is_byte. intros; lia.
Qed.

Lemma get_string_whole_or_fixed (n : Z) (consume : bool) (w : world) :
  get_string None false consume w
  = (Ok (stream w), mkWorld (if consume then [] else stream w) (sink w))
  /\ (1 <= n <= len (stream w) ->
      get_string (Some n) false consume w
      = (Ok (firstn (Z.to_nat n) (stream w)),
         mkWorld (if consume then skipn (Z.to_nat n) (stream w)
                  else stream w)
           (sink w))).
Proof.
  split.
  - destruct (get_string_prefix None false consume w) as [_ H].
    destruct (H I) as (r & rest & Erun & Hs & _ & _ & _ & Hstop).
    assert (rest = []).
    { destruct rest as [|x rest]; [reflexivity|].
      destruct Hstop as [(m & Hm & _) | [Hnt _]]; discriminate. }
    subst rest. rewrite app_nil_r in Hs. now rewrite Erun, Hs.
  - intros Hn.
    destruct (get_string_prefix (Some n) false consume w) as [_ H].
    destruct (H ltac:(cbn; lia))
      as (r & rest & Erun & Hs & _ & Hbound & _ & Hstop).
    specialize (Hbound n eq_refl).
    assert (Hr : List.length r = Z.to_nat n).
    { unfold len in *. rewrite Hs, length_app in Hn.
      destruct rest as [|x rest].
      - cbn in Hn. lia.
      - destruct Hstop as [(m & Hm & Hle) | [Hnt _]];
          [discriminate | | discriminate].
        inversion Hm; subst m. lia. }
    rewrite Erun, Hs, <- Hr.
    rewrite firstn_app, Nat.sub_diag, firstn_all. cbn [firstn].
    rewrite skipn_app, Nat.sub_diag, skipn_all. cbn [skipn app].
    now rewrite app_nil_r.
Qed.

(** Without a length and without null termination [get_string] returns
    the whole buffer; with a length [n] of at least 1 and no null
    termination it returns the first [n] bytes of a buffer that holds
    them.  The bytes read are the ones removed when consuming. *)
Theorem get_string_whole_and_fixed (n : Z) (consume : bool) (w : world) :
  get_string None false consume w
  = (Ok (stream w), mkWorld (if consume then [] else stream w) (sink w))
  /\ (1 <= n <= len (stream w) ->
      get_string (Some n) false consume w
      = (Ok (firstn (Z.to_nat n) (stream w)),
         mkWorld (if consume then skipn (Z.to_nat n) (stream w)
                  else stream w)
           (sink w))).
Proof. exact (get_string_whole_or_fixed n consume w). Qed.

Lemma get_string_whole_and_fixed_witness :
  get_string (Some 2) false true (mkWorld [65; 66; 0; 67] [])
  = (Ok [65; 66], mkWorld [0; 67] []).
Proof.
  apply (get_string_whole_and_fixed 2 true (mkWorld [65; 66; 0; 67] [])).
  cbn. lia.
Defined.

Lemma get_string_loop_to_terminator (s : list Z) (fuel : nat) (n : Z)
    (mystring tail : list Z) (ds : list diag) :
  ~ In 0 s ->
  len mystring + len s < n ->
  (List.length (s ++ 0%Z :: tail) <= fuel)%nat ->
  get_string_loop fuel (Some n) true mystring (mkWorld (s ++ 0 :: tail) ds)
  = (Ok (mystring ++ s ++ [0]), mkWorld tail ds).
Proof.
  revert fuel mystring; induction s as [|b s IH]; intros fuel acc H0 Hn Hfuel;
    (destruct fuel as [|fuel]; [cbn in Hfuel; lia|]);
    cbn [app get_string_loop stream].
  - assert (Hpos : (len (0 :: tail) >? 0) = true).
    { unfold len. cbn [List.length]. apply Z.gtb_lt. lia. }
    rewrite Hpos. unfold bind. rewrite get_int_one_byte.
    destruct (len (acc ++ [0]) >=? n); reflexivity.
  - assert (Hpos : (len (b :: s ++ 0 :: tail) >? 0) = true).
    { unfold len. cbn [List.length]. apply Z.gtb_lt. lia. }
    rewrite Hpos. unfold bind at 1. rewrite get_int_one_byte.
    assert (Hacc : len (acc ++ [b]) = len acc + 1).
    { unfold len. rewrite length_app. cbn. lia. }
    assert (Hlen : len (b :: s) = len s + 1).
    { unfold len. cbn [List.length]. lia. }
    assert (Hs0 : 0 <= len s) by (unfold len; lia).
    destruct (Z.geb_spec (len (acc ++ [b])) n); [lia|].
    destruct (Z.eqb_spec b 0) as [->|Hb]; [cbn in H0; tauto|].
    cbn [andb]. rewrite IH.
    + now rewrite <- app_assoc.
    + cbn in H0. tauto.
    + lia.
    + cbn in Hfuel. lia.
Qed.

(** [pack_string] and [get_string] on Latin-1 text.  Written without a
    maximum length, a string is read back whole.  Written null-padded to
    [n] bytes, a string without NUL and shorter than [n] is read back
    with null termination as the string and one NUL: the reader stops
    there, and the rest of the padding stays in the buffer. *)
Theorem pack_string_get_string (s tail : list Z) (n : Z) (consume : bool)
    (ds : list diag) :
  Forall is_byte s ->
  bintools_strings.pack_string s None false = Ok s
  /\ get_string None false consume (mkWorld s ds)
     = (Ok s, mkWorld (if consume then [] else s) ds)
  /\ (~ In 0 s -> len s < n ->
      let padding := repeat 0 (Z.to_nat (n - len s)) in
      bintools_strings.pack_string s (Some n) true = Ok (s ++ padding)
      /\ len (s ++ padding) = n
      /\ get_string (Some n) true true (mkWorld (s ++ padding ++ tail) ds)
         = (Ok (s ++ [0]),
            mkWorld (repeat 0 (Z.to_nat (n - len s - 1)) ++ tail) ds)).
Proof.
  intros Hs. split; [now apply encode_latin1_bytes|].
  split; [apply (get_string_whole_or_fixed 1 consume (mkWorld s ds))|].
  intros H0 Hn padding.
  assert (Hpad : padding = 0 :: repeat 0 (Z.to_nat (n - len s - 1))).
  { unfold padding.
    replace (Z.to_nat (n - len s)) with (S (Z.to_nat (n - len s - 1)))
      by lia.
    reflexivity. }
  split; [|split].
  - unfold bintools_strings.pack_string.
    destruct (Z.gtb_spec (len s) n); [lia|].
    apply encode_latin1_bytes. apply Forall_app. split; [assumption|].
    apply Forall_forall. intros x Hx. apply repeat_spec in Hx. subst x.
    unfold is_byte. lia.
  - unfold padding, len in *. rewrite length_app, repeat_length.
    unfold len. lia.
  - unfold get_string. destruct (Z.ltb_spec n 0); [unfold len in *; lia|].
    cbn [stream sink]. rewrite Hpad. cbn [app].
    rewrite get_string_loop_to_terminator;
      [reflexivity | assumption | cbn; lia | apply le_n].
Qed.

Lemma pack_string_get_string_witness :
  bintools_strings.pack_string [65; 66] (Some 4) true = Ok [65; 66; 0; 0]
  /\ get_string (Some 4) true true (mkWorld ([65; 66] ++ [0; 0] ++ [7]) [])
     = (Ok [65; 66; 0], mkWorld [0; 7] []).
Proof.
  destruct (pack_string_get_string [65; 66] [7] 4 true []) as (_ & _ & H).
  - repeat constructor; discriminate.
  - destruct H as (Hp & _ & Hg).
    + cbn. intuition discriminate.
    + cbn. lia.
    + split; [exact Hp | exact Hg].
Defined.

(** A [StringField] round trip on ASCII text: a string of at most
    [MAX_LENGTH] ASCII characters validates to itself, [to_bytes] writes
    one byte a character, and [from_bytes] reads the string back from
    those bytes, emptying the buffer. *)
Theorem string_field_ascii_round_trip (c : StringField.cls) (s : list Z)
    (w : world) (ds : list diag) :
  Forall is_ascii s -> len s <= StringField.MAX_LENGTH c ->
  StringField.validate c s w = (Ok s, w)
  /\ StringField.to_bytes (mkObject c s) = Ok s
  /\ bintools_strings.from_bytes None false true (mkWorld s ds)
     = (Ok s, mkWorld [] ds).
Proof.
  intros Hs Hlen. pose proof (ascii_is_byte s Hs) as Hb.
  split; [|split].
  - unfold StringField.validate, bind, lift.
    rewrite (encode_latin1_bytes s Hb). cbn [rbind].
    rewrite (decode_utf8_ascii s Hs).
    destruct (Z.leb_spec (len s) (StringField.MAX_LENGTH c)); [reflexivity|lia].
  - unfold StringField.to_bytes. cbn [value self_config].
    destruct (Z.gtb_spec (len s) (StringField.MAX_LENGTH c)); [lia|].
    now apply encode_latin1_bytes.
  - apply (get_string_whole_or_fixed 1 true (mkWorld s ds)).
Qed.

Lemma string_field_ascii_round_trip_witness :
  StringField.validate StringField.StringField [72; 105] (mkWorld [] [])
  = (Ok [72; 105], mkWorld [] [])
  /\ StringField.to_bytes (mkObject StringField.StringField [72; 105])
     = Ok [72; 105]
  /\ bintools_strings.from_bytes None false true (mkWorld [72; 105] [])
     = (Ok [72; 105], mkWorld [] []).
Proof.
  apply (string_field_ascii_round_trip StringField.StringField [72; 105]
           (mkWorld [] []) []).
  - repeat constructor; cbn; lia.
  - cbn. lia.
Defined.

(** ** [pack_int]: what does not fit *)

(** [pack_int] returns bytes exactly for a byte count of at least 1 and
    a value that fits in it, and raises [OverflowError] for every other
    value and count: a negative value is never written unsigned, and no
    value is silently truncated. *)
Theorem pack_int_overflow_iff (value num_bytes : Z) (signed : bool)
    (endianness : string) :
  endianness = "little" \/ endianness = "big" ->
  (pack_int value num_bytes signed endianness = Raise OverflowError
   <-> ~ (1 <= num_bytes /\ fits_in value num_bytes signed))
  /\ (forall bs,
        pack_int value num_bytes signed endianness = Ok bs ->
        len bs = num_bytes).
Proof.
  intros He.
  destruct (Z_lt_le_dec num_bytes 1) as [Hn|Hn].
  { unfold pack_int. destruct (Z.ltb_spec num_bytes 1); [|lia]. cbn [orb].
    split; [|discriminate]. split; [intros _ [H1 _]; lia | reflexivity]. }
  assert (Hdec : fits_in value num_bytes signed
                 \/ ~ fits_in value num_bytes signed).
  { unfold fits_in. destruct signed; lia. }
  destruct Hdec as [Hfit|Hfit].
  - destruct (pack_int_then_get_int value num_bytes signed true
                endianness [] [] Hn He Hfit) as (bs & Hp & Hl & _).
    rewrite Hp. split.
    + split; [discriminate | intros H; exfalso; apply H; auto].
    + intros bs' H. injection H as <-. exact Hl.
  - assert (Hraise : pack_int value num_bytes signed endianness
                     = Raise OverflowError).
    { unfold pack_int.
      destruct ((num_bytes <? 1) || (bit_length value >? num_bytes * 8));
        [reflexivity|].
      unfold int_to_bytes.
      assert (Hb : byteorder endianness [] = Ok []).
      { destruct He as [-> | ->]; reflexivity. }
      rewrite Hb. destruct (Z.ltb_spec num_bytes 0); [lia|].
      unfold fits_in in Hfit. destruct signed; cbn [negb andb].
      - destruct (Z.leb_spec (- 2 ^ (8 * num_bytes - 1)) value);
          destruct (Z.ltb_spec value (2 ^ (8 * num_bytes - 1)));
          destruct (Z.eqb_spec num_bytes 0); cbn [andb orb];
          try reflexivity; lia.
      - destruct (Z.ltb_spec value 0); [reflexivity|].
        destruct (Z.ltb_spec value (2 ^ (8 * num_bytes)));
          [lia | reflexivity]. }
    rewrite Hraise. split; [|discriminate].
    split; [intros _ [_ H]; now apply Hfit | reflexivity].
Qed.

Lemma pack_int_overflow_iff_witness :
  pack_int 256 1 false "little" = Raise OverflowError.
Proof.
  apply (pack_int_overflow_iff 256 1 false "little" (or_introl eq_refl)).
  unfold fits_in. intros [_ H]. cbn in H. lia.
Defined.

(** An integer field whose bit length is a whole number [n] of bytes,
    with [n] a multiple of 8 as [IntField.from_bytes] demands, is read
    back by [from_bytes(stream, n, SIGNED)] from what [to_bytes] wrote,
    for every value within the bit-length bounds. *)
Theorem int_field_round_trip_multiple_of_8
    (c : IntField.cls) (value : Z) (consume : bool) (rest : list Z)
    (ds : list diag) :
  let n := ceil_div8 (IntField.BIT_LENGTH c) in
  IntField.BIT_LENGTH c = 8 * n -> 1 <= n -> n mod 8 = 0 ->
  IntField.BIT_LENGTH_MINIMUM c <= value <= IntField.BIT_LENGTH_MAXIMUM c ->
  exists bs,
    IntField.to_bytes c (IntField.BIT_LENGTH c) value = Ok bs
    /\ IntField.from_bytes n (IntField.SIGNED c) consume "little"
         (mkWorld (bs ++ rest) ds)
       = (Ok value, mkWorld (if consume then rest else bs ++ rest) ds).
Proof.
  intros n Hbits Hn Hmod Hv.
  assert (Hfit : fits_in value n (IntField.SIGNED c)).
  { unfold fits_in, IntField.BIT_LENGTH_MINIMUM, IntField.BIT_LENGTH_MAXIMUM in *.
    rewrite Hbits in Hv. destruct (IntField.SIGNED c); lia. }
  destruct (pack_int_then_get_int value n (IntField.SIGNED c) consume
              "little" rest ds Hn (or_introl eq_refl) Hfit)
    as (bs & Hp & _ & Hg).
  exists bs. split; [exact Hp|].
  unfold IntField.from_bytes. rewrite Hmod. exact Hg.
Qed.

Lemma int_field_round_trip_multiple_of_8_witness :
  exists bs,
    IntField.to_bytes (IntField.mkCls 64 true None None) 64 (-2) = Ok bs
    /\ IntField.from_bytes 8 true true "little" (mkWorld (bs ++ [1]) [])
       = (Ok (-2), mkWorld [1] []).
Proof.
  apply (int_field_round_trip_multiple_of_8
           (IntField.mkCls 64 true None None) (-2) true [1] []).
  - reflexivity.
  - cbn. lia.
  - reflexivity.
  - cbn. lia.
Defined.

(** ** Raw data *)

(** A [RawDataField] accepts exactly the blobs of at most [MAX_LENGTH]
    bytes; [from_bytes] asked for as many bytes as [to_bytes] wrote
    returns the stored blob and, when consuming, removes exactly those
    bytes. *)
Theorem raw_data_round_trip (c : RawDataField.cls) (val rest : list Z)
    (consume : bool) (w : world) (ds : list diag) :
  RawDataField.validate c val w
  = (if len val <=? RawDataField.MAX_LENGTH c then Ok val
     else Raise OverflowError, w)
  /\ RawDataField.from_bytes (len val) consume
       (mkWorld (RawDataField.to_bytes (mkObject c val) ++ rest) ds)
     = (Ok val, mkWorld (if consume then rest else val ++ rest) ds).
Proof.
  split.
  - unfold RawDataField.validate.
    destruct (Z.gtb_spec (len val) (RawDataField.MAX_LENGTH c));
      destruct (Z.leb_spec (len val) (RawDataField.MAX_LENGTH c));
      try reflexivity; lia.
  - unfold RawDataField.from_bytes, RawDataField.to_bytes, get_bytes.
    cbn [value].
    destruct (read_first_bytes (len val) (mkWorld (val ++ rest) ds))
      as [Hpeek Hpop].
    { cbn [stream]. unfold len. rewrite length_app. lia. }
    cbn [stream sink] in *. unfold len in *. rewrite Nat2Z.id in *.
    rewrite firstn_app, Nat.sub_diag, firstn_all in *. cbn [firstn] in *.
    rewrite app_nil_r in *.
    rewrite skipn_app, Nat.sub_diag, skipn_all in Hpop. cbn [skipn app] in Hpop.
    destruct consume; cbn [_consumption_method]; assumption.
Qed.

(** ** [split_bits] on whole bytes, either endianness *)

(** The unsigned value of a run of bytes in a byte order, as
    [int.from_bytes] reads it. *)
Definition bytes_value (endianness : string) (bs : list Z) : Z :=
  if String.eqb endianness "little" then le_value bs else le_value (rev bs).

(** The values of consecutive runs of [ns] bytes. *)
Fixpoint chunk_values (endianness : string) (ns : list Z) (bs : list Z)
  : list Z :=
  match ns with
  | [] => []
  | n :: ns' =>
      bytes_value endianness (firstn (Z.to_nat n) bs)
      :: chunk_values endianness ns' (skipn (Z.to_nat n) bs)
  end.

Lemma le_value_app (a b : list Z) :
  le_value (a ++ b) = le_value a + 256 ^ len a * le_value b.
Proof.
  induction a as [|x a IH].
  - unfold len. cbn [app le_value List.length].
    change (Z.of_nat 0) with 0. rewrite Z.pow_0_r. lia.
  - cbn [app le_value]. rewrite IH. unfold len. cbn [List.length].
    rewrite Nat2Z.inj_succ, Z.pow_succ_r by lia. ring.
Qed.

Lemma combine_whole_bytes (bs : list Z) (a : Z) :
  fold_left (fun myslice '(v, n) => Z.shiftl myslice n + v)
    (map (fun b => (b, 8)) bs) a
  = a * 256 ^ len bs + le_value (rev bs).
Proof.
  revert a; induction bs as [|b bs IH]; intros a.
  - cbn. lia.
  - cbn [map fold_left rev]. rewrite IH, le_value_app.
    unfold len. rewrite length_rev. cbn [List.length le_value].
    rewrite Nat2Z.inj_succ, Z.pow_succ_r, Z.shiftl_mul_pow2 by lia.
    change (2 ^ 8) with 256. ring.
Qed.

Lemma slice_loop_whole_bytes (bs : list Z) (fuel : nat) (rest : list Z)
    (wb consumed : Z) (segments : list (Z * Z)) (w : world) :
  Forall is_byte bs ->
  (List.length bs <= fuel)%nat ->
  exists wb',
    slice_loop fuel (consumed + 8 * len bs) (mkCursor (bs ++ rest) wb 0)
      segments consumed w
    = (Ok (mkCursor rest wb' 0, segments ++ map (fun b => (b, 8)) bs), w).
Proof.
  intros Hbs; revert fuel wb consumed segments.
  induction Hbs as [|b bs Hb _ IH]; intros fuel wb k segs Hfuel.
  - exists wb. change (len []) with 0. rewrite Z.mul_0_r, Z.add_0_r.
    cbn [map app]. rewrite app_nil_r.
    destruct fuel; cbn [slice_loop];
      (destruct (Z.ltb_spec k k); [lia | reflexivity]).
  - destruct fuel as [|fuel]; [cbn in Hfuel; lia|].
    assert (Hlen : len (b :: bs) = len bs + 1).
    { unfold len. cbn [List.length]. lia. }
    assert (H0 : 0 <= len bs) by (unfold len; lia).
    cbn [slice_loop].
    destruct (Z.ltb_spec k (k + 8 * len (b :: bs))); [|lia].
    unfold bind at 1, next_byte.
    cbn [working_byte_bits_consumed mybytes app Z.eqb ret].
    cbn [working_byte_bits_consumed mybytes working_byte].
    replace (Z.min (k + 8 * len (b :: bs) - k) (8 - 0)) with 8 by lia.
    unfold bind at 1, lift. change (get_mask 8 0) with (Ok 255).
    change ((0 + 8) mod 8) with 0.
    assert (Hland : Z.land b 255 = b).
    { change 255 with (Z.ones 8). rewrite Z.land_ones by lia.
      unfold is_byte in Hb. apply Z.mod_small. exact Hb. }
    cbv iota beta. rewrite Hland.
    destruct (IH fuel (Z.shiftr b 8) (k + 8) (segs ++ [(b, 8)])
                ltac:(cbn in Hfuel; lia)) as [wb' E].
    exists wb'.
    replace (k + 8 * len (b :: bs)) with (k + 8 + 8 * len bs) by lia.
    rewrite E. now rewrite <- app_assoc.
Qed.

Lemma slices_loop_whole_bytes (ns : list Z) (endianness : string)
    (bytes : list Z) (wb : Z) (slices : list Z) (w : world) :
  endianness = "little" \/ endianness = "big" ->
  Forall (fun n => 0 <= n) ns ->
  sum ns <= len bytes ->
  Forall is_byte bytes ->
  slices_loop (map (fun n => 8 * n) ns) endianness (mkCursor bytes wb 0)
    slices w
  = (Ok (slices ++ chunk_values endianness ns bytes), w).
Proof.
  intros He Hns; revert bytes wb slices.
  induction Hns as [|n ns Hn Hns IH]; intros bytes wb slices Hsum Hbytes.
  - cbn. now rewrite app_nil_r.
  - rewrite sum_cons in Hsum. pose proof (sum_nonneg ns Hns) as Hs0.
    cbn [map slices_loop chunk_values].
    set (bs := firstn (Z.to_nat n) bytes).
    set (rest := skipn (Z.to_nat n) bytes).
    assert (Hsplit : bytes = bs ++ rest)
      by (symmetry; apply firstn_skipn).
    assert (Hlen : len bs = n).
    { unfold len, bs in *. rewrite length_firstn. lia. }
    assert (Hb : Forall is_byte bs).
    { rewrite Hsplit in Hbytes. now apply Forall_app in Hbytes. }
    assert (Hr : Forall is_byte rest).
    { rewrite Hsplit in Hbytes. now apply Forall_app in Hbytes. }
    destruct (slice_loop_whole_bytes bs (Z.to_nat (8 * n)) rest wb 0 [] w Hb)
      as [wb' E].
    { unfold len in Hlen. lia. }
    rewrite Hlen in E. cbn [Z.add app] in E.
    rewrite Hsplit at 1. unfold bind at 1. rewrite E.
    assert (Hord : exists ordered,
               _order_bytes (map (fun b => (b, 8)) bs) endianness = Ok ordered
               /\ combine_segments ordered = bytes_value endianness bs).
    { unfold _order_bytes, bytes_value, combine_segments.
      destruct He as [-> | ->]; cbn [String.eqb Ascii.eqb Bool.eqb].
      - eexists. split; [reflexivity|].
        rewrite <- map_rev, combine_whole_bytes, rev_involutive. lia.
      - eexists. split; [reflexivity|].
        rewrite combine_whole_bytes. lia. }
    destruct Hord as (ordered & Eord & Ecomb).
    unfold bind at 1, lift. rewrite Eord, Ecomb.
    rewrite IH.
    + now rewrite <- app_assoc.
    + unfold rest, len in *. rewrite length_skipn. lia.
    + exact Hr.
Qed.

Lemma sum_times_8 (ns : list Z) : sum (map (fun n => 8 * n) ns) = 8 * sum ns.
Proof.
  induction ns as [|n ns IH]; [reflexivity|].
  cbn [map]. rewrite !sum_cons, IH. lia.
Qed.

(** On widths that are whole numbers of bytes [split_bits] is a sequence
    of [get_int] reads: each slice is the unsigned integer that
    [get_int] reads from the next run of bytes in the same byte order,
    for little and for big endianness alike, and nothing is warned
    about. *)
Theorem split_bits_whole_bytes (ns : list Z) (consume : bool)
    (endianness : string) (w : world) :
  endianness = "little" \/ endianness = "big" ->
  Forall (fun n => 0 <= n) ns ->
  sum ns <= len (stream w) ->
  Forall is_byte (firstn (Z.to_nat (sum ns)) (stream w)) ->
  split_bits (map (fun n => 8 * n) ns) consume endianness w
  = (Ok (chunk_values endianness ns (firstn (Z.to_nat (sum ns)) (stream w))),
     mkWorld (if consume then skipn (Z.to_nat (sum ns)) (stream w)
              else stream w)
       (sink w))
  /\ (forall n,
        0 <= n <= len (stream w) ->
        get_int n false consume endianness w
        = (Ok (bytes_value endianness (firstn (Z.to_nat n) (stream w))),
           mkWorld (if consume then skipn (Z.to_nat n) (stream w)
                    else stream w)
             (sink w))).
Proof.
  intros He Hns Hsum Hbytes. pose proof (sum_nonneg ns Hns) as Hs0. split.
  - unfold split_bits. rewrite sum_times_8.
    assert (Hceil : ceil_div8 (8 * sum ns) = sum ns).
    { replace (8 * sum ns) with (8 * sum ns + 0) by lia.
      rewrite ceil_div8_add. change (ceil_div8 0) with 0. lia. }
    rewrite Hceil.
    destruct (Z.gtb_spec (sum ns) (len (stream w))); [lia|].
    assert (Hmod : (8 * sum ns) mod 8 = 0).
    { rewrite Z.mul_comm. apply Z.mod_mul. lia. }
    rewrite Hmod. cbn [Z.eqb negb]. unfold bind at 1, ret.
    destruct (read_first_bytes (sum ns) w Hsum) as [Hpeek Hpop].
    unfold bind at 1.
    assert (Hread : _consumption_method consume (sum ns) w
                    = (Ok (firstn (Z.to_nat (sum ns)) (stream w)),
                       mkWorld (if consume
                                then skipn (Z.to_nat (sum ns)) (stream w)
                                else stream w) (sink w))).
    { destruct consume; cbn [_consumption_method]; [exact Hpop|].
      rewrite Hpeek. now destruct w. }
    rewrite Hread.
    rewrite slices_loop_whole_bytes; try assumption; [reflexivity|].
    unfold len in *. rewrite length_firstn. lia.
  - intros n Hn. unfold get_int, bind.
    destruct (read_first_bytes n w ltac:(lia)) as [Hpeek Hpop].
    assert (Hread : _consumption_method consume n w
                    = (Ok (firstn (Z.to_nat n) (stream w)),
                       mkWorld (if consume
                                then skipn (Z.to_nat n) (stream w)
                                else stream w) (sink w))).
    { destruct consume; cbn [_consumption_method]; [exact Hpop|].
      rewrite Hpeek. now destruct w. }
    rewrite Hread. unfold lift, int_from_bytes, byteorder, bytes_value.
    destruct He as [-> | ->]; cbn [String.eqb Ascii.eqb Bool.eqb andb];
      reflexivity.
Qed.

Lemma split_bits_whole_bytes_witness :
  split_bits [16; 8] true "big" (mkWorld [0xCB; 0xDF; 7; 9] [])
  = (Ok [52191; 7], mkWorld [9] []).
Proof.
  apply (split_bits_whole_bytes [2; 1] true "big"
           (mkWorld [0xCB; 0xDF; 7; 9] [])).
  - now right.
  - repeat constructor; lia.
  - cbn. lia.
  - cbn. repeat constructor; cbn; lia.
Defined.

(** ** [merge_bits]: a value that does not fit *)

Lemma merge_loop_prefix (todo1 todo2 done : list (Z * Z)) :
  Forall field_fits done -> Forall field_fits todo1 ->
  merge_loop done (todo1 ++ todo2) "little"
    (le_bytes (Z.to_nat (ceil_div8 (segments_width done)))
       (join_fields done))
  = merge_loop (done ++ todo1) todo2 "little"
      (le_bytes (Z.to_nat (ceil_div8 (segments_width (done ++ todo1))))
         (join_fields (done ++ todo1))).
Proof.
  revert done; induction todo1 as [|[v l] todo1 IH]; intros done Hdone Htodo.
  - cbn [app]. now rewrite app_nil_r.
  - inversion Htodo as [|? ? [Hl Hv] Htodo']; subst. cbn [fst snd] in *.
    pose proof (fields_width_nonneg done Hdone) as HT.
    pose proof (join_fields_bound done Hdone) as HV.
    cbn [app merge_loop]. fold (segments_width done).
    rewrite pack_partial_int_little
      by (try lia; apply Z.mod_pos_bound; lia).
    cbn [rbind].
    rewrite (merge_step (join_fields done) (segments_width done) v l)
      by assumption.
    cbn [rbind].
    rewrite <- (join_fields_app done v l) by assumption.
    rewrite <- (segments_width_app done v l).
    rewrite IH.
    + now rewrite <- app_assoc.
    + apply Forall_app. split; [assumption|]. repeat constructor; cbn; lia.
    + assumption.
Qed.

Lemma pack_partial_int_overflow (v l o : Z) (endianness : string) :
  endianness = "little" \/ endianness = "big" ->
  0 <= o -> 1 <= l -> v < 0 \/ 2 ^ l <= v ->
  pack_partial_int v l false endianness o = Raise OverflowError.
Proof.
  intros He Ho Hl Hbad. unfold pack_partial_int.
  destruct (Z.ltb_spec o 0); [lia|]. cbn [rbind].
  destruct (Z.ltb_spec (l + o) 1); [reflexivity|]. cbn [orb].
  destruct (Z.gtb_spec (bit_length (Z.shiftl v o)) (l + o)); [reflexivity|].
  unfold int_to_bytes.
  assert (Hb : byteorder endianness [] = Ok []).
  { destruct He as [-> | ->]; reflexivity. }
  rewrite Hb. pose proof (ceil_div8_bounds (l + o)) as Hceil.
  destruct (Z.ltb_spec (ceil_div8 (l + o)) 0); [lia|].
  assert (Hpo : 0 < 2 ^ o) by (apply Z.pow_pos_nonneg; lia).
  rewrite Z.shiftl_mul_pow2 in * by lia.
  destruct (Z.ltb_spec (v * 2 ^ o) 0); [reflexivity|]. cbn [negb andb].
  exfalso.
  assert (Hbig : 2 ^ l <= v) by nia.
  assert (Hle : 2 ^ (l + o) <= v * 2 ^ o).
  { rewrite Z.pow_add_r by lia. nia. }
  assert (Hlog : l + o <= Z.log2 (v * 2 ^ o)).
  { rewrite <- (Z.log2_pow2 (l + o)) at 1 by lia.
    apply Z.log2_le_mono. exact Hle. }
  unfold bit_length in *.
  destruct (Z.eqb_spec (v * 2 ^ o) 0); [nia|].
  rewrite Z.abs_eq in * by lia. lia.
Qed.

(** [merge_bits] stops at the first value that does not fit its width: with
    every earlier pair fitting, a pair whose width is at least 1 and whose
    value is negative or needs more bits than the width makes the call raise
    [OverflowError], whatever follows; no bytes are returned, and only the
    padding warning (written before the loop) may have been logged. *)
Theorem merge_bits_value_too_wide (pre post : list (Z * Z)) (v l : Z)
    (w : world) :
  Forall field_fits pre -> 1 <= l -> v < 0 \/ 2 ^ l <= v ->
  let values := pre ++ (v, l) :: post in
  merge_bits values "little" w
  = (Raise OverflowError,
     mkWorld (stream w)
       (sink w
        ++ if segments_width values mod 8 =? 0 then []
           else [Warning pad_warning
                   [segments_width values;
                    8 - segments_width values mod 8]])).
Proof.
  intros Hpre Hl Hbad values. unfold merge_bits. fold (segments_width values).
  pose proof (merge_loop_prefix pre ((v, l) :: post) [] (Forall_nil _) Hpre)
    as Hloop.
  cbn [app] in Hloop. change (le_bytes _ (join_fields [])) with (@nil Z) in Hloop.
  assert (Hfail : merge_loop [] values "little" [] = Raise OverflowError).
  { unfold values. rewrite Hloop. cbn [merge_loop].
    rewrite pack_partial_int_overflow; try assumption.
    - reflexivity.
    - now left.
    - apply Z.mod_pos_bound. lia. }
  unfold bind, lift. rewrite Hfail.
  destruct (segments_width values mod 8 =? 0); cbn [negb].
  - cbn. rewrite app_nil_r. now destruct w.
  - reflexivity.
Qed.

Lemma merge_bits_value_too_wide_witness :
  merge_bits [(11, 4); (16, 4); (27, 5)] "little" (mkWorld [] [])
  = (Raise OverflowError,
     mkWorld [] [Warning pad_warning [13; 3]]).
Proof.
  apply (merge_bits_value_too_wide [(11, 4)] [(27, 5)] 16 4 (mkWorld [] [])).
  - repeat constructor; cbn; lia.
  - lia.
  - right. cbn. lia.
Defined.

(** ** [split_bits]: an endianness that is neither "little" nor "big" *)

(** The endianness is looked at only in [_order_bytes], after the first slice
    has been cut: with at least one width and enough bytes, an unknown
    endianness raises [NameError] after the padding warning was logged and,
    when consuming, after the bytes were taken from the stream. *)
Theorem split_bits_unknown_endianness (slice_length : Z) (rest : list Z)
    (consume : bool) (endianness : string) (w : world) :
  let slice_lengths := slice_length :: rest in
  let bytes_required := Z.to_nat (ceil_div8 (sum slice_lengths)) in
  endianness <> "little" -> endianness <> "big" ->
  Forall (fun x => 0 <= x) slice_lengths ->
  ceil_div8 (sum slice_lengths) <= len (stream w) ->
  Forall is_byte (firstn bytes_required (stream w)) ->
  split_bits slice_lengths consume endianness w
  = (Raise NameError,
     mkWorld
       (if consume then skipn bytes_required (stream w) else stream w)
       (sink w
        ++ if sum slice_lengths mod 8 =? 0 then []
           else [Warning bits_dropped_warning
                   [sum slice_lengths; 8 - sum slice_lengths mod 8]])).
Proof.
  intros slice_lengths k Hl Hb Hws Hlen Hbytes.
  pose proof (sum_nonneg _ Hws) as Hsum.
  pose proof (ceil_div8_bounds (sum slice_lengths)) as Hceil.
  unfold split_bits.
  destruct (Z.gtb_spec (ceil_div8 (sum slice_lengths)) (len (stream w)));
    [lia|].
  set (w1 := mkWorld (stream w)
               (sink w
                ++ if sum slice_lengths mod 8 =? 0 then []
                   else [Warning bits_dropped_warning
                           [sum slice_lengths;
                            8 - sum slice_lengths mod 8]])).
  assert (Hwarn :
            (if negb (sum slice_lengths mod 8 =? 0) then
               dbg_warning bits_dropped_warning
                 [sum slice_lengths; 8 - sum slice_lengths mod 8]
             else ret tt) w = (Ok tt, w1)).
  { unfold w1. destruct (sum slice_lengths mod 8 =? 0); cbn [negb].
    - rewrite app_nil_r. now destruct w.
    - reflexivity. }
  unfold bind at 1. rewrite Hwarn.
  assert (Hread : _consumption_method consume (ceil_div8 (sum slice_lengths)) w1
                  = (Ok (firstn k (stream w)),
                     mkWorld (if consume then skipn k (stream w) else stream w)
                       (sink w1))).
  { destruct (read_first_bytes (ceil_div8 (sum slice_lengths)) w1 Hlen)
      as [Hpeek Hpop].
    destruct consume; cbn [_consumption_method]; [exact Hpop|].
    rewrite Hpeek. reflexivity. }
  unfold bind at 1. rewrite Hread.
  inversion Hws as [|? ? Hl0 Hrest]; subst.
  assert (Hrs : 0 <= sum rest) by now apply sum_nonneg.
  assert (Hsum' : sum slice_lengths = slice_length + sum rest)
    by apply sum_cons.
  set (c := mkCursor (firstn k (stream w)) 0 0).
  set (w2 := mkWorld (if consume then skipn k (stream w) else stream w)
               (sink w1)).
  assert (Hc : cursor_ok c).
  { unfold cursor_ok, c.
    cbn [mybytes working_byte working_byte_bits_consumed].
    repeat split; try lia; try assumption. }
  assert (Hbits : slice_length - 0 <= cursor_bits c).
  { unfold cursor_bits, c. cbn [mybytes working_byte_bits_consumed Z.eqb].
    unfold len in *. rewrite length_firstn. unfold k. lia. }
  destruct (slice_loop_little (Z.to_nat slice_length) slice_length c [] 0 w2
              Hc ltac:(lia) (Forall_nil _) eq_refl Hbits ltac:(lia))
    as (c' & segments' & Hloop & _).
  unfold slice_lengths. cbn [slices_loop]. unfold bind at 1. rewrite Hloop.
  unfold bind, lift, _order_bytes.
  apply String.eqb_neq in Hl, Hb. rewrite Hl, Hb. reflexivity.
Qed.

Lemma split_bits_unknown_endianness_witness :
  split_bits [4; 4; 6] true "middle" (mkWorld [203; 223; 7] [])
  = (Raise NameError,
     mkWorld [7] [Warning bits_dropped_warning [14; 2]]).
Proof.
  apply (split_bits_unknown_endianness 4 [4; 6] true "middle"
           (mkWorld [203; 223; 7] [])).
  - discriminate.
  - discriminate.
  - repeat constructor; lia.
  - vm_compute. discriminate.
  - repeat constructor; unfold is_byte; lia.
Defined.

(** ** The views keep the declaration order *)

Section ViewOrder.

Context {plain value : Type}.
Variable stored : plain -> value.
Variable of_int : Z -> value.
Variable enrich : plain -> res value.

Implicit Types (k : string) (d acc : list (string * view value)).
Implicit Types (b : ProtocolBlock plain) (f : Field plain).

Lemma setitem_fresh k (v : view value) d :
  ~ In k (map fst d) -> setitem k v d = d ++ [(k, v)].
Proof.
  induction d as [|[k' v'] d IH]; cbn; intros Hk; [reflexivity|].
  destruct (String.eqb_spec k k') as [-> | _]; [tauto|].
  rewrite IH by tauto. reflexivity.
Qed.

Lemma raw_walk_appends b acc :
  NoDup (map fst acc ++ map fst b) ->
  fold_left
    (fun d (kf : string * Field plain) =>
       setitem (fst kf) (raw_entry stored of_int (snd kf)) d) b acc
  = acc ++ map (fun kf => (fst kf, raw_entry stored of_int (snd kf))) b.
Proof.
  revert acc; induction b as [|[k0 f0] b IH]; intros acc Hnd; cbn [fold_left map].
  - now rewrite app_nil_r.
  - cbn [fst snd] in *.
    pose proof (NoDup_remove_2 _ _ _ Hnd) as Hfresh.
    rewrite setitem_fresh by (intros Hin; apply Hfresh, in_or_app; now left).
    rewrite IH.
    + now rewrite <- app_assoc.
    + rewrite map_app. cbn [map fst]. rewrite <- app_assoc. exact Hnd.
Qed.

Lemma enriched_walk_keys b acc d :
  NoDup (map fst acc ++ map fst b) ->
  fold_left (enrich_step (enriched_entry of_int enrich)) b (Ok acc) = Ok d ->
  map fst d
  = map fst acc
    ++ map fst (filter (fun kf => negb (is_reserved (snd kf))) b).
Proof.
  revert acc; induction b as [|[k0 f0] b IH]; intros acc Hnd H;
    cbn [fold_left map filter] in *.
  - inversion H; subst. now rewrite app_nil_r.
  - cbn [fst snd] in *. unfold enrich_step at 2 in H. cbn [rbind fst snd] in H.
    pose proof (NoDup_remove_1 _ _ _ Hnd) as Hrest.
    pose proof (NoDup_remove_2 _ _ _ Hnd) as Hfresh.
    destruct (is_reserved f0); cbn [negb].
    + now apply IH.
    + destruct (enriched_entry of_int enrich f0) as [t|e]; cbn [rbind] in H.
      * rewrite setitem_fresh in H
          by (intros Hin; apply Hfresh, in_or_app; now left).
        apply IH in H.
        -- rewrite H, map_app. cbn [map fst]. now rewrite <- app_assoc.
        -- rewrite map_app. cbn [map fst]. rewrite <- app_assoc. exact Hnd.
      * rewrite enriched_walk_raise in H. discriminate.
Qed.

(** C9's views list the fields in the order the block declares them.  For a
    block whose keys are distinct (a dictionary), the raw view has one entry
    per field, in declaration order, each holding the field's raw entry; and
    whenever the enriched view is built, its keys are the keys of the fields
    that are not reserved, in declaration order. *)
Theorem views_keep_declaration_order b :
  NoDup (map fst b) ->
  _get_object_dict stored of_int b
  = map (fun kf => (fst kf, raw_entry stored of_int (snd kf))) b
  /\ forall d,
       _enrich_object_dict of_int enrich b = Ok d ->
       map fst d
       = map fst (filter (fun kf => negb (is_reserved (snd kf))) b).
Proof.
  intros Hnd. split.
  - unfold _get_object_dict. now rewrite raw_walk_appends.
  - intros d Hd. now apply (enriched_walk_keys b [] d).
Qed.

End ViewOrder.

Lemma views_keep_declaration_order_witness :
  map fst (_get_object_dict id id sample_block)
  = ["id"; "pad"; "body"; "items"]
  /\ forall d,
       _enrich_object_dict id (fun x : Z => Ok x) sample_block = Ok d ->
       map fst d = ["id"; "body"; "items"].
Proof.
  assert (Hnd : NoDup (map fst sample_block)).
  { cbn. repeat constructor; cbn; intuition discriminate. }
  destruct (views_keep_declaration_order id id (fun x : Z => Ok x)
              sample_block Hnd) as [Hraw Henr].
  split.
  - rewrite Hraw. reflexivity.
  - exact Henr.
Defined.

(** ** Writing a reserved field *)

(** C10's bound and [to_bytes]: a reserved field of [size] bits inherits
    [IntField.to_bytes], which writes [ceil(size / 8)] bytes.  Every value
    below [2 ** size] is written, as its little-endian bytes; the value
    [2 ** size], which the constructor accepts, cannot be written when
    [size] is a multiple of 8: [to_bytes] raises [OverflowError]. *)
Theorem reserved_field_to_bytes (n : Z) (w : world) :
  1 <= n ->
  fst (ReservedField.__init__ (2 ^ n) n w)
  = Ok (mkObject (ReservedField.mkConfig n) (2 ^ n))
  /\ (n mod 8 = 0 ->
      IntField.to_bytes ReservedField.ReservedField n (2 ^ n)
      = Raise OverflowError)
  /\ (forall v,
        0 <= v < 2 ^ n ->
        IntField.to_bytes ReservedField.ReservedField n v
        = Ok (le_bytes (Z.to_nat (ceil_div8 n)) v)).
Proof.
  intros Hn.
  pose proof (ceil_div8_bounds n) as Hceil.
  assert (Hpn : 0 < 2 ^ n) by (apply Z.pow_pos_nonneg; lia).
  split; [|split].
  - unfold ReservedField.__init__, __init__, bind, ret,
      ReservedField.validate, IntField.validate, py_or.
    cbn [IntField.MINIMUM IntField.MAXIMUM IntField.MINIMUM_override
         IntField.MAXIMUM_override ReservedField.ReservedField
         IntField.BIT_LENGTH_MINIMUM IntField.SIGNED
         ReservedField.size].
    destruct (Z.eqb_spec (2 ^ n) 0); [lia|].
    destruct (Z.gtb_spec (2 ^ n) (2 ^ n)); [lia|].
    destruct (Z.ltb_spec (2 ^ n) 0); [lia|].
    destruct (Z.gtb_spec (2 ^ n) 0); [|lia].
    reflexivity.
  - intros Hm. unfold IntField.to_bytes, pack_int.
    assert (Hk : 8 * ceil_div8 n = n).
    { unfold ceil_div8 in *.
      pose proof (Z.div_mod n 8 ltac:(lia)).
      assert (Hneg : (- n) mod 8 = 0).
      { apply Z.mod_divide; [lia|]. apply Z.divide_opp_r.
        apply Z.mod_divide; [lia|assumption]. }
      pose proof (Z.div_mod (- n) 8 ltac:(lia)). lia. }
    destruct (Z.ltb_spec (ceil_div8 n) 1); [reflexivity|]. cbn [orb].
    assert (Hbl : bit_length (2 ^ n) = n + 1).
    { unfold bit_length. destruct (Z.eqb_spec (2 ^ n) 0); [lia|].
      rewrite Z.abs_eq, Z.log2_pow2 by lia. reflexivity. }
    rewrite Hbl.
    destruct (Z.gtb_spec (n + 1) (ceil_div8 n * 8)); [reflexivity|lia].
  - intros v Hv. unfold IntField.to_bytes, pack_int.
    cbn [IntField.SIGNED ReservedField.ReservedField].
    destruct (Z.ltb_spec (ceil_div8 n) 1); [lia|]. cbn [orb].
    pose proof (bit_length_fits_unsigned v n ltac:(lia) Hv) as Hbl.
    destruct (Z.gtb_spec (bit_length v) (ceil_div8 n * 8)); [lia|].
    unfold int_to_bytes.
    cbn [byteorder String.eqb Ascii.eqb Bool.eqb negb andb].
    destruct (Z.ltb_spec (ceil_div8 n) 0); [lia|].
    destruct (Z.ltb_spec v 0); [lia|].
    assert (Hle : 2 ^ n <= 2 ^ (8 * ceil_div8 n))
      by (apply Z.pow_le_mono_r; lia).
    destruct (Z.ltb_spec v (2 ^ (8 * ceil_div8 n))); [reflexivity|lia].
Qed.

Lemma reserved_field_to_bytes_witness :
  fst (ReservedField.__init__ 256 8 (mkWorld [] []))
  = Ok (mkObject (ReservedField.mkConfig 8) 256)
  /\ IntField.to_bytes ReservedField.ReservedField 8 256
     = Raise OverflowError
  /\ IntField.to_bytes ReservedField.ReservedField 8 255 = Ok [255].
Proof.
  destruct (reserved_field_to_bytes 8 (mkWorld [] []) ltac:(lia))
    as (Hinit & Hfull & Hless).
  split; [exact Hinit|]. split.
  - apply Hfull. reflexivity.
  - apply (Hless 255). cbn. lia.
Defined.

(** ** What [MaskField.enrich] keeps *)

(** The integer whose bit [i] is set exactly when the [i]-th entry of an
    enriched mask is true. *)
Definition flags_value (enriched : list (string * bool)) : Z :=
  sum (map (fun p : (string * bool) * nat =>
              if snd (fst p) then 2 ^ Z.of_nat (snd p) else 0)
         (combine enriched (seq 0 (List.length enriched)))).

(** The flags of an [IntFlag] whose members are the bits 0, 1, 2, ... in
    definition order. *)
Definition bit_flags (flags : list (string * Z)) : Prop :=
  map snd flags
  = map (fun i => 2 ^ Z.of_nat i) (seq 0 (List.length flags)).

Lemma land_pow2 (v i : Z) :
  0 <= i -> Z.land v (2 ^ i) = if Z.testbit v i then 2 ^ i else 0.
Proof.
  intros Hi. apply Z.bits_inj'. intros j Hj.
  rewrite Z.land_spec, Z.pow2_bits_eqb by lia.
  destruct (Z.eqb_spec i j) as [<- | Hne].
  - destruct (Z.testbit v i); cbn [andb].
    + now rewrite Z.pow2_bits_true.
    + now rewrite Z.bits_0.
  - rewrite andb_false_r. destruct (Z.testbit v i).
    + rewrite Z.pow2_bits_false by lia. reflexivity.
    + now rewrite Z.bits_0.
Qed.

Lemma sum_of_bits (v : Z) (m : nat) :
  sum (map (fun i => if Z.testbit v (Z.of_nat i) then 2 ^ Z.of_nat i else 0)
         (seq 0 m))
  = v mod 2 ^ Z.of_nat m.
Proof.
  induction m as [|m IH].
  - cbn [seq map]. change (Z.of_nat 0) with 0. rewrite Z.pow_0_r, Z.mod_1_r.
    reflexivity.
  - rewrite seq_S, map_app. cbn [map Nat.add]. rewrite sum_app, IH.
    rewrite Nat2Z.inj_succ, Z.pow_succ_r by lia.
    assert (Hp : 0 < 2 ^ Z.of_nat m) by (apply Z.pow_pos_nonneg; lia).
    rewrite (Z.mul_comm 2), Z.rem_mul_r by lia.
    rewrite <- Z.testbit_spec' by lia.
    destruct (Z.testbit v (Z.of_nat m)); cbn [Z.b2z]; lia.
Qed.

Lemma enrich_bits (v : Z) (flags : list (string * Z)) (a : nat) :
  map snd flags
  = map (fun i => 2 ^ Z.of_nat i) (seq a (List.length flags)) ->
  map (fun p : (string * bool) * nat =>
         if snd (fst p) then 2 ^ Z.of_nat (snd p) else 0)
    (combine
       (map (fun f => (fst f, negb (Z.land v (snd f) =? 0))) flags)
       (seq a (List.length flags)))
  = map (fun i => if Z.testbit v (Z.of_nat i) then 2 ^ Z.of_nat i else 0)
      (seq a (List.length flags)).
Proof.
  revert a; induction flags as [|[name x] flags IH]; intros a H;
    [reflexivity|].
  cbn [List.length seq map combine fst snd] in *.
  injection H as Hx Hrest. subst x. rewrite (IH _ Hrest). f_equal.
  rewrite land_pow2 by lia.
  assert (Hp : 0 < 2 ^ Z.of_nat a) by (apply Z.pow_pos_nonneg; lia).
  destruct (Z.testbit v (Z.of_nat a)).
  - destruct (Z.eqb_spec (2 ^ Z.of_nat a) 0); [lia|reflexivity].
  - reflexivity.
Qed.

(** For a mask whose flags are the bits 0 .. n-1 and a stored value within
    the n bits, the enriched dictionary loses nothing: the value is the sum
    of the bits whose flag is reported true, so two such values with the same
    enriched view are equal. *)
Theorem mask_enrich_keeps_value (flags : list (string * Z)) (v : Z) :
  bit_flags flags -> 0 <= v < 2 ^ len flags ->
  flags_value (MaskField.enrich (MaskField.mkObj flags v)) = v
  /\ forall v',
       0 <= v' < 2 ^ len flags ->
       MaskField.enrich (MaskField.mkObj flags v')
       = MaskField.enrich (MaskField.mkObj flags v) ->
       v' = v.
Proof.
  intros Hflags Hv.
  assert (Hval : forall x, 0 <= x < 2 ^ len flags ->
            flags_value (MaskField.enrich (MaskField.mkObj flags x)) = x).
  { intros x Hx. unfold flags_value, MaskField.enrich.
    cbn [MaskField.Flags MaskField.value]. rewrite length_map.
    rewrite (enrich_bits x flags 0 Hflags), sum_of_bits.
    apply Z.mod_small. exact Hx. }
  split; [now apply Hval|].
  intros v' Hv' He. rewrite <- (Hval v' Hv'), He. now apply Hval.
Qed.

Lemma mask_enrich_keeps_value_witness :
  flags_value
    (MaskField.enrich
       (MaskField.mkObj [("A", 1); ("B", 2); ("C", 4)] 5)) = 5.
Proof.
  assert (Hflags : bit_flags [("A", 1); ("B", 2); ("C", 4)]) by reflexivity.
  assert (Hv : 0 <= 5 < 2 ^ len [("A", 1); ("B", 2); ("C", 4)])
    by (cbn; lia).
  exact (proj1 (mask_enrich_keeps_value _ 5 Hflags Hv)).
Defined.

(** ** [merge_int_fields] *)

(** A field can be merged and read back when its value fits in its own
    [bit_length] bits. *)
Definition fits_bit_length (f : int_field) : Prop :=
  1 <= obj_bit_length f /\ 0 <= obj_value f < 2 ^ obj_bit_length f.

(** [merge_int_fields] reads each field's [value] and its [bit_length]
    property.  Fields whose values fit their bit lengths are merged, and
    [split_bits] with those bit lengths reads the values back, with no
    byte left over.  Validation gives this for an unsigned [IntField]
    class that keeps [IntField.validate] and has at least one bit.  It
    does not for a [ReservedField]: the value [2 ** size], which its
    constructor accepts, does not fit, and merging such a field raises
    [OverflowError]. *)
Theorem merge_int_fields_round_trip (fields : list int_field) (w : world) :
  (Forall fits_bit_length fields ->
   exists merged w1 w2,
     merge_int_fields fields w = (Ok merged, w1)
     /\ split_bits (map obj_bit_length fields) true "little"
          (mkWorld merged (sink w1))
        = (Ok (map obj_value fields), w2)
     /\ stream w2 = [])
  /\ (forall c v wv,
        IntField.SIGNED c = false -> 1 <= IntField.BIT_LENGTH c ->
        fst (IntField.validate c v None None None None wv) = Ok v ->
        fits_bit_length (OfClass c v))
  /\ (forall n w0,
        1 <= n ->
        exists o,
          fst (ReservedField.__init__ (2 ^ n) n w0) = Ok o
          /\ ~ fits_bit_length (OfDynamicLength o)
          /\ fst (merge_int_fields [OfDynamicLength o] w)
             = Raise OverflowError).
Proof.
  split; [|split].
  - intros H. unfold merge_int_fields.
    set (values := map (fun f => (obj_value f, obj_bit_length f)) fields).
    assert (Hfit : Forall field_fits values).
    { unfold values. apply Forall_map. eapply Forall_impl; [|exact H].
      intros f Hf. exact Hf. }
    destruct (merge_then_split values true [] w Hfit)
      as (merged & w1 & w2 & Hm & _ & Hs & Hr).
    exists merged, w1, w2. rewrite app_nil_r in Hs.
    split; [exact Hm|]. split; [|exact Hr].
    replace (map obj_bit_length fields) with (map snd values)
      by (unfold values; now rewrite map_map).
    replace (map obj_value fields) with (map fst values)
      by (unfold values; now rewrite map_map).
    exact Hs.
  - intros c v wv Hs Hb Hv. unfold fits_bit_length.
    cbn [obj_value obj_bit_length].
    rewrite int_validate_result in Hv. cbv zeta in Hv.
    unfold py_or, IntField.BIT_LENGTH_MAXIMUM, IntField.BIT_LENGTH_MINIMUM
      in Hv.
    rewrite Hs in Hv.
    destruct (Z.gtb_spec v (2 ^ IntField.BIT_LENGTH c - 1));
      [discriminate|].
    destruct (Z.ltb_spec v 0); [discriminate|]. lia.
  - intros n w0 Hn.
    assert (Hpn : 0 < 2 ^ n) by (apply Z.pow_pos_nonneg; lia).
    exists (mkObject (ReservedField.mkConfig n) (2 ^ n)).
    split; [|split].
    + unfold ReservedField.__init__, __init__, bind, ret,
        ReservedField.validate, IntField.validate, py_or.
      cbn [IntField.MINIMUM IntField.MAXIMUM IntField.MINIMUM_override
           IntField.MAXIMUM_override ReservedField.ReservedField
           IntField.BIT_LENGTH_MINIMUM IntField.SIGNED
           ReservedField.size].
      destruct (Z.eqb_spec (2 ^ n) 0); [lia|].
      destruct (Z.gtb_spec (2 ^ n) (2 ^ n)); [lia|].
      destruct (Z.ltb_spec (2 ^ n) 0); [lia|].
      destruct (Z.gtb_spec (2 ^ n) 0); [|lia].
      reflexivity.
    + unfold fits_bit_length.
      cbn [obj_value obj_bit_length value self_config ReservedField.size].
      lia.
    + unfold merge_int_fields, merge_bits, bind, lift.
      cbn [map obj_value obj_bit_length value self_config
           ReservedField.size snd].
      assert (Hloop : merge_loop [] [(2 ^ n, n)] "little" []
                      = Raise OverflowError).
      { cbn [merge_loop map]. change (sum [] mod 8) with 0.
        rewrite pack_partial_int_overflow; try lia; [reflexivity|].
        now left. }
      rewrite Hloop.
      destruct (negb (sum [n] mod 8 =? 0)); reflexivity.
Qed.

Lemma merge_int_fields_round_trip_witness :
  let fields :=
    [OfClass (IntField.mkCls 3 false None None) 5;
     OfDynamicLength (mkObject (ReservedField.mkConfig 5) 9);
     OfClass IntField.IntField 200] in
  exists merged w1 w2,
    merge_int_fields fields (mkWorld [] []) = (Ok merged, w1)
    /\ split_bits [3; 5; 8] true "little" (mkWorld merged (sink w1))
       = (Ok [5; 9; 200], w2)
    /\ stream w2 = [].
Proof.
  cbv zeta.
  apply (merge_int_fields_round_trip
           [OfClass (IntField.mkCls 3 false None None) 5;
            OfDynamicLength (mkObject (ReservedField.mkConfig 5) 9);
            OfClass IntField.IntField 200] (mkWorld [] [])).
  repeat constructor; cbn; lia.
Defined.

(** ** When the enriched view fails *)

(** The fields of a tree on which [_enrich_object_dict] calls [enrich()],
    in the order it reaches them: every field that is neither reserved
    nor a block, through nested blocks and block lists. *)
Fixpoint plain_fields {plain : Type} (f : Field plain) : list plain :=
  match f with
  | PlainField p => [p]
  | ReservedField _ _ => []
  | BlockField b => flat_map (fun kf => plain_fields (snd kf)) b
  | BlockListField bs =>
      flat_map (fun b => flat_map (fun kf => plain_fields (snd kf)) b) bs
  end.

(** The exception of the first field of [l] whose [enrich()] raises. *)
Fixpoint first_failure {plain value : Type} (enrich : plain -> res value)
    (l : list plain) : option exn :=
  match l with
  | [] => None
  | p :: l' =>
      match enrich p with
      | Raise e => Some e
      | Ok _ => first_failure enrich l'
      end
  end.

Section ViewFailure.

Context {plain value : Type}.
Variable of_int : Z -> value.
Variable enrich : plain -> res value.

Implicit Types (b : ProtocolBlock plain) (f : Field plain).

Lemma first_failure_app (l1 l2 : list plain) :
  first_failure enrich (l1 ++ l2)
  = match first_failure enrich l1 with
    | Some e => Some e
    | None => first_failure enrich l2
    end.
Proof.
  induction l1 as [|p l1 IH]; [reflexivity|].
  cbn [app first_failure]. now destruct (enrich p).
Qed.

(** What the walk makes of one field, told by its plain fields. *)
Definition entry_follows f : Prop :=
  match first_failure enrich (plain_fields f) with
  | None => exists t, enriched_entry of_int enrich f = Ok t
  | Some e => enriched_entry of_int enrich f = Raise e
  end.

Lemma walk_first_failure b (acc : list (string * view value)) :
  Forall (fun kf => entry_follows (snd kf)) b ->
  match first_failure enrich (flat_map (fun kf => plain_fields (snd kf)) b) with
  | None =>
      exists d,
        fold_left (enrich_step (enriched_entry of_int enrich)) b (Ok acc)
        = Ok d
  | Some e =>
      fold_left (enrich_step (enriched_entry of_int enrich)) b (Ok acc)
      = Raise e
  end.
Proof.
  intros H; revert acc; induction H as [|[k f] b Hf _ IH]; intros acc.
  - cbn. now exists acc.
  - cbn [flat_map fold_left snd]. rewrite first_failure_app.
    unfold enrich_step at 2 4. cbn [rbind fst snd].
    unfold entry_follows in Hf. cbn [snd] in Hf.
    destruct (is_reserved f) eqn:Er.
    + destruct f; try discriminate. cbn [plain_fields first_failure].
      apply IH.
    + destruct (first_failure enrich (plain_fields f)) as [e|].
      * rewrite Hf. cbn [rbind]. apply enriched_walk_raise.
      * destruct Hf as [t ->]. cbn [rbind]. apply IH.
Qed.

Lemma sequence_first_failure (bs : list (ProtocolBlock plain)) :
  Forall (fun b => Forall (fun kf => entry_follows (snd kf)) b) bs ->
  let g := fun b =>
    rbind (_enrich_object_dict of_int enrich b) (fun d => Ok (Dict d)) in
  match first_failure enrich
          (flat_map (fun b => flat_map (fun kf => plain_fields (snd kf)) b)
             bs) with
  | None => exists items, sequence (map g bs) = Ok items
  | Some e => sequence (map g bs) = Raise e
  end.
Proof.
  intros H; cbv zeta; induction H as [|b bs Hb _ IH].
  - cbn. now exists [].
  - cbn [flat_map map sequence]. rewrite first_failure_app.
    pose proof (walk_first_failure b [] Hb) as Hw.
    fold (_enrich_object_dict of_int enrich b) in Hw.
    destruct (first_failure enrich
                (flat_map (fun kf => plain_fields (snd kf)) b)) as [e|].
    + rewrite Hw. reflexivity.
    + destruct Hw as [d Hd]. rewrite Hd. cbn [rbind].
      destruct (first_failure enrich
                  (flat_map
                     (fun b0 => flat_map (fun kf => plain_fields (snd kf)) b0)
                     bs)) as [e|].
      * rewrite IH. reflexivity.
      * destruct IH as [items ->]. cbn [rbind]. eauto.
Qed.

Lemma entry_follows_all f : entry_follows f.
Proof.
  induction f as [x | v n | b IH | bs IH] using Field_tree_ind;
    unfold entry_follows.
  - cbn [plain_fields first_failure enriched_entry].
    destruct (enrich x) as [v|e]; cbn [rbind]; eauto.
  - cbn. eauto.
  - rewrite enriched_entry_block. cbn [plain_fields].
    pose proof (walk_first_failure b [] IH) as Hw.
    fold (_enrich_object_dict of_int enrich b) in Hw.
    destruct (first_failure enrich
                (flat_map (fun kf => plain_fields (snd kf)) b)) as [e|].
    + now rewrite Hw.
    + destruct Hw as [d ->]. cbn [rbind]. eauto.
  - rewrite enriched_entry_list. cbn [plain_fields].
    pose proof (sequence_first_failure bs IH) as Hs. cbv zeta in Hs.
    match goal with
    | |- match first_failure enrich ?l with _ => _ end =>
        change (first_failure enrich _) with (first_failure enrich l) in Hs;
        destruct (first_failure enrich l) as [e|]
    end.
    + now rewrite Hs.
    + destruct Hs as [items ->]. cbn [rbind]. eauto.
Qed.

(** The enriched view of a block is built exactly when [enrich()] succeeds
    on every field of the tree that is neither reserved nor a block;
    otherwise [_enrich_object_dict] raises the exception of the first
    such field, in declaration order, whose [enrich()] raises.  Reserved
    fields are never enriched. *)
Theorem enrich_object_dict_first_failure b :
  match first_failure enrich (plain_fields (BlockField b)) with
  | None => exists d, _enrich_object_dict of_int enrich b = Ok d
  | Some e => _enrich_object_dict of_int enrich b = Raise e
  end.
Proof.
  cbn [plain_fields]. apply (walk_first_failure b []).
  apply Forall_forall. intros kf _. apply entry_follows_all.
Qed.

End ViewFailure.
